(** * The GitHub Solidity scraper: a shallow embedding and its properties

    The script [github-solidity-scraper.py] samples the GitHub repository
    search by file-size strata, walks every repository it finds down to the
    commits of its Solidity files and stores everything in an SQLite
    database.  This development embeds the script's core in Gallina:

    - [Re]: texts as sequences of code points, and the fragment of
      Python's [re] that the three patterns of the script use, as a
      backtracking matcher; [find_compiler_version];
    - the stratum planner: [strat_init], [strat_advance] and the strata
      that the main loop visits;
    - [Store]: the three tables with their [INSERT OR IGNORE] semantics;
    - the script itself (section [Script]): its global variables as a
      record, the network as an oracle, and its functions in a
      state-and-exception monad, under the names they have in the source.

    Definitions come first, the properties follow. *)

From Stdlib Require Import ZArith QArith Qround List String Ascii Bool Lia.
From Stdlib Require Import RelationClasses DecimalString.
Import ListNotations.

Local Open Scope string_scope.
Local Open Scope Z_scope.

(* ===================================================================== *)
(** * Regular expressions *)
(* ===================================================================== *)

(** A Python [str] is a sequence of code points.  A [string] of this
    development holds such a text in UTF-8, the encoding in which the API
    delivers it and in which the literals of this file are written;
    [Re.codepoints] reads the code points back.  Python's [\d], [\s] and
    [\w] on a [str] follow the Unicode database: the tables below are
    those of Unicode 14.0 (CPython 3.11), and another version of Python
    differs from them only at code points assigned since. *)

Module Re.

(** ** Text *)

Definition byte (c : ascii) : N := N_of_ascii c.

(** A continuation byte, [10xxxxxx]. *)
Definition continuation (c : ascii) : bool :=
  ((128 <=? byte c) && (byte c <=? 191))%N.

(** The code point of a well-formed sequence of two, three or four bytes:
    shortest form, no surrogate, at most U+10FFFF. *)
Definition two (a b : ascii) : option N :=
  if ((194 <=? byte a) && (byte a <=? 223))%N && continuation b
  then Some ((byte a - 192) * 64 + (byte b - 128))%N
  else None.

Definition three (a b c : ascii) : option N :=
  let cp := ((byte a - 224) * 4096 + (byte b - 128) * 64 + (byte c - 128))%N in
  if ((224 <=? byte a) && (byte a <=? 239))%N &&
     continuation b && continuation c &&
     (2048 <=? cp)%N && negb ((55296 <=? cp) && (cp <=? 57343))%N
  then Some cp
  else None.

Definition four (a b c d : ascii) : option N :=
  let cp := ((byte a - 240) * 262144 + (byte b - 128) * 4096 +
             (byte c - 128) * 64 + (byte d - 128))%N in
  if ((240 <=? byte a) && (byte a <=? 244))%N &&
     continuation b && continuation c && continuation d &&
     (65536 <=? cp)%N && (cp <=? 1114111)%N
  then Some cp
  else None.

(** A byte that starts no well-formed sequence stands for itself, as the
    code point U+DC00 + byte (the convention of [surrogateescape]); it
    belongs to no character class. *)
Definition stray (a : ascii) : N := (56320 + byte a)%N.

(** The code point that starts with the byte [a], followed by [rest], and
    the number of bytes of [rest] that belong to it. *)
Definition head (a : ascii) (rest : string) : N * nat :=
  if (byte a <? 128)%N then (byte a, O)
  else
    match rest with
    | String b rest2 =>
        match two a b with
        | Some cp => (cp, 1%nat)
        | None =>
            match rest2 with
            | String c rest3 =>
                match three a b c with
                | Some cp => (cp, 2%nat)
                | None =>
                    match rest3 with
                    | String d _ =>
                        match four a b c d with
                        | Some cp => (cp, 3%nat)
                        | None => (stray a, O)
                        end
                    | EmptyString => (stray a, O)
                    end
                end
            | EmptyString => (stray a, O)
            end
        end
    | EmptyString => (stray a, O)
    end.

(** The code points of a text from its first byte on, once [skip] bytes
    of the sequence before are passed. *)
Fixpoint codepoints_from (skip : nat) (s : string) : list N :=
  match s with
  | EmptyString => []
  | String a rest =>
      match skip with
      | S skip' => codepoints_from skip' rest
      | O => fst (head a rest) :: codepoints_from (snd (head a rest)) rest
      end
  end.

Definition codepoints (s : string) : list N := codepoints_from 0 s.

Definition chr (n : N) : ascii := ascii_of_N n.

(** The UTF-8 form of a code point; a stray byte is written back. *)
Definition encode (cp : N) : string :=
  (if cp <? 128 then String (chr cp) ""
   else if cp <? 2048 then
     String (chr (192 + cp / 64)) (String (chr (128 + cp mod 64)) "")
   else if (56448 <=? cp) && (cp <=? 56575) then String (chr (cp - 56320)) ""
   else if cp <? 65536 then
     String (chr (224 + cp / 4096))
       (String (chr (128 + (cp / 64) mod 64))
          (String (chr (128 + cp mod 64)) ""))
   else
     String (chr (240 + (cp / 262144) mod 8))
       (String (chr (128 + (cp / 4096) mod 64))
          (String (chr (128 + (cp / 64) mod 64))
             (String (chr (128 + cp mod 64)) ""))))%N.

Fixpoint utf8 (l : list N) : string :=
  match l with
  | [] => ""
  | cp :: l' => encode cp ++ utf8 l'
  end.

(** ** Character classes *)

Definition in_range (lo hi c : N) : bool := ((lo <=? c) && (c <=? hi))%N.

Definition in_table (table : list (N * N)) (c : N) : bool :=
  existsb (fun r => in_range (fst r) (snd r) c) table.

(** The code points above U+007F that [str.isspace] accepts. *)
Definition space_table : list (N * N) :=
  [(133, 133); (160, 160); (5760, 5760); (8192, 8202); (8232, 8233);
    (8239, 8239); (8287, 8287); (12288, 12288) ]%N.

(** The code points above U+007F that [str.isdecimal] accepts (category
    [Nd]), as inclusive ranges. *)
Definition decimal_table : list (N * N) :=
  [(1632, 1641); (1776, 1785); (1984, 1993); (2406, 2415); (2534, 2543);
    (2662, 2671); (2790, 2799); (2918, 2927); (3046, 3055); (3174, 3183);
    (3302, 3311); (3430, 3439); (3558, 3567); (3664, 3673); (3792, 3801);
    (3872, 3881); (4160, 4169); (4240, 4249); (6112, 6121); (6160, 6169);
    (6470, 6479); (6608, 6617); (6784, 6793); (6800, 6809); (6992, 7001);
    (7088, 7097); (7232, 7241); (7248, 7257); (42528, 42537);
    (43216, 43225); (43264, 43273); (43472, 43481); (43504, 43513);
    (43600, 43609); (44016, 44025); (65296, 65305); (66720, 66729);
    (68912, 68921); (69734, 69743); (69872, 69881); (69942, 69951);
    (70096, 70105); (70384, 70393); (70736, 70745); (70864, 70873);
    (71248, 71257); (71360, 71369); (71472, 71481); (71904, 71913);
    (72016, 72025); (72784, 72793); (73040, 73049); (73120, 73129);
    (92768, 92777); (92864, 92873); (93008, 93017); (120782, 120831);
    (123200, 123209); (123632, 123641); (125264, 125273); (130032, 130041) ]%N.

(** The code points above U+007F that [str.isalnum] accepts, as inclusive
    ranges. *)
Definition alnum_table : list (N * N) :=
  [(170, 170); (178, 179); (181, 181); (185, 186); (188, 190); (192, 214);
    (216, 246); (248, 705); (710, 721); (736, 740); (748, 748); (750, 750);
    (880, 884); (886, 887); (890, 893); (895, 895); (902, 902); (904, 906);
    (908, 908); (910, 929); (931, 1013); (1015, 1153); (1162, 1327);
    (1329, 1366); (1369, 1369); (1376, 1416); (1488, 1514); (1519, 1522);
    (1568, 1610); (1632, 1641); (1646, 1647); (1649, 1747); (1749, 1749);
    (1765, 1766); (1774, 1788); (1791, 1791); (1808, 1808); (1810, 1839);
    (1869, 1957); (1969, 1969); (1984, 2026); (2036, 2037); (2042, 2042);
    (2048, 2069); (2074, 2074); (2084, 2084); (2088, 2088); (2112, 2136);
    (2144, 2154); (2160, 2183); (2185, 2190); (2208, 2249); (2308, 2361);
    (2365, 2365); (2384, 2384); (2392, 2401); (2406, 2415); (2417, 2432);
    (2437, 2444); (2447, 2448); (2451, 2472); (2474, 2480); (2482, 2482);
    (2486, 2489); (2493, 2493); (2510, 2510); (2524, 2525); (2527, 2529);
    (2534, 2545); (2548, 2553); (2556, 2556); (2565, 2570); (2575, 2576);
    (2579, 2600); (2602, 2608); (2610, 2611); (2613, 2614); (2616, 2617);
    (2649, 2652); (2654, 2654); (2662, 2671); (2674, 2676); (2693, 2701);
    (2703, 2705); (2707, 2728); (2730, 2736); (2738, 2739); (2741, 2745);
    (2749, 2749); (2768, 2768); (2784, 2785); (2790, 2799); (2809, 2809);
    (2821, 2828); (2831, 2832); (2835, 2856); (2858, 2864); (2866, 2867);
    (2869, 2873); (2877, 2877); (2908, 2909); (2911, 2913); (2918, 2927);
    (2929, 2935); (2947, 2947); (2949, 2954); (2958, 2960); (2962, 2965);
    (2969, 2970); (2972, 2972); (2974, 2975); (2979, 2980); (2984, 2986);
    (2990, 3001); (3024, 3024); (3046, 3058); (3077, 3084); (3086, 3088);
    (3090, 3112); (3114, 3129); (3133, 3133); (3160, 3162); (3165, 3165);
    (3168, 3169); (3174, 3183); (3192, 3198); (3200, 3200); (3205, 3212);
    (3214, 3216); (3218, 3240); (3242, 3251); (3253, 3257); (3261, 3261);
    (3293, 3294); (3296, 3297); (3302, 3311); (3313, 3314); (3332, 3340);
    (3342, 3344); (3346, 3386); (3389, 3389); (3406, 3406); (3412, 3414);
    (3416, 3425); (3430, 3448); (3450, 3455); (3461, 3478); (3482, 3505);
    (3507, 3515); (3517, 3517); (3520, 3526); (3558, 3567); (3585, 3632);
    (3634, 3635); (3648, 3654); (3664, 3673); (3713, 3714); (3716, 3716);
    (3718, 3722); (3724, 3747); (3749, 3749); (3751, 3760); (3762, 3763);
    (3773, 3773); (3776, 3780); (3782, 3782); (3792, 3801); (3804, 3807);
    (3840, 3840); (3872, 3891); (3904, 3911); (3913, 3948); (3976, 3980);
    (4096, 4138); (4159, 4169); (4176, 4181); (4186, 4189); (4193, 4193);
    (4197, 4198); (4206, 4208); (4213, 4225); (4238, 4238); (4240, 4249);
    (4256, 4293); (4295, 4295); (4301, 4301); (4304, 4346); (4348, 4680);
    (4682, 4685); (4688, 4694); (4696, 4696); (4698, 4701); (4704, 4744);
    (4746, 4749); (4752, 4784); (4786, 4789); (4792, 4798); (4800, 4800);
    (4802, 4805); (4808, 4822); (4824, 4880); (4882, 4885); (4888, 4954);
    (4969, 4988); (4992, 5007); (5024, 5109); (5112, 5117); (5121, 5740);
    (5743, 5759); (5761, 5786); (5792, 5866); (5870, 5880); (5888, 5905);
    (5919, 5937); (5952, 5969); (5984, 5996); (5998, 6000); (6016, 6067);
    (6103, 6103); (6108, 6108); (6112, 6121); (6128, 6137); (6160, 6169);
    (6176, 6264); (6272, 6276); (6279, 6312); (6314, 6314); (6320, 6389);
    (6400, 6430); (6470, 6509); (6512, 6516); (6528, 6571); (6576, 6601);
    (6608, 6618); (6656, 6678); (6688, 6740); (6784, 6793); (6800, 6809);
    (6823, 6823); (6917, 6963); (6981, 6988); (6992, 7001); (7043, 7072);
    (7086, 7141); (7168, 7203); (7232, 7241); (7245, 7293); (7296, 7304);
    (7312, 7354); (7357, 7359); (7401, 7404); (7406, 7411); (7413, 7414);
    (7418, 7418); (7424, 7615); (7680, 7957); (7960, 7965); (7968, 8005);
    (8008, 8013); (8016, 8023); (8025, 8025); (8027, 8027); (8029, 8029);
    (8031, 8061); (8064, 8116); (8118, 8124); (8126, 8126); (8130, 8132);
    (8134, 8140); (8144, 8147); (8150, 8155); (8160, 8172); (8178, 8180);
    (8182, 8188); (8304, 8305); (8308, 8313); (8319, 8329); (8336, 8348);
    (8450, 8450); (8455, 8455); (8458, 8467); (8469, 8469); (8473, 8477);
    (8484, 8484); (8486, 8486); (8488, 8488); (8490, 8493); (8495, 8505);
    (8508, 8511); (8517, 8521); (8526, 8526); (8528, 8585); (9312, 9371);
    (9450, 9471); (10102, 10131); (11264, 11492); (11499, 11502);
    (11506, 11507); (11517, 11517); (11520, 11557); (11559, 11559);
    (11565, 11565); (11568, 11623); (11631, 11631); (11648, 11670);
    (11680, 11686); (11688, 11694); (11696, 11702); (11704, 11710);
    (11712, 11718); (11720, 11726); (11728, 11734); (11736, 11742);
    (11823, 11823); (12293, 12295); (12321, 12329); (12337, 12341);
    (12344, 12348); (12353, 12438); (12445, 12447); (12449, 12538);
    (12540, 12543); (12549, 12591); (12593, 12686); (12690, 12693);
    (12704, 12735); (12784, 12799); (12832, 12841); (12872, 12879);
    (12881, 12895); (12928, 12937); (12977, 12991); (13312, 19903);
    (19968, 42124); (42192, 42237); (42240, 42508); (42512, 42539);
    (42560, 42606); (42623, 42653); (42656, 42735); (42775, 42783);
    (42786, 42888); (42891, 42954); (42960, 42961); (42963, 42963);
    (42965, 42969); (42994, 43009); (43011, 43013); (43015, 43018);
    (43020, 43042); (43056, 43061); (43072, 43123); (43138, 43187);
    (43216, 43225); (43250, 43255); (43259, 43259); (43261, 43262);
    (43264, 43301); (43312, 43334); (43360, 43388); (43396, 43442);
    (43471, 43481); (43488, 43492); (43494, 43518); (43520, 43560);
    (43584, 43586); (43588, 43595); (43600, 43609); (43616, 43638);
    (43642, 43642); (43646, 43695); (43697, 43697); (43701, 43702);
    (43705, 43709); (43712, 43712); (43714, 43714); (43739, 43741);
    (43744, 43754); (43762, 43764); (43777, 43782); (43785, 43790);
    (43793, 43798); (43808, 43814); (43816, 43822); (43824, 43866);
    (43868, 43881); (43888, 44002); (44016, 44025); (44032, 55203);
    (55216, 55238); (55243, 55291); (63744, 64109); (64112, 64217);
    (64256, 64262); (64275, 64279); (64285, 64285); (64287, 64296);
    (64298, 64310); (64312, 64316); (64318, 64318); (64320, 64321);
    (64323, 64324); (64326, 64433); (64467, 64829); (64848, 64911);
    (64914, 64967); (65008, 65019); (65136, 65140); (65142, 65276);
    (65296, 65305); (65313, 65338); (65345, 65370); (65382, 65470);
    (65474, 65479); (65482, 65487); (65490, 65495); (65498, 65500);
    (65536, 65547); (65549, 65574); (65576, 65594); (65596, 65597);
    (65599, 65613); (65616, 65629); (65664, 65786); (65799, 65843);
    (65856, 65912); (65930, 65931); (66176, 66204); (66208, 66256);
    (66273, 66299); (66304, 66339); (66349, 66378); (66384, 66421);
    (66432, 66461); (66464, 66499); (66504, 66511); (66513, 66517);
    (66560, 66717); (66720, 66729); (66736, 66771); (66776, 66811);
    (66816, 66855); (66864, 66915); (66928, 66938); (66940, 66954);
    (66956, 66962); (66964, 66965); (66967, 66977); (66979, 66993);
    (66995, 67001); (67003, 67004); (67072, 67382); (67392, 67413);
    (67424, 67431); (67456, 67461); (67463, 67504); (67506, 67514);
    (67584, 67589); (67592, 67592); (67594, 67637); (67639, 67640);
    (67644, 67644); (67647, 67669); (67672, 67702); (67705, 67742);
    (67751, 67759); (67808, 67826); (67828, 67829); (67835, 67867);
    (67872, 67897); (67968, 68023); (68028, 68047); (68050, 68096);
    (68112, 68115); (68117, 68119); (68121, 68149); (68160, 68168);
    (68192, 68222); (68224, 68255); (68288, 68295); (68297, 68324);
    (68331, 68335); (68352, 68405); (68416, 68437); (68440, 68466);
    (68472, 68497); (68521, 68527); (68608, 68680); (68736, 68786);
    (68800, 68850); (68858, 68899); (68912, 68921); (69216, 69246);
    (69248, 69289); (69296, 69297); (69376, 69415); (69424, 69445);
    (69457, 69460); (69488, 69505); (69552, 69579); (69600, 69622);
    (69635, 69687); (69714, 69743); (69745, 69746); (69749, 69749);
    (69763, 69807); (69840, 69864); (69872, 69881); (69891, 69926);
    (69942, 69951); (69956, 69956); (69959, 69959); (69968, 70002);
    (70006, 70006); (70019, 70066); (70081, 70084); (70096, 70106);
    (70108, 70108); (70113, 70132); (70144, 70161); (70163, 70187);
    (70272, 70278); (70280, 70280); (70282, 70285); (70287, 70301);
    (70303, 70312); (70320, 70366); (70384, 70393); (70405, 70412);
    (70415, 70416); (70419, 70440); (70442, 70448); (70450, 70451);
    (70453, 70457); (70461, 70461); (70480, 70480); (70493, 70497);
    (70656, 70708); (70727, 70730); (70736, 70745); (70751, 70753);
    (70784, 70831); (70852, 70853); (70855, 70855); (70864, 70873);
    (71040, 71086); (71128, 71131); (71168, 71215); (71236, 71236);
    (71248, 71257); (71296, 71338); (71352, 71352); (71360, 71369);
    (71424, 71450); (71472, 71483); (71488, 71494); (71680, 71723);
    (71840, 71922); (71935, 71942); (71945, 71945); (71948, 71955);
    (71957, 71958); (71960, 71983); (71999, 71999); (72001, 72001);
    (72016, 72025); (72096, 72103); (72106, 72144); (72161, 72161);
    (72163, 72163); (72192, 72192); (72203, 72242); (72250, 72250);
    (72272, 72272); (72284, 72329); (72349, 72349); (72368, 72440);
    (72704, 72712); (72714, 72750); (72768, 72768); (72784, 72812);
    (72818, 72847); (72960, 72966); (72968, 72969); (72971, 73008);
    (73030, 73030); (73040, 73049); (73056, 73061); (73063, 73064);
    (73066, 73097); (73112, 73112); (73120, 73129); (73440, 73458);
    (73648, 73648); (73664, 73684); (73728, 74649); (74752, 74862);
    (74880, 75075); (77712, 77808); (77824, 78894); (82944, 83526);
    (92160, 92728); (92736, 92766); (92768, 92777); (92784, 92862);
    (92864, 92873); (92880, 92909); (92928, 92975); (92992, 92995);
    (93008, 93017); (93019, 93025); (93027, 93047); (93053, 93071);
    (93760, 93846); (93952, 94026); (94032, 94032); (94099, 94111);
    (94176, 94177); (94179, 94179); (94208, 100343); (100352, 101589);
    (101632, 101640); (110576, 110579); (110581, 110587); (110589, 110590);
    (110592, 110882); (110928, 110930); (110948, 110951); (110960, 111355);
    (113664, 113770); (113776, 113788); (113792, 113800); (113808, 113817);
    (119520, 119539); (119648, 119672); (119808, 119892); (119894, 119964);
    (119966, 119967); (119970, 119970); (119973, 119974); (119977, 119980);
    (119982, 119993); (119995, 119995); (119997, 120003); (120005, 120069);
    (120071, 120074); (120077, 120084); (120086, 120092); (120094, 120121);
    (120123, 120126); (120128, 120132); (120134, 120134); (120138, 120144);
    (120146, 120485); (120488, 120512); (120514, 120538); (120540, 120570);
    (120572, 120596); (120598, 120628); (120630, 120654); (120656, 120686);
    (120688, 120712); (120714, 120744); (120746, 120770); (120772, 120779);
    (120782, 120831); (122624, 122654); (123136, 123180); (123191, 123197);
    (123200, 123209); (123214, 123214); (123536, 123565); (123584, 123627);
    (123632, 123641); (124896, 124902); (124904, 124907); (124909, 124910);
    (124912, 124926); (124928, 125124); (125127, 125135); (125184, 125251);
    (125259, 125259); (125264, 125273); (126065, 126123); (126125, 126127);
    (126129, 126132); (126209, 126253); (126255, 126269); (126464, 126467);
    (126469, 126495); (126497, 126498); (126500, 126500); (126503, 126503);
    (126505, 126514); (126516, 126519); (126521, 126521); (126523, 126523);
    (126530, 126530); (126535, 126535); (126537, 126537); (126539, 126539);
    (126541, 126543); (126545, 126546); (126548, 126548); (126551, 126551);
    (126553, 126553); (126555, 126555); (126557, 126557); (126559, 126559);
    (126561, 126562); (126564, 126564); (126567, 126570); (126572, 126578);
    (126580, 126583); (126585, 126588); (126590, 126590); (126592, 126601);
    (126603, 126619); (126625, 126627); (126629, 126633); (126635, 126651);
    (127232, 127244); (130032, 130041); (131072, 173791); (173824, 177976);
    (177984, 178205); (178208, 183969); (183984, 191456); (194560, 195101);
    (196608, 201546) ]%N.

(** [\d] *)
Definition is_digit (c : N) : bool :=
  if (c <? 128)%N then in_range 48 57 c else in_table decimal_table c.

(** [\s]: in ASCII the tab, newline, vertical tab, form feed, carriage
    return, the four separators 0x1c-0x1f and the space. *)
Definition is_space (c : N) : bool :=
  if (c <? 128)%N then in_range 9 13 c || in_range 28 32 c
  else in_table space_table c.

(** [\w] *)
Definition is_word (c : N) : bool :=
  if (c <? 128)%N then
    in_range 48 57 c || in_range 65 90 c || in_range 97 122 c || (c =? 95)%N
  else in_table alnum_table c.

(** A literal character of a pattern. *)
Definition is_char (a : ascii) (c : N) : bool := (byte a =? c)%N.

Fixpoint one_of (set : string) (c : N) : bool :=
  match set with
  | EmptyString => false
  | String a set' => is_char a c || one_of set' c
  end.

(** ** The matcher *)

(** The atoms that occur in the script's patterns.  Every quantifier of the
    script is applied to a single character class. *)
Inductive atom : Type :=
| Cls (p : N -> bool)       (* one character of a class, or a literal *)
| Opt (p : N -> bool)       (* [p?]  *)
| Star (p : N -> bool)      (* [p*]  *)
| Plus (p : N -> bool)      (* [p+]  *)
| PlusLazy (p : N -> bool)  (* [p+?] *)
| Ahead (p : N -> bool)     (* [(?=p)] *)
| Eos                       (* [$] *)
| GOpen                     (* opening parenthesis of group 1 *)
| GClose.                   (* closing parenthesis of group 1 *)

(** What a match has consumed so far: the whole match and group 1, both in
    reverse, and whether group 1 is open. *)
Record caps : Type := mkCaps {
  whole : list N;
  grp : list N;
  inside : bool
}.

Definition no_caps : caps := mkCaps [] [] false.

Definition eat (c : N) (m : caps) : caps :=
  mkCaps (c :: whole m) (if inside m then c :: grp m else grp m) (inside m).

Definition cont : Type := list N -> caps -> option caps.

Definition or_else (r : option caps) (alt : option caps) : option caps :=
  match r with
  | Some m => Some m
  | None => alt
  end.

Definition one (p : N -> bool) (k : cont) : cont :=
  fun t m =>
    match t with
    | c :: t' => if p c then k t' (eat c m) else None
    | [] => None
    end.

(** Greedy: first with one more character, then without. *)
Fixpoint star (p : N -> bool) (k : cont) (t : list N) (m : caps)
  : option caps :=
  match t with
  | c :: t' =>
      if p c then or_else (star p k t' (eat c m)) (k t m) else k t m
  | [] => k t m
  end.

(** Lazy: first stop here, then take one more character. *)
Fixpoint plus_lazy (p : N -> bool) (k : cont) (t : list N) (m : caps)
  : option caps :=
  match t with
  | c :: t' =>
      if p c then or_else (k t' (eat c m)) (plus_lazy p k t' (eat c m))
      else None
  | [] => None
  end.

Definition newline : ascii := ascii_of_N 10.

(** [$] without MULTILINE: at the end, or before a final newline. *)
Definition at_end (k : cont) : cont :=
  fun t m =>
    match t with
    | [] => k t m
    | [c] => if is_char newline c then k t m else None
    | _ :: _ :: _ => None
    end.

Definition ahead (p : N -> bool) (k : cont) : cont :=
  fun t m =>
    match t with
    | c :: _ => if p c then k t m else None
    | [] => None
    end.

Fixpoint run (re : list atom) (k : cont) : cont :=
  match re with
  | [] => k
  | a :: re' =>
      let k' := run re' k in
      match a with
      | Cls p => one p k'
      | Opt p => fun t m => or_else (one p k' t m) (k' t m)
      | Star p => star p k'
      | Plus p => one p (star p k')
      | PlusLazy p => plus_lazy p k'
      | Ahead p => ahead p k'
      | Eos => at_end k'
      | GOpen => fun t m => k' t (mkCaps (whole m) [] true)
      | GClose => fun t m => k' t (mkCaps (whole m) (grp m) false)
      end
  end.

Definition match_at (re : list atom) (t : list N) : option caps :=
  run re (fun _ m => Some m) t no_caps.

(** The leftmost position of the code points [t] at which the pattern
    matches. *)
Fixpoint search_from (re : list atom) (t : list N) : option caps :=
  match match_at re t with
  | Some m => Some m
  | None =>
      match t with
      | _ :: t' => search_from re t'
      | [] => None
      end
  end.

(** [re.search] *)
Definition search (re : list atom) (text : string) : option caps :=
  search_from re (codepoints text).

Definition group0 (m : caps) : string := utf8 (rev (whole m)).
Definition group1 (m : caps) : string := utf8 (rev (grp m)).

Fixpoint lit (s : string) : list atom :=
  match s with
  | EmptyString => []
  | String c s' => Cls (is_char c) :: lit s'
  end.

(** [r'pragma solidity [<>^]?=?\s*([\d.]+)'] *)
Definition compiler_re : list atom :=
  lit "pragma solidity " ++
  [ Opt (one_of "<>^"); Opt (is_char "="); Star is_space;
    GOpen; Plus (fun c => is_digit c || is_char "." c); GClose ].

(** [fr'\w\.sol$'] *)
Definition sol_re : list atom := Cls is_word :: lit ".sol" ++ [Eos].

(** [r'[\w-]+?(?=\.)'] *)
Definition name_re : list atom :=
  [ PlusLazy (fun c => is_word c || is_char "-" c); Ahead (is_char ".") ].

(** Whether the pattern matches at a position inside [pre], in the code
    points [pre ++ rest]. *)
Fixpoint matches_inside (re : list atom) (pre rest : list N) : bool :=
  match pre with
  | [] => false
  | _ :: pre' =>
      match match_at re (pre ++ rest) with
      | Some _ => true
      | None => matches_inside re pre' rest
      end
  end.

End Re.

Definition find_compiler_version (text : string) : string :=
  let compiler_vers := "" in
  match Re.search Re.compiler_re text with
  | Some compiler_re => Re.group1 compiler_re
  | None => compiler_vers
  end.

(** Substring test, used to state what a text contains. *)
Fixpoint contains (needle hay : string) : bool :=
  if prefix needle hay then true
  else match hay with
       | EmptyString => false
       | String _ hay' => contains needle hay'
       end.

(** Whether the pattern matches at a position inside [pre], in the text
    [pre ++ rest]. *)
Definition matches_before (re : list Re.atom) (pre rest : string) : bool :=
  Re.matches_inside re (Re.codepoints pre) (Re.codepoints rest).

(* ===================================================================== *)
(** * Configuration and the stratum planner *)
(* ===================================================================== *)

(** The parsed command line ([args]).  [github_token] is [None] when neither
    the option nor the environment variable is given. *)
Record Args : Type := mkArgs {
  min_size : Z;
  max_size : Z;
  stratum_size : Z;
  throttle : bool;
  forks : bool;
  licensed : bool;
  github_token : option string
}.

(** Only files smaller than 384 KB are searchable. *)
Definition MAX_FILE_SIZE : Z := 393216.

(** The checks of the sizes that follow [parser.parse_args()] (lines
    59-68); [false] is [sys.exit]. *)
Definition sizes_accepted (args : Args) : bool :=
  negb (min_size args <? 1) &&
  negb (min_size args >=? max_size args) &&
  negb (max_size args <? 1) &&
  negb (max_size args >? MAX_FILE_SIZE) &&
  negb (stratum_size args <? 1).

(** [not args.github_token]: no token, or an empty one. *)
Definition no_token (args : Args) : bool :=
  match github_token args with
  | None => true
  | Some tok => String.eqb tok ""
  end.

(** [str.lower] as far as a comparison with ASCII letters can tell: the
    letters A to Z are mapped, every other byte is kept.  (Of the
    characters outside ASCII, Python's [lower] maps the Kelvin sign alone
    to an ASCII letter, [k].) *)
Definition lower_char (c : ascii) : ascii :=
  if ((65 <=? N_of_ascii c) && (N_of_ascii c <=? 90))%N
  then ascii_of_N (N_of_ascii c + 32)
  else c.

Fixpoint lower (s : string) : string :=
  match s with
  | EmptyString => EmptyString
  | String c s' => String (lower_char c) (lower s')
  end.

(** The check of the token (lines 69-76).  Without a token the script
    asks whether to go on; [confirm_no_token] is what [input] returns,
    [None] when the input has ended ([EOFError]).  [false] is the end of
    the script. *)
Definition token_accepted (args : Args) (confirm_no_token : option string)
  : bool :=
  if no_token args then
    match confirm_no_token with
    | Some answer =>
        String.eqb (lower answer) "yes" || String.eqb (lower answer) "y"
    | None => false
    end
  else true.

(** All the checks between [parser.parse_args()] and the first global
    variable: whether the script gets to its start. *)
Definition args_accepted (args : Args) (confirm_no_token : option string)
  : bool :=
  sizes_accepted args && token_accepted args confirm_no_token.

(** The bounds of a stratum, [(strat_first, strat_last)]. *)
Definition bounds : Type := (Z * Z)%type.

(** Lines 91-92. *)
Definition strat_init (args : Args) : bounds :=
  (min_size args,
   Z.min (min_size args + stratum_size args - 1) (max_size args)).

(** Lines 685-686 (and 567-568 on resume). *)
Definition strat_advance (args : Args) (b : bounds) : bounds :=
  (fst b + stratum_size args,
   Z.min (snd b + stratum_size args) (max_size args)).

(** The strata that [while strat_first <= args.max_size] visits from the
    bounds [b] on; [None] when the fuel runs out before the loop ends. *)
Fixpoint strata_from (fuel : nat) (args : Args) (b : bounds)
  : option (list bounds) :=
  if fst b <=? max_size args then
    match fuel with
    | O => None
    | S fuel' =>
        match strata_from fuel' args (strat_advance args b) with
        | Some rest => Some (b :: rest)
        | None => None
        end
    end
  else Some [].

Definition strata (fuel : nat) (args : Args) : option (list bounds) :=
  strata_from fuel args (strat_init args).

(** The bounds the loop holds at the start of a turn. *)
Definition planned (args : Args) (b : bounds) : Prop :=
  snd b = Z.min (fst b + stratum_size args - 1) (max_size args).

(** Consecutive strata: each one starts right after the one before. *)
Fixpoint contiguous (l : list bounds) : Prop :=
  match l with
  | [] => True
  | b :: l' =>
      match l' with
      | [] => True
      | b' :: _ => fst b' = snd b + 1
      end /\ contiguous l'
  end.

(** No size lies in two strata of the list. *)
Definition non_overlapping (l : list bounds) : Prop :=
  forall i j b b' x, nth_error l i = Some b -> nth_error l j = Some b' ->
    fst b <= x <= snd b -> fst b' <= x <= snd b' -> i = j.

(* ===================================================================== *)
(** * What the GitHub API returns *)
(* ===================================================================== *)

(** An item of a repository search (the keys the script reads). *)
Record Repo : Type := mkRepo {
  id : Z;
  name : string;
  full_name : string;
  description : option string;
  url : string;
  fork : bool;
  owner_id : Z;
  owner_login : string;
  default_branch : string;
  commits_url : string
}.

(** An entry of a git tree; the script adds the key ['name']. *)
Record TreeEntry : Type := mkEntry {
  entry_type : string;
  path : string;
  sha : string;
  entry_name : string
}.

(** An item of a commit list. *)
Record Commit : Type := mkCommit {
  commit_sha : string;
  message : string;
  date : string;
  parents : list string
}.

(* ===================================================================== *)
(** * The results database *)
(* ===================================================================== *)

Module Store.

Record repo_row : Type := mkRepoRow {
  repo_id : Z;
  r_name : string;
  r_full_name : string;
  r_description : option string;
  r_url : string;
  r_fork : Z;
  r_owner_id : Z;
  r_owner_login : string
}.

Record file_row : Type := mkFileRow {
  file_id : Z;
  f_name : string;
  f_path : string;
  f_sha : string;
  f_repo_id : Z
}.

Record comit_row : Type := mkComitRow {
  comit_id : Z;
  c_sha : string;
  c_message : string;
  c_size : Z;
  c_created : string;
  c_content : string;
  c_compiler_version : string;
  c_parents : string;
  c_file_id : Z
}.

(** The three tables in insertion order, and the connection's
    [last_insert_rowid], which is what a cursor's [lastrowid] reports. *)
Record database : Type := mkDb {
  repo : list repo_row;
  file : list file_row;
  comit : list comit_row;
  last_insert_rowid : Z
}.

Definition empty : database := mkDb [] [] [] 0.

(** [select count( * ) from ... where ...] *)
Definition count {A : Type} (p : A -> bool) (rows : list A) : Z :=
  Z.of_nat (List.length (filter p rows)).

(** The rowid SQLite gives a row inserted without one: one more than the
    largest in the table. *)
Definition next_rowid {A : Type} (rowid : A -> Z) (rows : list A) : Z :=
  fold_right (fun r m => Z.max (rowid r) m) 0 rows + 1.

(** [INSERT OR IGNORE INTO repo]: [repo_id] is the primary key. *)
Definition insert_or_ignore_repo (row : repo_row) (d : database) : database :=
  if existsb (fun r => repo_id r =? repo_id row) (repo d) then d
  else mkDb (repo d ++ [row]) (file d) (comit d) (repo_id row).

(** [INSERT OR IGNORE INTO file]: [UNIQUE(path, repo_id)]; the primary key
    [file_id] is assigned. *)
Definition insert_or_ignore_file (nm pth sh : string) (rid : Z) (d : database)
  : database :=
  if existsb (fun r => String.eqb (f_path r) pth && (f_repo_id r =? rid))
             (file d)
  then d
  else
    let fid := next_rowid file_id (file d) in
    mkDb (repo d) (file d ++ [mkFileRow fid nm pth sh rid]) (comit d) fid.

(** [INSERT OR IGNORE INTO comit]: [UNIQUE(sha, file_id)]; the primary key
    [comit_id] is assigned. *)
Definition insert_or_ignore_comit
  (sh msg : string) (size : Z) (created content vers prnts : string) (fid : Z)
  (d : database) : database :=
  if existsb (fun r => String.eqb (c_sha r) sh && (c_file_id r =? fid))
             (comit d)
  then d
  else
    let cid := next_rowid comit_id (comit d) in
    mkDb (repo d) (file d)
         (comit d ++ [mkComitRow cid sh msg size created content vers prnts fid])
         cid.

End Store.

(* ===================================================================== *)
(** * The script's state *)
(* ===================================================================== *)

Definition Params : Type := list (string * string).

(** What the script does to the outside world, latest first. *)
Inductive Event : Type :=
| EvRequest (url : string) (params : Params) (authorized : bool)
| EvSleep (seconds : Q)
| EvLog (status : Z) (url : string) (msg : string).

(** The global variables of the script, the database, the statistics file
    (its data rows, [None] while the file does not exist), and the world:
    the clock that [time.time()] reads, the number of requests sent so far
    and the trace of events. *)
Record State : Type := mkState {
  strat_first : Z;
  strat_last : Z;
  pop_repo : Z;
  sam_repo : Z;
  sam_file : Z;
  sam_comit : Z;
  total_sam_repo : Z;
  total_sam_file : Z;
  total_sam_comit : Z;
  rate_used : Z;
  api_calls : Z;
  current_license : string;
  current_cumulative_pop : Z;
  status_msg : string;
  db : Store.database;
  statistics : option (list (list Z));
  clock : Q;
  requests : nat;
  trace : list Event
}.

Definition set_strat_first (v : Z) (s : State) : State :=
  mkState v (strat_last s) (pop_repo s) (sam_repo s) (sam_file s)
    (sam_comit s) (total_sam_repo s) (total_sam_file s) (total_sam_comit s)
    (rate_used s) (api_calls s) (current_license s)
    (current_cumulative_pop s) (status_msg s) (db s) (statistics s)
    (clock s) (requests s) (trace s).

Definition set_strat_last (v : Z) (s : State) : State :=
  mkState (strat_first s) v (pop_repo s) (sam_repo s) (sam_file s)
    (sam_comit s) (total_sam_repo s) (total_sam_file s) (total_sam_comit s)
    (rate_used s) (api_calls s) (current_license s)
    (current_cumulative_pop s) (status_msg s) (db s) (statistics s)
    (clock s) (requests s) (trace s).

Definition set_pop_repo (v : Z) (s : State) : State :=
  mkState (strat_first s) (strat_last s) v (sam_repo s) (sam_file s)
    (sam_comit s) (total_sam_repo s) (total_sam_file s) (total_sam_comit s)
    (rate_used s) (api_calls s) (current_license s)
    (current_cumulative_pop s) (status_msg s) (db s) (statistics s)
    (clock s) (requests s) (trace s).

Definition set_sam_repo (v : Z) (s : State) : State :=
  mkState (strat_first s) (strat_last s) (pop_repo s) v (sam_file s)
    (sam_comit s) (total_sam_repo s) (total_sam_file s) (total_sam_comit s)
    (rate_used s) (api_calls s) (current_license s)
    (current_cumulative_pop s) (status_msg s) (db s) (statistics s)
    (clock s) (requests s) (trace s).

Definition set_sam_file (v : Z) (s : State) : State :=
  mkState (strat_first s) (strat_last s) (pop_repo s) (sam_repo s) v
    (sam_comit s) (total_sam_repo s) (total_sam_file s) (total_sam_comit s)
    (rate_used s) (api_calls s) (current_license s)
    (current_cumulative_pop s) (status_msg s) (db s) (statistics s)
    (clock s) (requests s) (trace s).

Definition set_sam_comit (v : Z) (s : State) : State :=
  mkState (strat_first s) (strat_last s) (pop_repo s) (sam_repo s)
    (sam_file s) v (total_sam_repo s) (total_sam_file s) (total_sam_comit s)
    (rate_used s) (api_calls s) (current_license s)
    (current_cumulative_pop s) (status_msg s) (db s) (statistics s)
    (clock s) (requests s) (trace s).

Definition set_total_sam_repo (v : Z) (s : State) : State :=
  mkState (strat_first s) (strat_last s) (pop_repo s) (sam_repo s)
    (sam_file s) (sam_comit s) v (total_sam_file s) (total_sam_comit s)
    (rate_used s) (api_calls s) (current_license s)
    (current_cumulative_pop s) (status_msg s) (db s) (statistics s)
    (clock s) (requests s) (trace s).

Definition set_total_sam_file (v : Z) (s : State) : State :=
  mkState (strat_first s) (strat_last s) (pop_repo s) (sam_repo s)
    (sam_file s) (sam_comit s) (total_sam_repo s) v (total_sam_comit s)
    (rate_used s) (api_calls s) (current_license s)
    (current_cumulative_pop s) (status_msg s) (db s) (statistics s)
    (clock s) (requests s) (trace s).

Definition set_total_sam_comit (v : Z) (s : State) : State :=
  mkState (strat_first s) (strat_last s) (pop_repo s) (sam_repo s)
    (sam_file s) (sam_comit s) (total_sam_repo s) (total_sam_file s) v
    (rate_used s) (api_calls s) (current_license s)
    (current_cumulative_pop s) (status_msg s) (db s) (statistics s)
    (clock s) (requests s) (trace s).

Definition set_rate_used (v : Z) (s : State) : State :=
  mkState (strat_first s) (strat_last s) (pop_repo s) (sam_repo s)
    (sam_file s) (sam_comit s) (total_sam_repo s) (total_sam_file s)
    (total_sam_comit s) v (api_calls s) (current_license s)
    (current_cumulative_pop s) (status_msg s) (db s) (statistics s)
    (clock s) (requests s) (trace s).

Definition set_api_calls (v : Z) (s : State) : State :=
  mkState (strat_first s) (strat_last s) (pop_repo s) (sam_repo s)
    (sam_file s) (sam_comit s) (total_sam_repo s) (total_sam_file s)
    (total_sam_comit s) (rate_used s) v (current_license s)
    (current_cumulative_pop s) (status_msg s) (db s) (statistics s)
    (clock s) (requests s) (trace s).

Definition set_current_license (v : string) (s : State) : State :=
  mkState (strat_first s) (strat_last s) (pop_repo s) (sam_repo s)
    (sam_file s) (sam_comit s) (total_sam_repo s) (total_sam_file s)
    (total_sam_comit s) (rate_used s) (api_calls s) v
    (current_cumulative_pop s) (status_msg s) (db s) (statistics s)
    (clock s) (requests s) (trace s).

Definition set_current_cumulative_pop (v : Z) (s : State) : State :=
  mkState (strat_first s) (strat_last s) (pop_repo s) (sam_repo s)
    (sam_file s) (sam_comit s) (total_sam_repo s) (total_sam_file s)
    (total_sam_comit s) (rate_used s) (api_calls s) (current_license s) v
    (status_msg s) (db s) (statistics s) (clock s) (requests s) (trace s).

Definition set_status_msg (v : string) (s : State) : State :=
  mkState (strat_first s) (strat_last s) (pop_repo s) (sam_repo s)
    (sam_file s) (sam_comit s) (total_sam_repo s) (total_sam_file s)
    (total_sam_comit s) (rate_used s) (api_calls s) (current_license s)
    (current_cumulative_pop s) v (db s) (statistics s) (clock s)
    (requests s) (trace s).

Definition set_db (v : Store.database) (s : State) : State :=
  mkState (strat_first s) (strat_last s) (pop_repo s) (sam_repo s)
    (sam_file s) (sam_comit s) (total_sam_repo s) (total_sam_file s)
    (total_sam_comit s) (rate_used s) (api_calls s) (current_license s)
    (current_cumulative_pop s) (status_msg s) v (statistics s) (clock s)
    (requests s) (trace s).

Definition set_statistics (v : option (list (list Z))) (s : State) : State :=
  mkState (strat_first s) (strat_last s) (pop_repo s) (sam_repo s)
    (sam_file s) (sam_comit s) (total_sam_repo s) (total_sam_file s)
    (total_sam_comit s) (rate_used s) (api_calls s) (current_license s)
    (current_cumulative_pop s) (status_msg s) (db s) v (clock s)
    (requests s) (trace s).

Definition set_clock (v : Q) (s : State) : State :=
  mkState (strat_first s) (strat_last s) (pop_repo s) (sam_repo s)
    (sam_file s) (sam_comit s) (total_sam_repo s) (total_sam_file s)
    (total_sam_comit s) (rate_used s) (api_calls s) (current_license s)
    (current_cumulative_pop s) (status_msg s) (db s) (statistics s) v
    (requests s) (trace s).

Definition set_requests (v : nat) (s : State) : State :=
  mkState (strat_first s) (strat_last s) (pop_repo s) (sam_repo s)
    (sam_file s) (sam_comit s) (total_sam_repo s) (total_sam_file s)
    (total_sam_comit s) (rate_used s) (api_calls s) (current_license s)
    (current_cumulative_pop s) (status_msg s) (db s) (statistics s)
    (clock s) v (trace s).

Definition set_trace (v : list Event) (s : State) : State :=
  mkState (strat_first s) (strat_last s) (pop_repo s) (sam_repo s)
    (sam_file s) (sam_comit s) (total_sam_repo s) (total_sam_file s)
    (total_sam_comit s) (rate_used s) (api_calls s) (current_license s)
    (current_cumulative_pop s) (status_msg s) (db s) (statistics s)
    (clock s) (requests s) v.

(* ===================================================================== *)
(** * Computations *)
(* ===================================================================== *)

(** The exceptions the script can meet.  [ConnectionError] is the one [get]
    and [get_content] catch themselves; all are subclasses of [Exception]. *)
Inductive exn : Type :=
| ConnectionError
| RequestException
| HTTPError (status : Z)
| JSONDecodeError
| KeyError
| TypeError
| IndexError.

(** How a call ends: it returns, it raises, the process exits
    ([sys.exit] in [signal_handler]), or the model's fuel is used up. *)
Inductive outcome (A : Type) : Type :=
| Ret (a : A)
| Raise (e : exn)
| Exit
| OutOfFuel.

Arguments Ret {A} a.
Arguments Raise {A} e.
Arguments Exit {A}.
Arguments OutOfFuel {A}.

Definition M (A : Type) : Type := State -> outcome A * State.

Definition ret {A : Type} (a : A) : M A := fun s => (Ret a, s).

Definition bind {A B : Type} (c : M A) (k : A -> M B) : M B :=
  fun s =>
    match c s with
    | (Ret a, s') => k a s'
    | (Raise e, s') => (Raise e, s')
    | (Exit, s') => (Exit, s')
    | (OutOfFuel, s') => (OutOfFuel, s')
    end.

Declare Scope crawl_scope.
Delimit Scope crawl_scope with crawl.
Bind Scope crawl_scope with M.

Notation "x <- c ;; k" := (bind c (fun x => k))
  (at level 61, c at next level, right associativity) : crawl_scope.
Notation "c ;; k" := (bind c (fun _ => k))
  (at level 61, right associativity) : crawl_scope.

Local Open Scope crawl_scope.

Definition raise {A : Type} (e : exn) : M A := fun s => (Raise e, s).
Definition out_of_fuel {A : Type} : M A := fun s => (OutOfFuel, s).
Definition gets {A : Type} (f : State -> A) : M A := fun s => (Ret (f s), s).
Definition modify (f : State -> State) : M unit := fun s => (Ret tt, f s).

(** [try: x = c / except Exception: handler / (rest of the block) body x].
    [sys.exit] raises [SystemExit], which is no [Exception]. *)
Definition try_except {A B : Type} (c : M A) (body : A -> M B) (handler : M B)
  : M B :=
  fun s =>
    match c s with
    | (Ret a, s') => body a s'
    | (Raise _, s') => handler s'
    | (Exit, s') => (Exit, s')
    | (OutOfFuel, s') => (OutOfFuel, s')
    end.

(** [try: c / except requests.ConnectionError: handler] *)
Definition except_connection_error {A : Type} (c : M A) (handler : M A) : M A :=
  fun s =>
    match c s with
    | (Raise ConnectionError, s') => handler s'
    | r => r
    end.

Definition when (b : bool) (c : M unit) : M unit := if b then c else ret tt.

(** A relation between the state before and the state after that a
    computation maintains however it ends. *)
Definition preserves {A : Type} (R : State -> State -> Prop) (c : M A) : Prop :=
  forall s, R s (snd (c s)).

(** The state a computation leaves, and how it ended. *)
Definition exec {A : Type} (c : M A) (s : State) : State := snd (c s).
Definition result {A : Type} (c : M A) (s : State) : outcome A := fst (c s).

(* ===================================================================== *)
(** * Responses and the network *)
(* ===================================================================== *)

(** What [res.json()] or [res.text] holds. *)
Inductive Body : Type :=
| SearchResults (total_count : Z) (items : list Repo)
| Tree (tree : list TreeEntry)
| CommitList (commits : list Commit)
| ErrorMessage (msg : string)
| Content (text : string)
| Unreadable.

(** A response.  The three headers hold decimal digits when present
    ([X-RateLimit-Reset], [Retry-After] as delay-seconds,
    [X-RateLimit-Used]), so [int] of them is a natural number;
    [link_next] is [res.links['next']['url']]; [elapsed] is the time the
    request took. *)
Record Response : Type := mkResponse {
  status_code : Z;
  res_url : string;
  x_ratelimit_reset : option N;
  retry_after : option N;
  x_ratelimit_used : option N;
  link_next : option string;
  body : Body;
  elapsed : Q
}.

Inductive NetResult : Type :=
| Reply (r : Response)
| NoConnection
| OtherFailure.

(** The network: what the n-th request of the run, to a URL with its query
    string, with or without the [Authorization] header, is answered. *)
Definition Server : Type := nat -> string -> bool -> NetResult.

(** [str] of an integer. *)
Definition zstr (z : Z) : string := NilZero.string_of_int (Z.to_int z).

Fixpoint join (sep : string) (l : list string) : string :=
  match l with
  | [] => ""
  | [x] => x
  | x :: l' => x ++ sep ++ join sep l'
  end.

(** The URL that [requests] sends for [url] and [params]: the query string
    is appended (percent-escapes left aside); without parameters the URL is
    sent as it is. *)
Definition prepare (url : string) (params : Params) : string :=
  match params with
  | [] => url
  | _ :: _ =>
      url ++ (if contains "?" url then "&" else "?") ++
      join "&" (map (fun kv => fst kv ++ "=" ++ snd kv) params)
  end.

(** The wait of the specification, [max(0, reset - now)], to compare with
    the one [handle_rate_limit_error] computes. *)
Definition spec_wait (reset : N) (now : Q) : Q :=
  if Qle_bool 0 (inject_Z (Z.of_N reset) - now)
  then inject_Z (Z.of_N reset) - now
  else 0.

(** [int(x)] for a float [x]: truncation toward zero. *)
Definition int_of_float (x : Q) : Z := Z.quot (Qnum x) (Z.pos (Qden x)).

(** [s[:-n]]: the text without its last [n] characters. *)
Definition drop_last (n : nat) (s : string) : string :=
  let chars := Re.codepoints s in
  Re.utf8 (firstn (List.length chars - n) chars).

(** [s.replace(c, by)] for a one-character [c]. *)
Fixpoint replace (c : ascii) (by_ : string) (s : string) : string :=
  match s with
  | EmptyString => EmptyString
  | String a s' =>
      if Ascii.eqb a c then by_ ++ replace c by_ s'
      else String a (replace c by_ s')
  end.

(** [str(parents)] for a list of shas, which need no escapes. *)
Definition str_list (l : list string) : string :=
  "[" ++ join ", " (map (fun x => "'" ++ x ++ "'") l) ++ "]".

Definition search_url : string := "https://api.github.com/search/repositories".

(** A request is a search query when it goes to the search endpoint with a
    query parameter [q]; following a [next] link, or asking again after a
    403, sends a URL without parameters. *)
Definition has_query (params : Params) : bool :=
  existsb (fun kv => String.eqb (fst kv) "q") params.

Definition is_search_event (e : Event) : bool :=
  match e with
  | EvRequest url params _ => String.eqb url search_url && has_query params
  | _ => false
  end.

Definition param (key : string) (params : Params) : string :=
  match find (fun kv => String.eqb (fst kv) key) params with
  | Some kv => snd kv
  | None => ""
  end.

(** The search queries in a trace, latest first: what was asked for and in
    which sort order. *)
Fixpoint search_queries (tr : list Event) : list (string * string) :=
  match tr with
  | [] => []
  | EvRequest url params authorized :: tr' =>
      if is_search_event (EvRequest url params authorized)
      then (param "q" params, param "order" params) :: search_queries tr'
      else search_queries tr'
  | _ :: tr' => search_queries tr'
  end.

(** Relations between states that every step of the crawl of a result
    page maintains: they are preorders, and hold across each of the updates
    that the crawl makes. *)
Class Quiet (R : State -> State -> Prop) : Prop := {
  quiet_refl : forall s, R s s;
  quiet_trans : forall s1 s2 s3, R s1 s2 -> R s2 s3 -> R s1 s3;
  quiet_status : forall v s, R s (set_status_msg v s);
  quiet_clock : forall v s, R s (set_clock v s);
  quiet_requests : forall v s, R s (set_requests v s);
  quiet_api_calls : forall v s, R s (set_api_calls v s);
  quiet_rate_used : forall v s, R s (set_rate_used v s);
  quiet_event : forall e s,
    is_search_event e = false -> R s (set_trace (e :: trace s) s);
  quiet_sam_repo : forall v s, R s (set_sam_repo v s);
  quiet_sam_file : forall v s, R s (set_sam_file v s);
  quiet_sam_comit : forall v s, R s (set_sam_comit v s);
  quiet_total_sam_repo : forall v s, R s (set_total_sam_repo v s);
  quiet_total_sam_file : forall v s, R s (set_total_sam_file v s);
  quiet_total_sam_comit : forall v s, R s (set_total_sam_comit v s);
  quiet_insert_repo : forall row s,
    R s (set_db (Store.insert_or_ignore_repo row (db s)) s);
  quiet_insert_file : forall nm pth sh rid s,
    R s (set_db (Store.insert_or_ignore_file nm pth sh rid (db s)) s);
  quiet_insert_comit : forall sh msg size created content vers prnts fid s,
    R s (set_db (Store.insert_or_ignore_comit sh msg size created content
                   vers prnts fid (db s)) s)
}.

(** The search queries sent so far are the same. *)
Definition same_searches (s s' : State) : Prop :=
  search_queries (trace s') = search_queries (trace s).

(** No row has left the database. *)
Definition rows_kept (s s' : State) : Prop :=
  (forall r, In r (Store.repo (db s)) -> In r (Store.repo (db s'))) /\
  (forall r, In r (Store.file (db s)) -> In r (Store.file (db s'))) /\
  (forall r, In r (Store.comit (db s)) -> In r (Store.comit (db s'))).

(** The population estimate and the offset of the license are the same. *)
Definition same_estimate (s s' : State) : Prop :=
  pop_repo s' = pop_repo s /\
  current_cumulative_pop s' = current_cumulative_pop s.

(** The population estimate has not shrunk, and the offset of the license
    is the same. *)
Definition population_grows (s s' : State) : Prop :=
  pop_repo s <= pop_repo s' /\
  current_cumulative_pop s' = current_cumulative_pop s.

(** While the offset of the license is [c]: it stays [c], and the
    population estimate grows, to the bound [b] at most. *)
Definition population_within (c b : Z) (s s' : State) : Prop :=
  current_cumulative_pop s = c ->
  current_cumulative_pop s' = c /\
  pop_repo s <= pop_repo s' <= Z.max (pop_repo s) b.

(** Every population that a search result of the server reports
    satisfies [P]. *)
Definition reports (P : Z -> Prop) (res : Response) : Prop :=
  forall n l, body res = SearchResults n l -> P n.

Definition server_reports (server : Server) (P : Z -> Prop) : Prop :=
  forall i url authorized r,
    server i url authorized = Reply r -> reports P r.


(** Relations that also hold across the updates of the population
    estimate and of the license variables. *)
Definition estimate_free (R : State -> State -> Prop) : Prop :=
  (forall v s, R s (set_pop_repo v s)) /\
  (forall v s, R s (set_current_cumulative_pop v s)) /\
  (forall v s, R s (set_current_license v s)).

(** The trace has only grown. *)
Definition trace_grows (s s' : State) : Prop :=
  exists l, trace s' = (l ++ trace s)%list.

(** The stratum bounds are the same. *)
Definition same_stratum (s s' : State) : Prop :=
  strat_first s' = strat_first s /\ strat_last s' = strat_last s.

(** The stratum bounds and the statistics file are the same. *)
Definition same_plan (s s' : State) : Prop :=
  strat_first s' = strat_first s /\ strat_last s' = strat_last s /\
  statistics s' = statistics s.

(** The bounds in a row of the statistics file. *)
Definition row_bounds (row : list Z) : bounds := (nth 0 row 0, nth 1 row 0).

(** Nothing but the world (clock, requests, trace) has changed. *)
Definition same_globals (s s' : State) : Prop :=
  strat_first s' = strat_first s /\ strat_last s' = strat_last s /\
  pop_repo s' = pop_repo s /\ sam_repo s' = sam_repo s /\
  current_cumulative_pop s' = current_cumulative_pop s /\
  db s' = db s /\ statistics s' = statistics s.

Definition licenses : list string :=
  [ "apache-2.0"; "agpl-3.0"; "bsd-2-clause"; "bsd-3-clause"; "bsl-1.0";
    "cc0-1.0"; "epl-2.0"; "gpl-2.0"; "gpl-3.0"; "lgpl-2.1"; "mit";
    "mpl-2.0"; "unlicense" ].

(** [res.json()] of a search page: ['total_count'] and ['items']. *)
Definition json_total_count (res : Response) : M Z :=
  match body res with
  | SearchResults n _ => ret n
  | Tree _ | ErrorMessage _ => raise KeyError
  | CommitList _ => raise TypeError
  | Content _ | Unreadable => raise JSONDecodeError
  end.

Definition json_items (res : Response) : M (list Repo) :=
  match body res with
  | SearchResults _ l => ret l
  | Tree _ | ErrorMessage _ => raise KeyError
  | CommitList _ => raise TypeError
  | Content _ | Unreadable => raise JSONDecodeError
  end.

(** [res.json()['tree']] *)
Definition json_tree (res : Response) : M (list TreeEntry) :=
  match body res with
  | Tree l => ret l
  | SearchResults _ _ | ErrorMessage _ => raise KeyError
  | CommitList _ => raise TypeError
  | Content _ | Unreadable => raise JSONDecodeError
  end.

(** [res.json()['message']] *)
Definition json_message (res : Response) : M string :=
  match body res with
  | ErrorMessage m => ret m
  | SearchResults _ _ | Tree _ => raise KeyError
  | CommitList _ => raise TypeError
  | Content _ | Unreadable => raise JSONDecodeError
  end.

(** [res.text]; the model keeps the text of a raw file only.  Its length
    as a [string] is the number of its bytes, [len(res.content)]. *)
Definition text_of (res : Response) : string :=
  match body res with
  | Content t => t
  | _ => ""
  end.

(* ===================================================================== *)
(** * The functions of the script *)
(* ===================================================================== *)

(** Output to the terminal ([print], [print_stratum], [print_footer],
    [clear_footer]) changes nothing that the script reads back and is left
    out; [status_msg] is kept because [update_status] returns it.  Loops
    over a list are structural; the two [while 'next' in res.links] loops,
    the retry of [get] and the main loop take fuel. *)

Section Script.

Variable args : Args.
Variable server : Server.

Definition update_status (msg : string) : M string :=
  old_msg <- gets status_msg ;;
  modify (set_status_msg msg) ;;
  ret old_msg.

(** [time.sleep(t)] *)
Definition time_sleep (t : Q) : M unit :=
  modify (fun s =>
    set_trace (EvSleep t :: trace s) (set_clock (clock s + t)%Q s)).

(** [time.time()] *)
Definition time_time : M Q := gets clock.

(** [signal_handler]: commit, close, report, [sys.exit(0)]. *)
Definition signal_handler {A : Type} : M A := fun s => (Exit, s).

(** [requests.get(url, params, headers=...)].  The response's [url] is the
    URL that was sent (redirections are left aside). *)
Definition requests_get (url : string) (params : Params) (authorized : bool)
  : M Response :=
  fun s =>
    let sent := set_trace (EvRequest url params authorized :: trace s)
                          (set_requests (S (requests s)) s) in
    match server (requests s) (prepare url params) authorized with
    | Reply r =>
        (Ret (mkResponse (status_code r) (prepare url params)
                (x_ratelimit_reset r) (retry_after r) (x_ratelimit_used r)
                (link_next r) (body r) (elapsed r)),
         set_clock (clock sent + elapsed r)%Q sent)
    | NoConnection => (Raise ConnectionError, sent)
    | OtherFailure => (Raise RequestException, sent)
    end.

(** [res.raise_for_status()] *)
Definition raise_for_status (res : Response) : M unit :=
  if (400 <=? status_code res) && (status_code res <? 600)
  then raise (HTTPError (status_code res))
  else ret tt.

Definition handle_log_response (res : Response) : M unit :=
  let err_msg := "Request response error with status: " ++
                 zstr (status_code res) ++ " (for details see log.txt)" in
  old_msg <- update_status err_msg ;;
  msg <- (if negb (status_code res =? 200) then
            m <- json_message res ;; ret (String Re.newline "Message: " ++ m)
          else ret "") ;;
  modify (fun s =>
    set_trace (EvLog (status_code res) (res_url res) msg :: trace s) s) ;;
  time_sleep (3 # 2) ;;
  update_status old_msg ;;
  ret tt.

(** [handle_rate_limit_error]; [retry] stands for the [get] it calls back. *)
Definition handle_rate_limit_error (retry : string -> M Response)
  (res : Response) : M Response :=
  t <- match x_ratelimit_reset res with
       | Some t =>
           now <- time_time ;;
           ret (Z.max 0 (int_of_float (inject_Z (Z.of_N t) - now)))
       | None =>
           ret (match retry_after res with
                | Some v => Z.of_N v
                | None => 60
                end)
       end ;;
  let err_msg := "Exceeded rate limit. Retrying after " ++ zstr t ++
                 " seconds..." in
  let err_msg := if no_token args
                 then err_msg ++ " Try running the script with a GitHub TOKEN."
                 else err_msg in
  old_msg <- update_status err_msg ;;
  time_sleep (inject_Z t) ;;
  update_status old_msg ;;
  retry (res_url res).

Fixpoint get (fuel : nat) (url : string) (params : Params) : M Response :=
  match fuel with
  | O => out_of_fuel
  | S fuel' =>
      when (throttle args)
           (time_sleep (if no_token args then 60 else 72 # 100)) ;;
      res <- except_connection_error
               (requests_get url params (negb (no_token args)))
               signal_handler ;;
      modify (fun s => set_api_calls (api_calls s + 1) s) ;;
      modify (set_rate_used (match x_ratelimit_used res with
                             | Some u => Z.of_N u
                             | None => 0
                             end)) ;;
      if status_code res =? 403 then
        handle_rate_limit_error (fun u => get fuel' u []) res
      else
        when (negb (status_code res =? 200)) (handle_log_response res) ;;
        raise_for_status res ;;
        ret res
  end.

(** The state after the throttling pause of [get]. *)
Definition throttled (s : State) : State :=
  exec (when (throttle args)
             (time_sleep (if no_token args then 60 else 72 # 100))) s.

(** The last lines of [get] and of [get_content]: what they do with a
    response that is no 403. *)
Definition pass_on (res : Response) : M Response :=
  when (negb (status_code res =? 200)) (handle_log_response res) ;;
  raise_for_status res ;;
  ret res.

Definition get_content (url : string) : M Response :=
  res <- except_connection_error (requests_get url [] false) signal_handler ;;
  when (negb (status_code res =? 200)) (handle_log_response res) ;;
  raise_for_status res ;;
  ret res.

(** The query string of [search] and the parameters it sends. *)
Definition query (a b : Z) (license : string) : string :=
  let q_fork := if forks args then "true" else "false" in
  let q_license := if String.eqb license "no" then ""
                   else "license:" ++ license in
  "language:Solidity size:" ++ zstr a ++ ".." ++ zstr b ++
  " fork:" ++ q_fork ++ " " ++ q_license.

Definition search_params (a b : Z) (order license : string) : Params :=
  [ ("q", query a b license); ("sort", "updated"); ("order", order);
    ("per_page", "100") ].

Definition search (fuel : nat) (a b : Z) (order license : string) : M Response :=
  get fuel search_url (search_params a b order license).

(** ** The store *)

Definition insert_repo (repo : Repo) : M unit :=
  modify (fun s => set_db (Store.insert_or_ignore_repo
     (Store.mkRepoRow (id repo) (name repo) (full_name repo) (description repo)
        (url repo) (if fork repo then 1 else 0) (owner_id repo)
        (owner_login repo)) (db s)) s) ;;
  modify (fun s => set_sam_repo (sam_repo s + 1) s) ;;
  modify (fun s => set_total_sam_repo (total_sam_repo s + 1) s).

Definition insert_file (file : TreeEntry) (repo_id : Z) : M Z :=
  modify (fun s => set_db (Store.insert_or_ignore_file
     (entry_name file) (path file) (sha file) repo_id (db s)) s) ;;
  file_id <- gets (fun s => Store.last_insert_rowid (db s)) ;;
  modify (fun s => set_sam_file (sam_file s + 1) s) ;;
  modify (fun s => set_total_sam_file (total_sam_file s + 1) s) ;;
  ret file_id.

Definition insert_commit (commit : Commit) (content_res : Response)
  (parents : list string) (file_id : Z) : M unit :=
  modify (fun s => set_db (Store.insert_or_ignore_comit
     (commit_sha commit) (message commit)
     (Z.of_nat (String.length (text_of content_res))) (date commit)
     (text_of content_res) (find_compiler_version (text_of content_res))
     (str_list parents) file_id (db s)) s) ;;
  modify (fun s => set_sam_comit (sam_comit s + 1) s) ;;
  modify (fun s => set_total_sam_comit (total_sam_comit s + 1) s).

Definition known_repo (item : Repo) : M bool :=
  gets (fun s => Store.count
     (fun r => String.eqb (Store.r_full_name r) (full_name item) &&
               (Store.repo_id r =? id item)) (Store.repo (db s)) =? 1).

Definition known_file (item : TreeEntry) (repo_id : Z) : M bool :=
  gets (fun s => Store.count
     (fun r => String.eqb (Store.f_path r) (path item) &&
               (Store.f_repo_id r =? repo_id)) (Store.file (db s)) =? 1).

Definition known_commit (item : Commit) (file_id : Z) : M bool :=
  gets (fun s => Store.count
     (fun r => String.eqb (Store.c_sha r) (commit_sha item) &&
               (Store.c_file_id r =? file_id)) (Store.comit (db s)) =? 1).

(** ** Commits *)

(** The URL of a file at a commit and the URL of a repository's tree. *)
Definition raw_url (repo_full_name sha_ file_path : string) : string :=
  "https://raw.githubusercontent.com/" ++ repo_full_name ++ "/" ++ sha_ ++
  "/" ++ file_path.

Definition tree_url (repo : Repo) : string :=
  "https://api.github.com/repos/" ++ full_name repo ++ "/git/trees/" ++
  default_branch repo ++ "?recursive=1".

(** [commits_res.json()]: a list of commits.  (A JSON object in its place
    fails with [TypeError] at [commit['sha']] of its first key; the model
    raises it at once.) *)
Definition json_commits (res : Response) : M (list Commit) :=
  match body res with
  | CommitList l => ret l
  | SearchResults _ _ | Tree _ | ErrorMessage _ => raise TypeError
  | Content _ | Unreadable => raise JSONDecodeError
  end.

(** The [for commit in commits_res.json()] loop. *)
Fixpoint commits_loop (items : list Commit) (repo_full_name file_path : string)
  (file_id : Z) : M unit :=
  match items with
  | [] => ret tt
  | commit :: rest =>
      known <- known_commit commit file_id ;;
      (if negb known then
         try_except
           (get_content (raw_url repo_full_name (commit_sha commit) file_path))
           (fun content_res =>
              insert_commit commit content_res (parents commit) file_id)
           (ret tt)                                   (* continue *)
       else ret tt) ;;
      commits_loop rest repo_full_name file_path file_id
  end.

Definition download_commits_from_page (commits_res : Response)
  (repo_full_name file_path : string) (file_id : Z) : M unit :=
  items <- json_commits commits_res ;;
  let count_commits :=
    if Z.of_nat (List.length items) <? 100
    then zstr (Z.of_nat (List.length items)) else "100+" in
  update_status ("Downloading " ++ count_commits ++ " commits...") ;;
  commits_loop items repo_full_name file_path file_id.

(** The [while 'next' in commits_res.links] loop. *)
Fixpoint commit_pages (fuel n : nat) (commits_res : Response)
  (repo_full_name file_path : string) (file_id : Z) : M unit :=
  match link_next commits_res with
  | None => ret tt
  | Some next =>
      match n with
      | O => out_of_fuel
      | S n' =>
          update_status "Getting next page of commits..." ;;
          commits_res <- get fuel next [] ;;
          download_commits_from_page commits_res repo_full_name file_path
            file_id ;;
          commit_pages fuel n' commits_res repo_full_name file_path file_id
      end
  end.

Definition download_all_commits (fuel : nat) (repo : Repo) (file : TreeEntry)
  (file_id : Z) : M unit :=
  try_except
    (let commits_url :=
       replace "#" "%23" (drop_last 6 (commits_url repo)) in
     get fuel commits_url [("path", path file); ("per_page", "100")])
    (fun commits_res =>
       download_commits_from_page commits_res (full_name repo) (path file)
         file_id ;;
       commit_pages fuel fuel commits_res (full_name repo) (path file)
         file_id ;;
       update_status "" ;;
       ret tt)
    (ret tt).                                         (* return *)

(** ** Repositories *)

(** [file['name']]: the match of [name_re], else the path. *)
Definition with_name (file : TreeEntry) : TreeEntry :=
  mkEntry (entry_type file) (path file) (sha file)
    (match Re.search Re.name_re (path file) with
     | Some name_re => Re.group0 name_re
     | None => path file
     end).

Definition is_solidity_blob (file : TreeEntry) : bool :=
  String.eqb (entry_type file) "blob" &&
  match Re.search Re.sol_re (path file) with
  | Some _ => true
  | None => false
  end.

(** The [for file in res.json()['tree']] loop. *)
Fixpoint files_loop (fuel : nat) (repo : Repo) (entries : list TreeEntry)
  : M unit :=
  match entries with
  | [] => ret tt
  | file :: rest =>
      (if is_solidity_blob file then
         let file := with_name file in
         known <- known_file file (id repo) ;;
         if negb known then
           file_id <- insert_file file (id repo) ;;
           download_all_commits fuel repo file file_id
         else ret tt
       else ret tt) ;;
      files_loop fuel repo rest
  end.

(** The body of [for repo in res.json()['items']] up to the footer;
    [false] when it left through [continue]. *)
Definition crawl_repo (fuel : nat) (repo : Repo) : M bool :=
  known <- known_repo repo ;;
  if negb known then
    insert_repo repo ;;
    try_except
      (get fuel (tree_url repo) [])
      (fun res =>
         entries <- json_tree res ;;
         files_loop fuel repo entries ;;
         ret true)
      (ret false)                                     (* continue *)
  else ret true.

Fixpoint repos_loop (fuel : nat) (items : list Repo) : M unit :=
  match items with
  | [] => ret tt
  | repo :: rest =>
      at_footer <- crawl_repo fuel repo ;;
      if at_footer then
        sam <- gets sam_repo ;;
        pop <- gets pop_repo ;;
        if sam >=? pop then ret tt                    (* return *)
        else repos_loop fuel rest
      else repos_loop fuel rest
  end.

Definition download_repos_from_page (fuel : nat) (res : Response) : M unit :=
  update_status "Get list of files in repository..." ;;
  items <- json_items res ;;
  repos_loop fuel items.

(** The [while 'next' in res.links] loop of [download_all_repos]. *)
Fixpoint repo_pages (fuel n : nat) (res : Response) : M unit :=
  match link_next res with
  | None => ret tt
  | Some next =>
      match n with
      | O => out_of_fuel
      | S n' =>
          update_status "Getting next page of search results..." ;;
          res <- get fuel next [] ;;
          total_count <- json_total_count res ;;
          modify (fun s =>
            let pop2 := total_count + current_cumulative_pop s in
            set_pop_repo (Z.max (pop_repo s) pop2) s) ;;
          download_repos_from_page fuel res ;;
          sam <- gets sam_repo ;;
          pop <- gets pop_repo ;;
          if sam >=? pop then ret tt                  (* break *)
          else repo_pages fuel n' res
      end
  end.

Definition download_all_repos (fuel : nat) (res : Response) : M unit :=
  download_repos_from_page fuel res ;;
  repo_pages fuel fuel res ;;
  update_status "" ;;
  ret tt.

(** ** Start, resume and the main loop *)

(** The globals before the run (lines 91-128), over a database file and a
    statistics file that may exist already. *)
Definition initial_state (d : Store.database) (stats : option (list (list Z)))
  (now : Q) : State :=
  mkState (fst (strat_init args)) (snd (strat_init args))
    (-1) (-1) (-1) (-1) (-1) (-1) (-1) 0 0 "" 0 "" d stats now 0%nat [].

(** [int(row[i])]; the cells of the statistics file are numbers. *)
Definition cell (row : list Z) (i : nat) : M Z :=
  match nth_error row i with
  | Some v => ret v
  | None => raise IndexError
  end.

(** The body of [for row in fr]. *)
Definition replay_row (row : list Z) : M unit :=
  v <- cell row 0 ;; modify (set_strat_first v) ;;
  v <- cell row 1 ;; modify (set_strat_last v) ;;
  v <- cell row 2 ;; modify (set_pop_repo v) ;;
  v <- cell row 3 ;; modify (set_sam_repo v) ;;
  v <- cell row 4 ;; modify (set_sam_file v) ;;
  v <- cell row 5 ;; modify (set_sam_comit v) ;;
  modify (fun s => set_total_sam_repo (total_sam_repo s + sam_repo s) s) ;;
  modify (fun s => set_total_sam_file (total_sam_file s + sam_file s) s) ;;
  modify (fun s => set_total_sam_comit (total_sam_comit s + sam_comit s) s).

Fixpoint replay (rows : list (list Z)) : M unit :=
  match rows with
  | [] => ret tt
  | row :: rest => replay_row row ;; replay rest
  end.

(** The sum of a column of the statistics file. *)
Definition column (i : nat) (rows : list (list Z)) : Z :=
  fold_right Z.add 0 (map (fun row => nth i row 0) rows).

(** Lines 685-690 and 567-572: the next stratum, counters unknown. *)
Definition next_stratum : M unit :=
  modify (fun s => set_strat_first (strat_first s + stratum_size args) s) ;;
  modify (fun s =>
    set_strat_last (Z.min (strat_last s + stratum_size args) (max_size args)) s) ;;
  modify (set_pop_repo (-1)) ;;
  modify (set_sam_repo (-1)) ;;
  modify (set_sam_file (-1)) ;;
  modify (set_sam_comit (-1)).

(** Lines 537-577: the totals start at zero; an existing statistics file is
    replayed, else one is created with its header. *)
Definition startup : M unit :=
  modify (set_status_msg "Initialize Program") ;;
  modify (set_total_sam_repo 0) ;;
  modify (set_total_sam_file 0) ;;
  modify (set_total_sam_comit 0) ;;
  stats <- gets statistics ;;
  match stats with
  | Some rows =>
      update_status "Continuing previous search..." ;;
      replay rows ;;
      pop <- gets pop_repo ;;
      if pop >? -1 then next_stratum else ret tt
  | None => modify (set_statistics (Some []))
  end.

(** [stats.writerow(row)] *)
Definition writerow (row : list Z) : M unit :=
  modify (fun s => set_statistics
    (Some (match statistics s with
           | Some rows => (rows ++ [row])%list
           | None => [row]
           end)) s).

(** Lines 618-625: the first search of a stratum and its pages. *)
Definition ascending_pass (fuel : nat) : M unit :=
  update_status "Searching..." ;;
  a <- gets strat_first ;;
  b <- gets strat_last ;;
  res <- search fuel a b "asc" "no" ;;
  total_count <- json_total_count res ;;
  modify (set_pop_repo total_count) ;;
  download_all_repos fuel res.

(** Lines 633-646: the same search in reverse order. *)
Definition descending_pass (fuel : nat) : M unit :=
  update_status "Repeating search with reverse sort order..." ;;
  a <- gets strat_first ;;
  b <- gets strat_last ;;
  res <- search fuel a b "desc" "no" ;;
  pop2 <- json_total_count res ;;
  modify (fun s => set_pop_repo (Z.max (pop_repo s) pop2) s) ;;
  download_all_repos fuel res.

(** Lines 616-646. *)
Definition sample_unlicensed (fuel : nat) : M unit :=
  ascending_pass fuel ;;
  pop <- gets pop_repo ;;
  if pop >? 1000 then descending_pass fuel else ret tt.

(** Lines 655-664. *)
Definition license_ascending_pass (fuel : nat) (lic : string) : M unit :=
  update_status ("Searching for >>" ++ lic ++ "<< licensed repositories...") ;;
  modify (set_current_license lic) ;;
  a <- gets strat_first ;;
  b <- gets strat_last ;;
  res <- search fuel a b "asc" lic ;;
  modify (fun s => set_current_cumulative_pop (pop_repo s) s) ;;
  total_count <- json_total_count res ;;
  modify (fun s => set_pop_repo (pop_repo s + total_count) s) ;;
  download_all_repos fuel res.

(** Lines 667-676. *)
Definition license_descending_pass (fuel : nat) (lic : string) : M unit :=
  update_status "Repeating search with reverse sort order..." ;;
  a <- gets strat_first ;;
  b <- gets strat_last ;;
  res <- search fuel a b "desc" lic ;;
  total_count <- json_total_count res ;;
  modify (fun s =>
    let pop2 := total_count + current_cumulative_pop s in
    set_pop_repo (Z.max (pop_repo s) pop2) s) ;;
  download_all_repos fuel res.

(** The body of [for lic in licenses]. *)
Definition sample_license (fuel : nat) (lic : string) : M unit :=
  license_ascending_pass fuel lic ;;
  pop <- gets pop_repo ;;
  if pop >? 1000 then license_descending_pass fuel lic else ret tt.

Fixpoint sample_licenses (fuel : nat) (lics : list string) : M unit :=
  match lics with
  | [] => ret tt
  | lic :: rest => sample_license fuel lic ;; sample_licenses fuel rest
  end.

(** One turn of the main loop, lines 609-690. *)
Definition sample_stratum (fuel : nat) : M unit :=
  modify (set_pop_repo 0) ;;
  modify (set_sam_repo 0) ;;
  modify (set_sam_file 0) ;;
  modify (set_sam_comit 0) ;;
  (if negb (licensed args) then sample_unlicensed fuel
   else sample_licenses fuel licenses) ;;
  row <- gets (fun s => [strat_first s; strat_last s; pop_repo s;
                         sam_repo s; sam_file s; sam_comit s]) ;;
  writerow row ;;
  next_stratum.

(** The state in which a turn of the main loop starts to search. *)
Definition stratum_start (s : State) : State :=
  set_sam_comit 0 (set_sam_file 0 (set_sam_repo 0 (set_pop_repo 0 s))).

(** [while strat_first <= args.max_size] *)
Fixpoint main_loop (fuel n : nat) : M unit :=
  first <- gets strat_first ;;
  if first <=? max_size args then
    match n with
    | O => out_of_fuel
    | S n' => sample_stratum fuel ;; main_loop fuel n'
    end
  else ret tt.

Definition main (fuel : nat) : M unit :=
  startup ;;
  main_loop fuel fuel ;;
  update_status "Done." ;;
  ret tt.

End Script.

(* ===================================================================== *)
(** * Small worlds *)
(* ===================================================================== *)

(** Concrete configurations, databases and servers on which the script is
    run in the examples below. *)

Definition reply (status : Z) (next : option string) (b : Body) : NetResult :=
  Reply (mkResponse status "" None None None next b 0).

(** The sizes 1 to 5 in one stratum, with a token and without throttling. *)
Definition one_stratum : Args := mkArgs 1 5 5 false false false (Some "t").

(** A run over one stratum in which the search returns a repository whose
    id is stored under an older name (and whose tree cannot be fetched). *)

Definition renamed_db : Store.database :=
  Store.mkDb [Store.mkRepoRow 11 "n" "old/n" None "u" 0 3 "old"] [] [] 11.

Definition renamed_server : Server :=
  fun i _ _ =>
    match i with
    | O => Reply (mkResponse 200 "" None None None None
             (SearchResults 1
                [mkRepo 11 "n" "new/n" None "u" false 3 "new" "main" "c"]) 0)
    | _ => Reply (mkResponse 404 "" None None None None
             (ErrorMessage "Not Found") 0)
    end.


(** The statistics file of a finished run over the sizes 1 to 7 in strata
    of five, read again by a run that was asked for the sizes 1 to 20. *)
Definition finished_log : list (list Z) :=
  [[1; 5; 0; 0; 0; 0]; [6; 7; 0; 0; 0; 0]].

Definition finished_args : Args := mkArgs 1 7 5 false false false (Some "t").
Definition extended_args : Args := mkArgs 1 20 5 false false false (Some "t").

(** A server that answers the first request with a 403 whose
    [X-RateLimit-Reset] is 100, read by a script whose clock is at 99.5. *)
Definition limited_server : Server :=
  fun i _ _ =>
    match i with
    | O => Reply (mkResponse 403 "" (Some 100%N) None None None
                    (ErrorMessage "API rate limit exceeded") 0)
    | _ => reply 200 None (SearchResults 0 [])
    end.

Definition half_past : State :=
  initial_state one_stratum Store.empty None (199 # 2).

(** A server whose searches report 1500 repositories and list none. *)
Definition crowded_server : Server :=
  fun _ _ _ => reply 200 None (SearchResults 1500 []).

(** A server whose first search reports 1500 repositories and whose later
    ones report 1400, all on one page. *)
Definition steady_server : Server :=
  fun i _ _ =>
    match i with
    | O => reply 200 None (SearchResults 1500 [])
    | _ => reply 200 None (SearchResults 1400 [])
    end.




(** A server that fails every request, and a repository and a commit to
    ask it for. *)
Definition failing_server : Server :=
  fun _ _ _ => reply 500 None (ErrorMessage "Server Error").

(** No connection. *)
Definition offline_server : Server := fun _ _ _ => NoConnection.

Definition some_repo : Repo :=
  mkRepo 7 "n" "o/n" None "u" false 1 "o" "main"
    "https://api.github.com/repos/o/n/commits{/sha}".

Definition some_commit : Commit := mkCommit "c1" "first" "2020-01-01" [].

(** A stratum of 1001 repositories.  The ascending query lists the
    repositories 0 to 999 on ten pages, each followed by the requests for
    the trees of its hundred repositories (which hold no files); the
    descending query, request 1010, lists the repository 1000 first and has
    a second page; [last] answers request 1012. *)
Definition numbered_repo (n : nat) : Repo :=
  mkRepo (Z.of_nat n) "r" ("o/r" ++ zstr (Z.of_nat n)) None "u" false 1 "o"
    "main" "https://api.github.com/repos/o/r/commits{/sha}".

Definition result_page (k : nat) : list Repo :=
  map numbered_repo (seq (100 * k) 100).

Definition page_two : string := search_url ++ "?q=size:1..5&order=desc&page=2".

Definition just_above_cap (last : NetResult) : Server :=
  fun i _ _ =>
    if (i =? 1012)%nat then last
    else if (i mod 101 =? 0)%nat then
      if (i / 101 <? 9)%nat then
        reply 200 (Some (search_url ++ "?q=size:1..5&order=asc&page=next"))
          (SearchResults 1001 (result_page (i / 101)))
      else if (i / 101 =? 9)%nat then
        reply 200 None (SearchResults 1001 (result_page 9))
      else
        reply 200 (Some page_two)
          (SearchResults 1001 (numbered_repo 1000 :: result_page 9))
    else reply 200 None (Tree []).

(* ===================================================================== *)
(** * Invariants *)
(* ===================================================================== *)

(** Nothing but the world and the display has changed: the clock, the
    requests sent, the trace, the two counters of the API use and the
    status message may differ. *)
Definition only_world (s s' : State) : Prop :=
  strat_first s' = strat_first s /\ strat_last s' = strat_last s /\
  pop_repo s' = pop_repo s /\
  sam_repo s' = sam_repo s /\ sam_file s' = sam_file s /\
  sam_comit s' = sam_comit s /\
  total_sam_repo s' = total_sam_repo s /\
  total_sam_file s' = total_sam_file s /\
  total_sam_comit s' = total_sam_comit s /\
  current_license s' = current_license s /\
  current_cumulative_pop s' = current_cumulative_pop s /\
  db s' = db s /\ statistics s' = statistics s.

(** A property of states that does not look at the world. *)
Definition stable (I : State -> Prop) : Prop :=
  forall s s', only_world s s' -> I s -> I s'.

(** From a state with [P], the computation leaves a state with [Q],
    however it ends. *)
Definition carries {A : Type} (P : State -> Prop) (c : M A)
  (Q : State -> Prop) : Prop :=
  forall s, P s -> Q (exec c s).

Definition keeps {A : Type} (I : State -> Prop) (c : M A) : Prop :=
  carries I c I.

(** The constraints of the schema: the primary keys [repo_id], [file_id]
    and [comit_id], [UNIQUE(path, repo_id)] and [UNIQUE(sha, file_id)]. *)
Definition unique_keys (d : Store.database) : Prop :=
  NoDup (map Store.repo_id (Store.repo d)) /\
  NoDup (map Store.file_id (Store.file d)) /\
  NoDup (map (fun r => (Store.f_path r, Store.f_repo_id r)) (Store.file d)) /\
  NoDup (map Store.comit_id (Store.comit d)) /\
  NoDup (map (fun r => (Store.c_sha r, Store.c_file_id r)) (Store.comit d)).

Definition has_repo (rid : Z) (d : Store.database) : Prop :=
  exists r, In r (Store.repo d) /\ Store.repo_id r = rid.

Definition has_file (fid : Z) (d : Store.database) : Prop :=
  exists f, In f (Store.file d) /\ Store.file_id f = fid.

(** The foreign keys of the schema, which SQLite does not enforce unless
    asked to: a file belongs to a stored repository, a commit to a stored
    file. *)
Definition references_kept (d : Store.database) : Prop :=
  (forall f, In f (Store.file d) -> has_repo (Store.f_repo_id f) d) /\
  (forall c, In c (Store.comit d) -> has_file (Store.c_file_id c) d).

(** The rows of the three tables against the totals: the rows of [file]
    and of [comit] minus their totals, and a bound for the rows of [repo]
    minus its total. *)
Definition ledger (kr kf kc : Z) (s : State) : Prop :=
  Z.of_nat (List.length (Store.repo (db s))) - total_sam_repo s <= kr /\
  Z.of_nat (List.length (Store.file (db s))) - total_sam_file s = kf /\
  Z.of_nat (List.length (Store.comit (db s))) - total_sam_comit s = kc.

(** The totals against the counters of the stratum. *)
Definition tally (tr tf tc : Z) (s : State) : Prop :=
  total_sam_repo s - sam_repo s = tr /\
  total_sam_file s - sam_file s = tf /\
  total_sam_comit s - sam_comit s = tc.

(** What the crawl of a stratum maintains. *)
Definition crawl_inv (kr kf kc tr tf tc : Z) (s : State) : Prop :=
  unique_keys (db s) /\ references_kept (db s) /\
  ledger kr kf kc s /\ tally tr tf tc s.

(** The same inside the crawl of the repository [rid], whose row is
    stored, and inside the crawl of its file [fid], whose row is stored. *)
Definition within_repo (kr kf kc tr tf tc : Z) (rid : Z) (s : State) : Prop :=
  crawl_inv kr kf kc tr tf tc s /\ has_repo rid (db s).

Definition within_file (kr kf kc tr tf tc : Z) (rid fid : Z) (s : State)
  : Prop :=
  within_repo kr kf kc tr tf tc rid s /\ has_file fid (db s).

(** The search queries of a stratum under the license filter, in the
    order they are sent: for each license the ascending query, and the
    descending one where [again] says so. *)
Fixpoint license_queries (args : Args) (a b : Z) (lics : list string)
  (again : list bool) : list (string * string) :=
  match lics, again with
  | lic :: lics', twice :: again' =>
      ((query args a b lic, "asc") ::
       (if twice then [(query args a b lic, "desc")] else []) ++
       license_queries args a b lics' again')%list
  | _, _ => []
  end.

(** A server with one repository of one Solidity file with one commit:
    the search, the tree, the list of commits, the content. *)
Definition solidity_server : Server :=
  fun i _ _ =>
    match i with
    | O => reply 200 None (SearchResults 1 [some_repo])
    | S O => reply 200 None
               (Tree [ mkEntry "blob" "contracts/Token.sol" "f1" "";
                       mkEntry "blob" "README.md" "f2" "" ])
    | S (S O) => reply 200 None (CommitList [some_commit])
    | _ => reply 200 None
             (Content "pragma solidity ^0.8.10; contract Token {}")
    end.

(** The invariant of the crawl with the counters of the stratum left
    open: it holds from one stratum to the next. *)
Definition run_inv (kr kf kc : Z) (s : State) : Prop :=
  exists tr tf tc, crawl_inv kr kf kc tr tf tc s.

(** The tables have only grown at their ends: the rows of before are
    where and what they were. *)
Definition tables_grow (s s' : State) : Prop :=
  (exists rows, Store.repo (db s') = (Store.repo (db s) ++ rows)%list) /\
  (exists rows, Store.file (db s') = (Store.file (db s) ++ rows)%list) /\
  (exists rows, Store.comit (db s') = (Store.comit (db s) ++ rows)%list).

(* ===================================================================== *)
(** * Properties *)
(* ===================================================================== *)

(* ===================================================================== *)
(** * Properties of the stratum planner *)
(* ===================================================================== *)

Lemma last_default {A : Type} (a : A) (l : list A) (d d' : A) :
  last (a :: l) d = last (a :: l) d'.
Proof.
  revert a; induction l as [|b l IH]; intros a; [reflexivity|].
  change (last (b :: l) d = last (b :: l) d'). apply IH.
Qed.

Section PlannerFacts.

Variable args : Args.
Hypothesis width_pos : 1 <= stratum_size args.

Lemma planned_init : planned args (strat_init args).
Proof. reflexivity. Qed.

Lemma planned_advance b :
  planned args b -> planned args (strat_advance args b).
Proof. unfold planned, strat_advance; simpl; intros ->; lia. Qed.

(** Within the loop a stratum is not empty and stays below the maximum. *)
Lemma planned_inside b :
  planned args b -> fst b <= max_size args ->
  fst b <= snd b <= max_size args.
Proof. unfold planned; intros ->; lia. Qed.

(** With enough fuel the loop ends, and the strata it visited start at the
    current bounds, follow each other and end at the maximum. *)
Lemma strata_from_spec (fuel : nat) : forall b,
  planned args b -> fst b <= max_size args ->
  (Z.to_nat (max_size args - fst b) < fuel)%nat ->
  exists l, strata_from fuel args b = Some (b :: l) /\
            contiguous (b :: l) /\
            (forall c, In c (b :: l) -> fst c <= snd c) /\
            snd (last (b :: l) b) = max_size args.
Proof.
  induction fuel as [|fuel IH]; intros b Hb Hle Hfuel; [lia|].
  simpl. destruct (Z.leb_spec (fst b) (max_size args)) as [_|]; [|lia].
  destruct (Z.leb_spec (fst (strat_advance args b)) (max_size args))
    as [Hnext|Hnext].
  - destruct (IH (strat_advance args b)) as (l & -> & Hc & Hne & Hlast).
    + now apply planned_advance.
    + exact Hnext.
    + simpl in *. lia.
    + exists (strat_advance args b :: l). split; [reflexivity|].
      split; [|split].
      * split; [|exact Hc]. unfold planned in Hb. simpl in *. lia.
      * intros c [<-|Hin]; [|now apply Hne].
        now apply planned_inside.
      * rewrite (last_default _ _ _ (strat_advance args b)). exact Hlast.
  - exists []. split.
    + destruct fuel; simpl;
        destruct (Z.leb_spec (fst b + stratum_size args) (max_size args));
        simpl in *; try lia; reflexivity.
    + split; [simpl; tauto|]. split.
      * intros c [<-|[]]. now apply planned_inside.
      * unfold planned in Hb. simpl in *. lia.
Qed.

End PlannerFacts.

(** Strata that follow each other and are not empty increase strictly. *)
Lemma contiguous_increasing (l : list bounds) : forall b j c,
  contiguous (b :: l) -> (forall c, In c (b :: l) -> fst c <= snd c) ->
  nth_error l j = Some c -> snd b < fst c.
Proof.
  induction l as [|b' l IH]; intros b j c Hc Hne Hj.
  - now destruct j.
  - destruct Hc as [Hbb' Hc]. destruct j as [|j]; simpl in Hj.
    + injection Hj as <-. lia.
    + assert (snd b' < fst c).
      { apply (IH b' j c Hc); [|exact Hj].
        intros d Hd. apply Hne. now right. }
      assert (fst b' <= snd b') by (apply Hne; simpl; auto).
      lia.
Qed.

Lemma contiguous_non_overlapping (l : list bounds) :
  contiguous l -> (forall c, In c l -> fst c <= snd c) -> non_overlapping l.
Proof.
  induction l as [|b l IH]; intros Hc Hne i j c c' x Hi Hj Hx Hx'.
  - now destruct i.
  - assert (Hl : non_overlapping l).
    { apply IH; [apply Hc|]. intros d Hd. apply Hne. now right. }
    destruct i as [|i], j as [|j]; simpl in Hi, Hj.
    + reflexivity.
    + injection Hi as <-.
      pose proof (contiguous_increasing l b j c' Hc Hne Hj). lia.
    + injection Hj as <-.
      pose proof (contiguous_increasing l b i c Hc Hne Hi). lia.
    + f_equal. exact (Hl i j c c' x Hi Hj Hx Hx').
Qed.

(** C1. Stratum coverage: for every configuration with
    [1 <= min_size <= max_size] and a stratum width of at least one, the
    main loop's walk over the strata ends, and the strata it visits are
    contiguous (each starts one above the upper bound of the one before),
    do not overlap, start at [min_size], and the last one ends at
    [max_size]. *)
Theorem stratum_coverage (args : Args) (fuel : nat) :
  1 <= min_size args -> min_size args <= max_size args ->
  1 <= stratum_size args ->
  (Z.to_nat (max_size args - min_size args) < fuel)%nat ->
  exists first rest,
    strata fuel args = Some (first :: rest) /\
    contiguous (first :: rest) /\
    non_overlapping (first :: rest) /\
    fst first = min_size args /\
    snd (last (first :: rest) first) = max_size args.
Proof.
  intros Hmin Hle Hw Hfuel.
  destruct (strata_from_spec args Hw fuel (strat_init args))
    as (l & Hrun & Hc & Hne & Hlast).
  - apply planned_init.
  - exact Hle.
  - exact Hfuel.
  - exists (strat_init args), l. split; [exact Hrun|].
    split; [exact Hc|]. split; [|split].
    + now apply contiguous_non_overlapping.
    + reflexivity.
    + exact Hlast.
Qed.

Lemma stratum_coverage_witness :
  exists first rest,
    strata 7 (mkArgs 1 7 5 true false false None) = Some (first :: rest) /\
    contiguous (first :: rest) /\
    non_overlapping (first :: rest) /\
    fst first = 1 /\
    snd (last (first :: rest) first) = 7.
Proof.
  apply (stratum_coverage (mkArgs 1 7 5 true false false None) 7);
    simpl; lia.
Defined.

(* ===================================================================== *)
(** * Properties of the store *)
(* ===================================================================== *)

Section StoreFacts.

Import Store.

(** A row whose key is in the table is not inserted. *)
Lemma insert_repo_present row d :
  existsb (fun r => repo_id r =? repo_id row) (repo d) = true ->
  insert_or_ignore_repo row d = d.
Proof. unfold insert_or_ignore_repo; now intros ->. Qed.

Lemma insert_file_present nm pth sh rid d :
  existsb (fun r => String.eqb (f_path r) pth && (f_repo_id r =? rid))
          (file d) = true ->
  insert_or_ignore_file nm pth sh rid d = d.
Proof. unfold insert_or_ignore_file; now intros ->. Qed.

Lemma insert_comit_present sh msg size created content vers prnts fid d :
  existsb (fun r => String.eqb (c_sha r) sh && (c_file_id r =? fid))
          (comit d) = true ->
  insert_or_ignore_comit sh msg size created content vers prnts fid d = d.
Proof. unfold insert_or_ignore_comit; now intros ->. Qed.

(** After an insert the key is in the table. *)
Lemma insert_repo_key row d :
  existsb (fun r => repo_id r =? repo_id row)
          (repo (insert_or_ignore_repo row d)) = true.
Proof.
  unfold insert_or_ignore_repo.
  destruct (existsb _ (repo d)) eqn:E; [exact E|].
  simpl. rewrite existsb_app. simpl. rewrite Z.eqb_refl.
  now rewrite orb_true_r.
Qed.

Lemma insert_file_key nm pth sh rid d :
  existsb (fun r => String.eqb (f_path r) pth && (f_repo_id r =? rid))
          (file (insert_or_ignore_file nm pth sh rid d)) = true.
Proof.
  unfold insert_or_ignore_file.
  destruct (existsb _ (file d)) eqn:E; [exact E|].
  simpl. rewrite existsb_app. simpl.
  rewrite String.eqb_refl, Z.eqb_refl. now rewrite orb_true_r.
Qed.

Lemma insert_comit_key sh msg size created content vers prnts fid d :
  existsb (fun r => String.eqb (c_sha r) sh && (c_file_id r =? fid))
    (comit (insert_or_ignore_comit sh msg size created content vers prnts
              fid d)) = true.
Proof.
  unfold insert_or_ignore_comit.
  destruct (existsb _ (comit d)) eqn:E; [exact E|].
  simpl. rewrite existsb_app. simpl.
  rewrite String.eqb_refl, Z.eqb_refl. now rewrite orb_true_r.
Qed.

End StoreFacts.

Section IngestionFacts.

Lemma db_insert_repo repo s :
  db (exec (insert_repo repo) s) =
  Store.insert_or_ignore_repo
    (Store.mkRepoRow (id repo) (name repo) (full_name repo) (description repo)
       (url repo) (if fork repo then 1 else 0) (owner_id repo)
       (owner_login repo)) (db s).
Proof. reflexivity. Qed.

Lemma db_insert_file file rid s :
  db (exec (insert_file file rid) s) =
  Store.insert_or_ignore_file (entry_name file) (path file) (sha file) rid
    (db s).
Proof. reflexivity. Qed.

Lemma db_insert_commit commit res prnts fid s :
  db (exec (insert_commit commit res prnts fid) s) =
  Store.insert_or_ignore_comit (commit_sha commit) (message commit)
    (Z.of_nat (String.length (text_of res))) (date commit) (text_of res)
    (find_compiler_version (text_of res)) (str_list prnts) fid (db s).
Proof. reflexivity. Qed.

(** C2. Idempotent ingestion: inserting a repository, a file or a revision
    a second time under the same natural key ([id] for a repository,
    [(path, repo_id)] for a file, [(sha, file_id)] for a revision) leaves
    the database, and so the row count of its table, as the first insert
    left it. *)
Theorem idempotent_ingestion
  (s : State) (repo repo' : Repo) (file file' : TreeEntry) (repo_id : Z)
  (commit commit' : Commit) (res res' : Response)
  (prnts prnts' : list string) (file_id : Z) :
  id repo' = id repo ->
  path file' = path file ->
  commit_sha commit' = commit_sha commit ->
  let rows (d : Store.database) :=
    (List.length (Store.repo d), List.length (Store.file d),
     List.length (Store.comit d)) in
  (let once := exec (insert_repo repo) s in
   let twice := exec (insert_repo repo') once in
   db twice = db once /\ rows (db twice) = rows (db once)) /\
  (let once := exec (insert_file file repo_id) s in
   let twice := exec (insert_file file' repo_id) once in
   db twice = db once /\ rows (db twice) = rows (db once)) /\
  (let once := exec (insert_commit commit res prnts file_id) s in
   let twice := exec (insert_commit commit' res' prnts' file_id) once in
   db twice = db once /\ rows (db twice) = rows (db once)).
Proof.
  intros Hid Hpath Hsha rows.
  assert (same : forall d d' : Store.database,
             d' = d -> d' = d /\ rows d' = rows d) by (now intros d d' ->).
  split; [|split]; cbv zeta; apply same;
    rewrite ?db_insert_repo, ?db_insert_file, ?db_insert_commit.
  - apply insert_repo_present. simpl. rewrite Hid.
    apply (insert_repo_key
             (Store.mkRepoRow (id repo) (name repo) (full_name repo)
                (description repo) (url repo) (if fork repo then 1 else 0)
                (owner_id repo) (owner_login repo))).
  - apply insert_file_present. rewrite Hpath. apply insert_file_key.
  - apply insert_comit_present. rewrite Hsha. apply insert_comit_key.
Qed.

Lemma idempotent_ingestion_witness :
  let s := initial_state (mkArgs 1 7 5 true false false None) Store.empty
             None 0 in
  let repo := mkRepo 7 "n" "o/n" None "u" false 1 "o" "main" "c" in
  let repo' := mkRepo 7 "m" "p/m" None "v" true 2 "p" "dev" "d" in
  let file := mkEntry "blob" "a.sol" "s1" "a" in
  let file' := mkEntry "blob" "a.sol" "s2" "a" in
  let commit := mkCommit "c1" "first" "2020" [] in
  let commit' := mkCommit "c1" "again" "2021" ["c0"] in
  let res := mkResponse 200 "" None None None None (Content "x") 0 in
  List.length (Store.repo (db (exec (insert_repo repo')
                                 (exec (insert_repo repo) s)))) = 1%nat /\
  List.length (Store.file (db (exec (insert_file file' 7)
                                 (exec (insert_file file 7) s)))) = 1%nat /\
  List.length (Store.comit (db (exec (insert_commit commit' res ["c0"] 1)
                                  (exec (insert_commit commit res [] 1) s))))
    = 1%nat.
Proof.
  intros s repo repo' file file' commit commit' res.
  destruct (idempotent_ingestion s repo repo' file file' 7 commit commit'
              res res [] ["c0"] 1 eq_refl eq_refl eq_refl)
    as [[Hr _] [[Hf _] [Hc _]]].
  rewrite Hr, Hf, Hc. repeat split.
Defined.

End IngestionFacts.

Section CounterFacts.

(** A repository that is stored under another [full_name] is not known. *)
Lemma renamed_repo_unknown (repo : Repo) (rows : list Store.repo_row) :
  (forall r, In r rows -> Store.repo_id r = id repo ->
             Store.r_full_name r <> full_name repo) ->
  Store.count (fun r => String.eqb (Store.r_full_name r) (full_name repo) &&
                        (Store.repo_id r =? id repo)) rows = 0.
Proof.
  unfold Store.count. induction rows as [|r rows IH]; intros H; [reflexivity|].
  simpl. destruct (String.eqb_spec (Store.r_full_name r) (full_name repo))
    as [Hn|Hn]; simpl.
  - destruct (Z.eqb_spec (Store.repo_id r) (id repo)) as [Hi|Hi].
    + exfalso. apply (H r); simpl; auto.
    + apply IH. intros r' Hr'. apply H. now right.
  - apply IH. intros r' Hr'. apply H. now right.
Qed.

Lemma existsb_repo_id (i : Z) (rows : list Store.repo_row) (row : Store.repo_row) :
  In row rows -> Store.repo_id row = i ->
  existsb (fun r => Store.repo_id r =? i) rows = true.
Proof.
  intros Hin Hi. apply existsb_exists. exists row. split; [exact Hin|].
  now apply Z.eqb_eq.
Qed.

Lemma renamed_repo_run :
  let s' := exec (main one_stratum renamed_server 2)
                 (initial_state one_stratum renamed_db None 0) in
  result (main one_stratum renamed_server 2)
         (initial_state one_stratum renamed_db None 0) = Ret tt /\
  statistics s' = Some [[1; 5; 1; 1; 0; 0]] /\
  total_sam_repo s' = 1 /\
  db s' = renamed_db.
Proof. vm_compute. repeat split. Qed.

(** C10. Every call of [insert_repo], [insert_file] and [insert_commit]
    adds one to its stratum counter and to its total, whether or not the
    [INSERT OR IGNORE] adds a row.  In particular, when a repository whose
    id is stored is found again under another [full_name], [known_repo] is
    false, [insert_repo] adds no row, and [sam_repo] and [total_sam_repo]
    still grow: the sample count recorded for a stratum can exceed the rows
    added to the store, as it does in the run [renamed_repo_run]. *)
Theorem sample_counters_count_calls :
  (forall s repo,
     let s' := exec (insert_repo repo) s in
     sam_repo s' = sam_repo s + 1 /\
     total_sam_repo s' = total_sam_repo s + 1) /\
  (forall s file repo_id,
     let s' := exec (insert_file file repo_id) s in
     sam_file s' = sam_file s + 1 /\
     total_sam_file s' = total_sam_file s + 1) /\
  (forall s commit res prnts file_id,
     let s' := exec (insert_commit commit res prnts file_id) s in
     sam_comit s' = sam_comit s + 1 /\
     total_sam_comit s' = total_sam_comit s + 1) /\
  (forall s repo row,
     In row (Store.repo (db s)) ->
     Store.repo_id row = id repo ->
     (forall r, In r (Store.repo (db s)) -> Store.repo_id r = id repo ->
                Store.r_full_name r <> full_name repo) ->
     let s' := exec (insert_repo repo) s in
     known_repo repo s = (Ret false, s) /\
     db s' = db s /\
     sam_repo s' = sam_repo s + 1 /\
     total_sam_repo s' = total_sam_repo s + 1) /\
  (exists args server d fuel sam rows_added,
     let s0 := initial_state args d None 0 in
     let s' := exec (main args server fuel) s0 in
     result (main args server fuel) s0 = Ret tt /\
     statistics s' = Some [[1; 5; 1; sam; 0; 0]] /\
     Z.of_nat (List.length (Store.repo (db s'))) =
       Z.of_nat (List.length (Store.repo d)) + rows_added /\
     rows_added < sam).
Proof.
  split; [|split; [|split; [|split]]].
  - intros s repo. split; reflexivity.
  - intros s file rid. split; reflexivity.
  - intros s commit res prnts fid. split; reflexivity.
  - intros s repo row Hin Hid Hname s'. split; [|split; [|split]].
    + unfold known_repo, gets. now rewrite renamed_repo_unknown.
    + unfold s'. rewrite db_insert_repo. apply insert_repo_present.
      simpl. now apply (existsb_repo_id (id repo) _ row).
    + reflexivity.
    + reflexivity.
  - exists one_stratum, renamed_server, renamed_db, 2%nat, 1, 0.
    destruct renamed_repo_run as (Hres & Hstat & _ & Hdb).
    cbv zeta. rewrite Hres, Hstat, Hdb. repeat split.
Qed.

Lemma sample_counters_count_calls_witness :
  let s := initial_state one_stratum renamed_db None 0 in
  let repo := mkRepo 11 "n" "new/n" None "u" false 3 "new" "main" "c" in
  known_repo repo s = (Ret false, s) /\
  db (exec (insert_repo repo) s) = db s /\
  sam_repo (exec (insert_repo repo) s) = sam_repo s + 1 /\
  total_sam_repo (exec (insert_repo repo) s) = total_sam_repo s + 1.
Proof.
  intros s repo.
  apply (proj1 (proj2 (proj2 (proj2 sample_counters_count_calls))) s repo
           (Store.mkRepoRow 11 "n" "old/n" None "u" 0 3 "old")).
  - simpl. left. reflexivity.
  - reflexivity.
  - intros r [<-|[]] _. discriminate.
Defined.

End CounterFacts.

(* ===================================================================== *)
(** * Properties of the resume block *)
(* ===================================================================== *)

Section ResumeFacts.

Variable args : Args.

(** Replaying well-formed rows ends normally, adds the sample columns to
    the totals and touches nothing but the stratum variables. *)
Lemma replay_totals (rows : list (list Z)) : forall s,
  Forall (fun row => (6 <= List.length row)%nat) rows ->
  exists s',
    replay rows s = (Ret tt, s') /\
    total_sam_repo s' = total_sam_repo s + column 3 rows /\
    total_sam_file s' = total_sam_file s + column 4 rows /\
    total_sam_comit s' = total_sam_comit s + column 5 rows /\
    statistics s' = statistics s /\
    db s' = db s /\
    (rows = [] -> s' = s).
Proof.
  induction rows as [|row rows IH]; intros s Hwf.
  - exists s. unfold column; simpl. repeat split; lia.
  - inversion Hwf as [|? ? Hrow Hrest]; subst.
    destruct row as [|c0 [|c1 [|c2 [|c3 [|c4 [|c5 extra]]]]]];
      simpl in Hrow; try lia.
    match goal with
    | |- exists s', replay (?r :: _) s = _ /\ _ =>
        destruct (IH (exec (replay_row r) s) Hrest)
          as (s' & Hrun & Hr & Hf & Hc & Hst & Hdb & _)
    end.
    exists s'. split; [|split; [|split; [|split; [|split; [|split]]]]].
    + exact Hrun.
    + rewrite Hr. unfold column; simpl. lia.
    + rewrite Hf. unfold column; simpl. lia.
    + rewrite Hc. unfold column; simpl. lia.
    + rewrite Hst. reflexivity.
    + rewrite Hdb. reflexivity.
    + discriminate.
Qed.

Lemma replay_app (rows rows' : list (list Z)) : forall s s',
  replay rows s = (Ret tt, s') ->
  replay (rows ++ rows') s = replay rows' s'.
Proof.
  induction rows as [|row rows IH]; intros s s' Hrun; simpl in *.
  - now injection Hrun as <-.
  - unfold bind in *. destruct (replay_row row s) as [[[]| | |] s1];
      try discriminate. now apply IH.
Qed.

(** What [startup] does when the statistics file exists. *)
Lemma startup_resume (s : State) (rows : list (list Z)) :
  statistics s = Some rows ->
  startup args s =
  (replay rows ;;
   pop <- gets pop_repo ;;
   if pop >? -1 then next_stratum args else ret tt)%crawl
    (set_status_msg "Continuing previous search..."
       (set_total_sam_comit 0 (set_total_sam_file 0
          (set_total_sam_repo 0 (set_status_msg "Initialize Program" s))))).
Proof.
  intros Hstats. unfold startup, bind, modify, gets, update_status. simpl.
  rewrite Hstats. reflexivity.
Qed.



End ResumeFacts.


(** The step is made from the lower bound of the last row.  After the log
    of a finished run over 1..7, whose last stratum [6..7] is cut at the
    maximum, the lower bound is 11: no stratum is left under the
    configuration that wrote the log, and under a larger maximum the run
    goes on at 11. *)
Lemma resume_after_finished_run :
  let s := initial_state extended_args Store.empty (Some finished_log) 0 in
  let s' := exec (startup extended_args) s in
  let t := initial_state finished_args Store.empty (Some finished_log) 0 in
  let t' := exec (startup finished_args) t in
  result (startup extended_args) s = Ret tt /\
  last finished_log [] = [6; 7; 0; 0; 0; 0] /\
  strat_first s' = 11 /\ strat_last s' = 12 /\
  strat_first t' = 11 /\ max_size finished_args = 7.
Proof. vm_compute. repeat split; discriminate. Qed.

(* ===================================================================== *)
(** * Properties of the text encoding *)
(* ===================================================================== *)

Section TextFacts.

Lemma chr_byte (a : ascii) : Re.chr (Re.byte a) = a.
Proof. apply ascii_N_embedding. Qed.

Lemma byte_bound (a : ascii) : (Re.byte a < 256)%N.
Proof. apply N_ascii_bounded. Qed.

Lemma quotient_remainder (d q r : N) :
  (r < d)%N -> ((q * d + r) / d = q /\ (q * d + r) mod d = r)%N.
Proof.
  intros Hr. split; symmetry.
  - apply (N.div_unique _ d q r); [exact Hr|lia].
  - apply (N.mod_unique _ d q r); [exact Hr|lia].
Qed.

Lemma continuation_spec (c : ascii) :
  Re.continuation c = true -> (128 <= Re.byte c <= 191)%N.
Proof.
  unfold Re.continuation. rewrite andb_true_iff, !N.leb_le. tauto.
Qed.

Lemma ascii_not_continuation (c : ascii) :
  (Re.byte c <? 128)%N = true -> Re.continuation c = false.
Proof.
  unfold Re.continuation. rewrite N.ltb_lt. intros H.
  apply andb_false_iff. left. apply N.leb_gt. exact H.
Qed.

(** The encoder writes back the bytes that the decoder has read. *)
Lemma encode_ascii (a : ascii) :
  (Re.byte a <? 128)%N = true -> Re.encode (Re.byte a) = String a "".
Proof. intros H. unfold Re.encode. now rewrite H, chr_byte. Qed.

Lemma encode_stray (a : ascii) :
  (Re.byte a <? 128)%N = false -> Re.encode (Re.stray a) = String a "".
Proof.
  intros H. apply N.ltb_ge in H. pose proof (byte_bound a) as Hb.
  unfold Re.encode, Re.stray.
  replace (56320 + Re.byte a <? 128)%N with false
    by (symmetry; apply N.ltb_ge; lia).
  replace (56320 + Re.byte a <? 2048)%N with false
    by (symmetry; apply N.ltb_ge; lia).
  replace ((56448 <=? 56320 + Re.byte a) && (56320 + Re.byte a <=? 56575))%N
    with true
    by (symmetry; apply andb_true_iff; split; apply N.leb_le; lia).
  replace (56320 + Re.byte a - 56320)%N with (Re.byte a) by lia.
  now rewrite chr_byte.
Qed.

Lemma encode_two (a b : ascii) (cp : N) :
  Re.two a b = Some cp -> Re.encode cp = String a (String b "").
Proof.
  unfold Re.two.
  destruct ((194 <=? Re.byte a) && (Re.byte a <=? 223))%N eqn:Ha;
    [|discriminate].
  destruct (Re.continuation b) eqn:Hb; [|discriminate].
  intros [= <-]. apply andb_true_iff in Ha. destruct Ha as [Ha1 Ha2].
  apply N.leb_le in Ha1, Ha2. apply continuation_spec in Hb.
  remember (Re.byte a - 192)%N as x eqn:Hx.
  remember (Re.byte b - 128)%N as y eqn:Hy.
  assert (Ea : Re.byte a = (192 + x)%N) by lia.
  assert (Eb : Re.byte b = (128 + y)%N) by lia.
  assert (Hy64 : (y < 64)%N) by lia.
  destruct (quotient_remainder 64 x y Hy64) as [Hq Hr].
  unfold Re.encode.
  replace (x * 64 + y <? 128)%N with false by (symmetry; apply N.ltb_ge; lia).
  replace (x * 64 + y <? 2048)%N with true by (symmetry; apply N.ltb_lt; lia).
  now rewrite Hq, Hr, <- Ea, <- Eb, !chr_byte.
Qed.

Lemma encode_three (a b c : ascii) (cp : N) :
  Re.three a b c = Some cp ->
  Re.encode cp = String a (String b (String c "")).
Proof.
  unfold Re.three. cbv zeta.
  remember (Re.byte a - 224)%N as x eqn:Hx.
  remember (Re.byte b - 128)%N as y eqn:Hy.
  remember (Re.byte c - 128)%N as z eqn:Hz.
  destruct ((224 <=? Re.byte a) && (Re.byte a <=? 239))%N eqn:Ha;
    [|discriminate].
  destruct (Re.continuation b) eqn:Hb; [|discriminate].
  destruct (Re.continuation c) eqn:Hc; [|discriminate].
  destruct (2048 <=? x * 4096 + y * 64 + z)%N eqn:Hlow; [|discriminate].
  destruct ((55296 <=? x * 4096 + y * 64 + z) &&
            (x * 4096 + y * 64 + z <=? 57343))%N eqn:Hsur; [discriminate|].
  intros [= <-]. apply andb_true_iff in Ha. destruct Ha as [Ha1 Ha2].
  apply N.leb_le in Ha1, Ha2, Hlow.
  apply continuation_spec in Hb, Hc.
  assert (Ea : Re.byte a = (224 + x)%N) by lia.
  assert (Eb : Re.byte b = (128 + y)%N) by lia.
  assert (Ec : Re.byte c = (128 + z)%N) by lia.
  assert (Hy64 : (y < 64)%N) by lia.
  assert (Hz64 : (z < 64)%N) by lia.
  assert (Hout : ((56448 <=? x * 4096 + y * 64 + z) &&
                  (x * 4096 + y * 64 + z <=? 56575))%N = false).
  { apply andb_false_iff in Hsur. apply andb_false_iff.
    destruct Hsur as [H|H]; [left|right]; apply N.leb_gt in H;
      apply N.leb_gt; lia. }
  destruct (quotient_remainder 4096 x (y * 64 + z) ltac:(lia)) as [Hq1 _].
  destruct (quotient_remainder 64 (x * 64 + y) z Hz64) as [Hq2 Hr2].
  destruct (quotient_remainder 64 x y Hy64) as [_ Hr3].
  replace ((x * 64 + y) * 64 + z)%N with (x * 4096 + y * 64 + z)%N
    in Hq2, Hr2 by lia.
  replace (x * 4096 + (y * 64 + z))%N with (x * 4096 + y * 64 + z)%N
    in Hq1 by lia.
  unfold Re.encode.
  replace (x * 4096 + y * 64 + z <? 128)%N with false
    by (symmetry; apply N.ltb_ge; lia).
  replace (x * 4096 + y * 64 + z <? 2048)%N with false
    by (symmetry; apply N.ltb_ge; lia).
  rewrite Hout.
  replace (x * 4096 + y * 64 + z <? 65536)%N with true
    by (symmetry; apply N.ltb_lt; lia).
  now rewrite Hq1, Hq2, Hr2, Hr3, <- Ea, <- Eb, <- Ec, !chr_byte.
Qed.

Lemma encode_four (a b c d : ascii) (cp : N) :
  Re.four a b c d = Some cp ->
  Re.encode cp = String a (String b (String c (String d ""))).
Proof.
  unfold Re.four. cbv zeta.
  remember (Re.byte a - 240)%N as w eqn:Hw.
  remember (Re.byte b - 128)%N as x eqn:Hx.
  remember (Re.byte c - 128)%N as y eqn:Hy.
  remember (Re.byte d - 128)%N as z eqn:Hz.
  destruct ((240 <=? Re.byte a) && (Re.byte a <=? 244))%N eqn:Ha;
    [|discriminate].
  destruct (Re.continuation b) eqn:Hb; [|discriminate].
  destruct (Re.continuation c) eqn:Hc; [|discriminate].
  destruct (Re.continuation d) eqn:Hd; [|discriminate].
  destruct (65536 <=? w * 262144 + x * 4096 + y * 64 + z)%N eqn:Hlow;
    [|discriminate].
  destruct (w * 262144 + x * 4096 + y * 64 + z <=? 1114111)%N eqn:Hhigh;
    [|discriminate].
  intros [= <-]. apply andb_true_iff in Ha. destruct Ha as [Ha1 Ha2].
  apply N.leb_le in Ha1, Ha2, Hlow.
  apply continuation_spec in Hb, Hc, Hd.
  assert (Ea : Re.byte a = (240 + w)%N) by lia.
  assert (Eb : Re.byte b = (128 + x)%N) by lia.
  assert (Ec : Re.byte c = (128 + y)%N) by lia.
  assert (Ed : Re.byte d = (128 + z)%N) by lia.
  assert (Hx64 : (x < 64)%N) by lia.
  assert (Hy64 : (y < 64)%N) by lia.
  assert (Hz64 : (z < 64)%N) by lia.
  destruct (quotient_remainder 262144 w (x * 4096 + y * 64 + z) ltac:(lia))
    as [Hq1 _].
  destruct (quotient_remainder 4096 (w * 64 + x) (y * 64 + z) ltac:(lia))
    as [Hq2 _].
  destruct (quotient_remainder 64 (w * 4096 + x * 64 + y) z Hz64)
    as [Hq3 Hr3].
  destruct (quotient_remainder 64 w x Hx64) as [_ Hr4].
  destruct (quotient_remainder 64 (w * 64 + x) y Hy64) as [_ Hr5].
  replace (w * 262144 + (x * 4096 + y * 64 + z))%N
    with (w * 262144 + x * 4096 + y * 64 + z)%N in Hq1 by lia.
  replace ((w * 64 + x) * 4096 + (y * 64 + z))%N
    with (w * 262144 + x * 4096 + y * 64 + z)%N in Hq2 by lia.
  replace ((w * 4096 + x * 64 + y) * 64 + z)%N
    with (w * 262144 + x * 4096 + y * 64 + z)%N in Hq3, Hr3 by lia.
  replace ((w * 64 + x) * 64 + y)%N with (w * 4096 + x * 64 + y)%N
    in Hr5 by lia.
  unfold Re.encode.
  replace (w * 262144 + x * 4096 + y * 64 + z <? 128)%N with false
    by (symmetry; apply N.ltb_ge; lia).
  replace (w * 262144 + x * 4096 + y * 64 + z <? 2048)%N with false
    by (symmetry; apply N.ltb_ge; lia).
  replace ((56448 <=? w * 262144 + x * 4096 + y * 64 + z) &&
           (w * 262144 + x * 4096 + y * 64 + z <=? 56575))%N with false
    by (symmetry; apply andb_false_iff; right; apply N.leb_gt; lia).
  replace (w * 262144 + x * 4096 + y * 64 + z <? 65536)%N with false
    by (symmetry; apply N.ltb_ge; lia).
  rewrite Hq1, Hq2, Hq3, Hr3, Hr4, Hr5.
  rewrite (N.mod_small w 8) by lia.
  now rewrite <- Ea, <- Eb, <- Ec, <- Ed, !chr_byte.
Qed.

(** The bytes of the first code point of a text. *)
Lemma head_bytes (a : ascii) (rest : string) :
  exists used rest',
    rest = used ++ rest' /\
    String.length used = snd (Re.head a rest) /\
    Re.encode (fst (Re.head a rest)) = String a used.
Proof.
  unfold Re.head.
  destruct (Re.byte a <? 128)%N eqn:Ha.
  { exists "", rest. repeat split. now apply encode_ascii. }
  assert (Hstray : exists used rest',
            rest = used ++ rest' /\ String.length used = O /\
            Re.encode (Re.stray a) = String a used).
  { exists "", rest. repeat split. now apply encode_stray. }
  destruct rest as [|b rest2]; [exact Hstray|].
  destruct (Re.two a b) as [cp|] eqn:E2.
  { exists (String b ""), rest2. repeat split. now apply encode_two. }
  destruct rest2 as [|c rest3]; [exact Hstray|].
  destruct (Re.three a b c) as [cp|] eqn:E3.
  { exists (String b (String c "")), rest3. repeat split.
    now apply encode_three. }
  destruct rest3 as [|d rest4]; [exact Hstray|].
  destruct (Re.four a b c d) as [cp|] eqn:E4; [|exact Hstray].
  exists (String b (String c (String d ""))), rest4. repeat split.
  now apply encode_four.
Qed.

Lemma codepoints_from_skip (used rest : string) :
  Re.codepoints_from (String.length used) (used ++ rest) = Re.codepoints rest.
Proof.
  induction used as [|a used IH]; [reflexivity|]. simpl. exact IH.
Qed.

Lemma append_assoc (a b c : string) : (a ++ b) ++ c = a ++ b ++ c.
Proof.
  induction a as [|x a IH]; [reflexivity|]. simpl. now rewrite IH.
Qed.

Lemma length_of_append (a b : string) :
  String.length (a ++ b) = (String.length a + String.length b)%nat.
Proof. induction a as [|c a IH]; simpl; [reflexivity|]. now rewrite IH. Qed.

(** Writing the code points of a text gives the text back. *)
Lemma utf8_codepoints (s : string) : Re.utf8 (Re.codepoints s) = s.
Proof.
  assert (H : forall n s, (String.length s <= n)%nat ->
                Re.utf8 (Re.codepoints s) = s).
  { clear s. induction n as [|n IH]; intros s Hlen.
    - destruct s; [reflexivity|simpl in Hlen; lia].
    - destruct s as [|a rest]; [reflexivity|].
      destruct (head_bytes a rest) as (used & rest' & Hrest & Hused & Henc).
      unfold Re.codepoints. simpl. rewrite <- Hused.
      rewrite Hrest at 2. rewrite codepoints_from_skip. rewrite Henc.
      rewrite IH.
      + rewrite Hrest. reflexivity.
      + simpl in Hlen. rewrite Hrest, length_of_append in Hlen. lia. }
  exact (H _ s (le_n _)).
Qed.

Lemma utf8_app (l l' : list N) :
  Re.utf8 (l ++ l') = Re.utf8 l ++ Re.utf8 l'.
Proof.
  induction l as [|c l IH]; [reflexivity|]. simpl.
  now rewrite IH, append_assoc.
Qed.

Lemma encode_not_empty (cp : N) : Re.encode cp <> "".
Proof.
  unfold Re.encode.
  destruct (cp <? 128)%N; [discriminate|].
  destruct (cp <? 2048)%N; [discriminate|].
  destruct ((56448 <=? cp) && (cp <=? 56575))%N; [discriminate|].
  destruct (cp <? 65536)%N; discriminate.
Qed.

Lemma utf8_not_empty (l : list N) : l <> [] -> Re.utf8 l <> "".
Proof.
  destruct l as [|c l]; [congruence|]. intros _. simpl.
  pose proof (encode_not_empty c). destruct (Re.encode c); [congruence|].
  discriminate.
Qed.

(** A text that goes on with an ASCII character is read up to there as it
    is read alone. *)
Lemma head_before_ascii (a : ascii) (u : string) (c : ascii) (v : string) :
  (Re.byte c <? 128)%N = true ->
  Re.head a (u ++ String c v) = Re.head a u.
Proof.
  intros Hc. apply ascii_not_continuation in Hc.
  assert (H2 : forall x, Re.two x c = None).
  { intros x. unfold Re.two. rewrite Hc. now rewrite andb_false_r. }
  assert (H3 : forall x y, Re.three x c y = None).
  { intros x y. unfold Re.three. cbv zeta. rewrite Hc.
    now rewrite andb_false_r. }
  assert (H3' : forall x y, Re.three x y c = None).
  { intros x y. unfold Re.three. cbv zeta. rewrite Hc.
    now rewrite !andb_false_r. }
  assert (H4 : forall x y z, Re.four x c y z = None).
  { intros x y z. unfold Re.four. cbv zeta. rewrite Hc.
    now rewrite andb_false_r. }
  assert (H4' : forall x y z, Re.four x y c z = None).
  { intros x y z. unfold Re.four. cbv zeta. rewrite Hc.
    now rewrite !andb_false_r. }
  assert (H4'' : forall x y z, Re.four x y z c = None).
  { intros x y z. unfold Re.four. cbv zeta. rewrite Hc.
    now rewrite !andb_false_r. }
  unfold Re.head. destruct (Re.byte a <? 128)%N; [reflexivity|].
  destruct u as [|b [|c' [|d u]]]; simpl.
  - rewrite H2. destruct v as [|c2 [|c3 v]]; [reflexivity| |];
      now rewrite H3, ?H4.
  - destruct (Re.two a b); [reflexivity|]. rewrite H3'.
    destruct v as [|c2 v]; [reflexivity|]. now rewrite H4'.
  - destruct (Re.two a b); [reflexivity|].
    destruct (Re.three a b c'); [reflexivity|]. now rewrite H4''.
  - reflexivity.
Qed.

Lemma head_within (a : ascii) (u : string) :
  (snd (Re.head a u) <= String.length u)%nat.
Proof.
  destruct (head_bytes a u) as (used & rest' & Hrest & Hused & _).
  rewrite <- Hused. rewrite Hrest, length_of_append. lia.
Qed.

Lemma codepoints_from_app (u : string) (c : ascii) (v : string) :
  (Re.byte c <? 128)%N = true ->
  forall k, (k <= String.length u)%nat ->
  Re.codepoints_from k (u ++ String c v) =
  (Re.codepoints_from k u ++ Re.codepoints (String c v))%list.
Proof.
  intros Hc. induction u as [|a u IH]; intros k Hk.
  - simpl in Hk. assert (k = O) by lia. subst k. reflexivity.
  - destruct k as [|k]; simpl.
    + rewrite (head_before_ascii a u c v Hc).
      rewrite IH by apply head_within. reflexivity.
    + apply IH. simpl in Hk. lia.
Qed.

Lemma codepoints_app (u : string) (c : ascii) (v : string) :
  (Re.byte c <? 128)%N = true ->
  Re.codepoints (u ++ String c v) =
  (Re.codepoints u ++ Re.codepoints (String c v))%list.
Proof. intros Hc. apply codepoints_from_app; [exact Hc|lia]. Qed.

End TextFacts.

(* ===================================================================== *)
(** * Properties of the version extraction *)
(* ===================================================================== *)

Section VersionFacts.

(** A pattern that starts with a literal matches only where the literal
    stands. *)
Lemma run_lit_prefix (p : string) (re : list Re.atom) (k : Re.cont) :
  forall t m r, Re.run (Re.lit p ++ re) k t m = Some r ->
  exists t', t = (map Re.byte (list_ascii_of_string p) ++ t')%list.
Proof.
  induction p as [|c p IH]; intros t m r H; [now exists t|].
  simpl in H. unfold Re.one in H. destruct t as [|a t]; [discriminate|].
  unfold Re.is_char in H. destruct (N.eqb_spec (Re.byte c) a) as [<-|];
    [|discriminate].
  destruct (IH _ _ _ H) as [t' ->]. now exists t'.
Qed.

Lemma compiler_re_needs_pragma (t : list N) (m : Re.caps) :
  Re.match_at Re.compiler_re t = Some m ->
  exists t', t = (Re.codepoints "pragma solidity " ++ t')%list.
Proof.
  intros H. unfold Re.match_at, Re.compiler_re in H.
  exact (run_lit_prefix "pragma solidity " _ _ t Re.no_caps m H).
Qed.

Lemma search_cons (re : list Re.atom) (c : N) (t : list N) :
  Re.search_from re (c :: t) =
  match Re.match_at re (c :: t) with
  | Some m => Some m
  | None => Re.search_from re t
  end.
Proof. reflexivity. Qed.

(** The search returns the match at the first position that has one. *)
Lemma search_skips (re : list Re.atom) (pre rest : list N) :
  Re.matches_inside re pre rest = false ->
  Re.search_from re (pre ++ rest) = Re.search_from re rest.
Proof.
  induction pre as [|c pre IH]; intros H; [reflexivity|].
  change ((c :: pre) ++ rest)%list with (c :: (pre ++ rest))%list in *.
  rewrite search_cons. simpl in H.
  destruct (Re.match_at re (c :: (pre ++ rest))%list); [discriminate|].
  now apply IH.
Qed.

(** The leftmost match: the text before it has no match. *)
Lemma search_leftmost (re : list Re.atom) (t : list N) (m : Re.caps) :
  Re.search_from re t = Some m ->
  exists pre rest,
    t = (pre ++ rest)%list /\ Re.match_at re rest = Some m /\
    Re.matches_inside re pre rest = false.
Proof.
  induction t as [|c t IH]; intros H.
  - exists [], []. split; [reflexivity|]. split; [|reflexivity].
    simpl in H. now destruct (Re.match_at re []).
  - rewrite search_cons in H.
    destruct (Re.match_at re (c :: t)) as [m'|] eqn:E.
    + exists [], (c :: t). split; [reflexivity|].
      split; [congruence|reflexivity].
    + destruct (IH H) as (pre & rest & -> & Hm & Hno).
      exists (c :: pre), rest. split; [reflexivity|]. split; [exact Hm|].
      simpl. now rewrite E.
Qed.

Lemma prefix_app (n y : string) : prefix n (n ++ y) = true.
Proof.
  induction n as [|c n IH]; [now destruct y|]. simpl.
  destruct (ascii_dec c c) as [_|Hne]; [exact IH|now elim Hne].
Qed.

Lemma contains_unfold (n h : string) :
  contains n h =
  if prefix n h then true
  else match h with
       | EmptyString => false
       | String _ h' => contains n h'
       end.
Proof. destruct h; reflexivity. Qed.

Lemma contains_inside (n x y : string) : contains n (x ++ n ++ y) = true.
Proof.
  induction x as [|c x IH]; rewrite contains_unfold.
  - simpl. now rewrite prefix_app.
  - destruct (prefix n (String c x ++ n ++ y)); [reflexivity|exact IH].
Qed.

Lemma search_without_pragma (text : string) :
  contains "pragma solidity" text = false ->
  Re.search Re.compiler_re text = None.
Proof.
  intros H. unfold Re.search.
  destruct (Re.search_from Re.compiler_re (Re.codepoints text)) as [m|] eqn:E;
    [|reflexivity].
  destruct (search_leftmost _ _ _ E) as (pre & rest & Hsplit & Hm & _).
  destruct (compiler_re_needs_pragma _ _ Hm) as [t' ->].
  assert (Htext : text = Re.utf8 pre ++ "pragma solidity" ++ " " ++ Re.utf8 t').
  { rewrite <- (utf8_codepoints text), Hsplit, !utf8_app. reflexivity. }
  rewrite Htext, contains_inside in H. discriminate.
Qed.

Lemma search_at_pragma (post : string) :
  Re.search Re.compiler_re ("pragma solidity ^0.8.10;" ++ post) =
  Some (Re.mkCaps (rev (Re.codepoints "pragma solidity ^0.8.10"))
                  (rev (Re.codepoints "0.8.10")) false).
Proof. reflexivity. Qed.

End VersionFacts.

(** C9 (as the code has it). [find_compiler_version] returns the version
    of the leftmost match of its pattern: it is ["0.8.10"] on a text that
    contains [pragma solidity ^0.8.10;] with no match of the pattern at an
    earlier position, and it is empty on a text without [pragma solidity]. *)
Theorem version_extraction :
  (forall pre post : string,
     matches_before Re.compiler_re pre ("pragma solidity ^0.8.10;" ++ post)
       = false ->
     find_compiler_version (pre ++ "pragma solidity ^0.8.10;" ++ post)
       = "0.8.10") /\
  (forall text : string,
     contains "pragma solidity" text = false ->
     find_compiler_version text = "").
Proof.
  split.
  - intros pre post H. unfold find_compiler_version, Re.search.
    assert (Hsplit :
              Re.codepoints (pre ++ "pragma solidity ^0.8.10;" ++ post) =
              (Re.codepoints pre ++
               Re.codepoints ("pragma solidity ^0.8.10;" ++ post))%list).
    { apply (codepoints_app pre "p" ("ragma solidity ^0.8.10;" ++ post)).
      reflexivity. }
    rewrite Hsplit. unfold matches_before in H.
    rewrite (search_skips _ _ _ H).
    change (Re.search_from Re.compiler_re
              (Re.codepoints ("pragma solidity ^0.8.10;" ++ post)))
      with (Re.search Re.compiler_re ("pragma solidity ^0.8.10;" ++ post)).
    rewrite search_at_pragma. reflexivity.
  - intros text H. unfold find_compiler_version.
    now rewrite search_without_pragma.
Qed.

Lemma version_extraction_witness :
  find_compiler_version
    ("// SPDX-License-Identifier: MIT " ++
     "pragma solidity ^0.8.10;" ++ " contract C {}") = "0.8.10" /\
  find_compiler_version "contract C { uint pragma; }" = "".
Proof.
  split.
  - apply (proj1 version_extraction). reflexivity.
  - apply (proj2 version_extraction). reflexivity.
Defined.

(** C9 as the specification has it does not hold for every text that
    contains [pragma solidity ^0.8.10;]: in a flattened file the pragma of
    an earlier part is found first. *)
Lemma version_of_first_pragma :
  let text := "pragma solidity ^0.4.24; contract A {} " ++
              "pragma solidity ^0.8.10; contract B {}" in
  contains "pragma solidity ^0.8.10;" text = true /\
  find_compiler_version text = "0.4.24" /\
  find_compiler_version text <> "0.8.10".
Proof. vm_compute. repeat split. discriminate. Qed.

(* ===================================================================== *)
(** * Properties of the rate-limited client *)
(* ===================================================================== *)

Section ClientFacts.

Variable args : Args.
Variable server : Server.

Lemma throttled_requests s : requests (throttled args s) = requests s.
Proof. unfold throttled, when. now destruct (throttle args). Qed.

Lemma prepare_no_params (url : string) : prepare url [] = url.
Proof. reflexivity. Qed.

(** One turn of [get] on a reply with status 403. *)
Lemma get_403 (fuel : nat) (url : string) (params : Params) (s : State)
  (r : Response) :
  server (requests s) (prepare url params) (negb (no_token args)) = Reply r ->
  status_code r = 403 ->
  let now := (clock (throttled args s) + elapsed r)%Q in
  let wait :=
    match x_ratelimit_reset r with
    | Some t => Z.max 0 (int_of_float (inject_Z (Z.of_N t) - now))
    | None => match retry_after r with
              | Some v => Z.of_N v
              | None => 60
              end
    end in
  exists s1,
    get args server (S fuel) url params s =
      get args server fuel (prepare url params) [] s1 /\
    trace s1 = EvSleep (inject_Z wait) ::
               EvRequest url params (negb (no_token args)) ::
               trace (throttled args s) /\
    clock s1 = (now + inject_Z wait)%Q /\
    requests s1 = S (requests s) /\
    status_msg s1 = status_msg s /\
    db s1 = db s.
Proof.
  intros Hreply H403 now wait.
  rewrite <- throttled_requests in Hreply.
  unfold now, wait, throttled in *.
  unfold get; fold (get args server).
  unfold bind, when, except_connection_error, requests_get, modify,
    handle_rate_limit_error, update_status, time_sleep, time_time, gets, ret,
    exec in *.
  destruct (throttle args); simpl in *; rewrite Hreply; simpl;
    rewrite H403; simpl;
    destruct (x_ratelimit_reset r) as [t|]; simpl;
    eexists; (split; [reflexivity|]); simpl; repeat split.
Qed.

(** One turn of [get] on any other reply. *)
Lemma get_not_403 (fuel : nat) (url : string) (params : Params) (s : State)
  (r : Response) :
  server (requests s) (prepare url params) (negb (no_token args)) = Reply r ->
  status_code r <> 403 ->
  exists res s1,
    get args server (S fuel) url params s = pass_on res s1 /\
    status_code res = status_code r /\
    body res = body r /\
    link_next res = link_next r.
Proof.
  intros Hreply H403. rewrite <- throttled_requests in Hreply.
  apply Z.eqb_neq in H403.
  unfold throttled in *. unfold get; fold (get args server).
  unfold bind, when, except_connection_error, requests_get, modify, exec in *.
  destruct (throttle args); simpl in *; rewrite Hreply; simpl;
    rewrite H403;
    exists (mkResponse (status_code r) (prepare url params)
              (x_ratelimit_reset r) (retry_after r) (x_ratelimit_used r)
              (link_next r) (body r) (elapsed r));
    eexists; repeat split.
Qed.

(** One turn of [get] when the request fails. *)
Lemma get_no_reply (fuel : nat) (url : string) (params : Params) (s : State) :
  (forall r, server (requests s) (prepare url params) (negb (no_token args))
             <> Reply r) ->
  result (get args server (S fuel) url params) s = Exit \/
  result (get args server (S fuel) url params) s = Raise RequestException.
Proof.
  intros Hreply. rewrite <- throttled_requests in Hreply.
  unfold throttled, result in *. unfold get; fold (get args server).
  unfold bind, when, except_connection_error, requests_get, modify, exec in *.
  destruct (throttle args); simpl in *;
    destruct (server _ _ _) as [r| |]; simpl; auto; now elim (Hreply r).
Qed.

(** A lost connection ends [get] with [sys.exit]. *)
Lemma get_no_connection (fuel : nat) (url : string) (params : Params)
  (s : State) :
  server (requests s) (prepare url params) (negb (no_token args))
    = NoConnection ->
  result (get args server (S fuel) url params) s = Exit.
Proof.
  intros Hreply. rewrite <- throttled_requests in Hreply.
  unfold throttled, result in *. unfold get; fold (get args server).
  unfold bind, when, except_connection_error, requests_get, modify, exec in *.
  destruct (throttle args); simpl in *; rewrite Hreply; reflexivity.
Qed.

(** [pass_on] returns the response or raises; an [HTTPError] carries the
    status of the response. *)
Lemma pass_on_outcome (res : Response) (s : State) :
  match result (pass_on res) s with
  | Ret res' => res' = res
  | Raise (HTTPError st) => st = status_code res
  | Raise _ => True
  | Exit | OutOfFuel => False
  end.
Proof.
  unfold result, pass_on, when, handle_log_response, raise_for_status,
    json_message, update_status, time_sleep, bind, modify, gets, ret, raise.
  destruct (status_code res =? 200); simpl.
  - destruct ((400 <=? status_code res) && (status_code res <? 600));
      simpl; reflexivity.
  - destruct (body res); simpl; trivial;
      destruct ((400 <=? status_code res) && (status_code res <? 600));
      simpl; reflexivity.
Qed.

(** [get] never hands a 403 to its caller, as a response or as an error. *)
Lemma get_hides_403 (fuel : nat) : forall url params s,
  match result (get args server fuel url params) s with
  | Ret res => status_code res <> 403
  | Raise (HTTPError st) => st <> 403
  | _ => True
  end.
Proof.
  induction fuel as [|fuel IH]; intros url params s; [exact I|].
  destruct (server (requests s) (prepare url params) (negb (no_token args)))
    as [r| |] eqn:Hreply.
  - destruct (Z.eq_dec (status_code r) 403) as [H403|H403].
    + destruct (get_403 fuel url params s r Hreply H403) as (s1 & Hrun & _).
      unfold result in *. rewrite Hrun. apply IH.
    + destruct (get_not_403 fuel url params s r Hreply H403)
        as (res & s1 & Hrun & Hst & _).
      unfold result in *. rewrite Hrun.
      pose proof (pass_on_outcome res s1) as Hout. unfold result in Hout.
      destruct (fst (pass_on res s1)) as [res'|[]| |]; trivial; congruence.
  - destruct (get_no_reply fuel url params s) as [-> | ->]; trivial.
    intros r. rewrite Hreply. discriminate.
  - destruct (get_no_reply fuel url params s) as [-> | ->]; trivial.
    intros r. rewrite Hreply. discriminate.
Qed.

(** When the server answers 403 to the next [k] requests and something
    else to the one after, [get] ends with [k + 1] units of fuel. *)
Lemma get_ends (k : nat) : forall fuel url params s,
  (k < fuel)%nat ->
  (forall i, (i < k)%nat -> exists r,
     server (requests s + i)%nat (prepare url params) (negb (no_token args))
       = Reply r /\ status_code r = 403) ->
  (forall r,
     server (requests s + k)%nat (prepare url params) (negb (no_token args))
       = Reply r -> status_code r <> 403) ->
  result (get args server fuel url params) s <> OutOfFuel.
Proof.
  induction k as [|k IH]; intros fuel url params s Hfuel Hlim Hend;
    (destruct fuel as [|fuel]; [lia|]).
  - rewrite Nat.add_0_r in Hend.
    destruct (server (requests s) (prepare url params) (negb (no_token args)))
      as [r| |] eqn:Hreply.
    + destruct (get_not_403 fuel url params s r Hreply (Hend r eq_refl))
        as (res & s1 & Hrun & _).
      unfold result. rewrite Hrun.
      pose proof (pass_on_outcome res s1) as Hout. unfold result in Hout.
      destruct (fst (pass_on res s1)); [discriminate..|contradiction].
    + destruct (get_no_reply fuel url params s) as [-> | ->];
        try discriminate. intros r. rewrite Hreply. discriminate.
    + destruct (get_no_reply fuel url params s) as [-> | ->];
        try discriminate. intros r. rewrite Hreply. discriminate.
  - destruct (Hlim 0%nat) as (r & Hreply & H403); [lia|].
    rewrite Nat.add_0_r in Hreply.
    destruct (get_403 fuel url params s r Hreply H403)
      as (s1 & Hrun & _ & _ & Hreq & _).
    unfold result in *. rewrite Hrun. apply IH; [lia| |].
    + intros i Hi. rewrite Hreq, prepare_no_params.
      replace (S (requests s) + i)%nat with (requests s + S i)%nat by lia.
      apply Hlim. lia.
    + intros r'. rewrite Hreq, prepare_no_params.
      replace (S (requests s) + k)%nat with (requests s + S k)%nat by lia.
      apply Hend.
Qed.

(** The wait computed from the reset header is the wait of the
    specification cut down to whole seconds. *)
Lemma wait_within_second (reset : N) (now : Q) :
  let wait := Z.max 0 (int_of_float (inject_Z (Z.of_N reset) - now)) in
  (inject_Z wait <= spec_wait reset now)%Q /\
  (spec_wait reset now < inject_Z wait + 1)%Q.
Proof.
  unfold spec_wait, int_of_float.
  generalize (inject_Z (Z.of_N reset) - now)%Q. intros x.
  destruct (Qle_bool 0 x) eqn:Hx.
  - apply Qle_bool_iff in Hx.
    assert (Hn : 0 <= Qnum x).
    { unfold Qle in Hx. change (0 * QDen x <= Qnum x * 1) in Hx. lia. }
    rewrite Z.quot_div_nonneg by (trivial; lia).
    assert (Hfl : Qnum x / Z.pos (Qden x) = Qfloor x) by now destruct x.
    rewrite Hfl.
    assert (0 <= Qfloor x) by (rewrite <- Hfl; apply Z.div_pos; lia).
    rewrite Z.max_r by assumption. split.
    + apply Qfloor_le.
    + change 1%Q with (inject_Z 1). rewrite <- inject_Z_plus.
      apply Qlt_floor.
  - assert (Hn : Qnum x < 0).
    { destruct (Z.lt_ge_cases (Qnum x) 0) as [|Hge]; [assumption|].
      assert (Qle_bool 0 x = true) as Ht; [|congruence].
      apply Qle_bool_iff. unfold Qle.
      change (0 * QDen x <= Qnum x * 1). lia. }
    assert (Z.quot (Qnum x) (Z.pos (Qden x)) <= 0).
    { rewrite <- (Z.opp_involutive (Qnum x)), Z.quot_opp_l by lia.
      assert (0 <= Z.quot (- Qnum x) (Z.pos (Qden x)))
        by (apply Z.quot_pos; lia). lia. }
    rewrite Z.max_l by assumption. split; [apply Qle_refl|reflexivity].
Qed.

End ClientFacts.

(** C6 (as the code has it). On a 403 [get] waits and asks again: the wait
    is [max(0, reset - now)] cut down to whole seconds when the reset
    header is there, else the retry-after header, else 60 seconds; then the
    same URL is requested again, and the call goes on as that request
    does.  No 403 reaches the caller as a response or as an error, and the
    call ends once the server stops answering 403. *)
Theorem rate_limit_retry (args : Args) (server : Server) :
  (forall fuel url params s r,
     server (requests s) (prepare url params) (negb (no_token args))
       = Reply r ->
     status_code r = 403 ->
     let now := (clock (throttled args s) + elapsed r)%Q in
     let wait :=
       match x_ratelimit_reset r with
       | Some t => Z.max 0 (int_of_float (inject_Z (Z.of_N t) - now))
       | None => match retry_after r with
                 | Some v => Z.of_N v
                 | None => 60
                 end
       end in
     (forall t, x_ratelimit_reset r = Some t ->
        (inject_Z wait <= spec_wait t now)%Q /\
        (spec_wait t now < inject_Z wait + 1)%Q) /\
     prepare (prepare url params) [] = prepare url params /\
     exists s1,
       get args server (S fuel) url params s =
         get args server fuel (prepare url params) [] s1 /\
       trace s1 = EvSleep (inject_Z wait) ::
                  EvRequest url params (negb (no_token args)) ::
                  trace (throttled args s) /\
       clock s1 = (now + inject_Z wait)%Q /\
       requests s1 = S (requests s)) /\
  (forall fuel url params s,
     match result (get args server fuel url params) s with
     | Ret res => status_code res <> 403
     | Raise (HTTPError st) => st <> 403
     | _ => True
     end) /\
  (forall k fuel url params s,
     (k < fuel)%nat ->
     (forall i, (i < k)%nat -> exists r,
        server (requests s + i)%nat (prepare url params)
          (negb (no_token args)) = Reply r /\ status_code r = 403) ->
     (forall r,
        server (requests s + k)%nat (prepare url params)
          (negb (no_token args)) = Reply r -> status_code r <> 403) ->
     result (get args server fuel url params) s <> OutOfFuel).
Proof.
  split; [|split].
  - intros fuel url params s r Hreply H403 now wait. split; [|split].
    + intros t Ht. unfold wait. rewrite Ht. apply wait_within_second.
    + reflexivity.
    + destruct (get_403 args server fuel url params s r Hreply H403)
        as (s1 & Hrun & Htr & Hcl & Hreq & _).
      exists s1. repeat split; assumption.
  - intros fuel. apply get_hides_403.
  - intros k. apply get_ends.
Qed.

Lemma rate_limit_retry_witness :
  exists s1,
    get one_stratum limited_server 2 search_url [] half_past =
      get one_stratum limited_server 1 search_url [] s1 /\
    trace s1 = [EvSleep 0; EvRequest search_url [] true] /\
    requests s1 = 1%nat.
Proof.
  destruct (proj1 (rate_limit_retry one_stratum limited_server)
              1%nat search_url [] half_past
              (mkResponse 403 "" (Some 100%N) None None None
                 (ErrorMessage "API rate limit exceeded") 0)
              eq_refl eq_refl)
    as (_ & _ & s1 & Hrun & Htr & _ & Hreq).
  exists s1. split; [exact Hrun|]. split; [exact Htr|exact Hreq].
Defined.

(** C6 as the specification has it does not hold to the second: with the
    reset at 100 and the clock at 99.5 the script sleeps 0 seconds before
    it asks again, where [max(0, reset - now)] is half a second. *)
Lemma rate_limit_wait_truncated :
  let s' := exec (get one_stratum limited_server 2 search_url []) half_past in
  rev (trace s') = [ EvRequest search_url [] true; EvSleep 0;
                     EvRequest search_url [] true ] /\
  (spec_wait 100 (199 # 2) == 1 # 2)%Q /\
  ~ (0 == spec_wait 100 (199 # 2))%Q.
Proof. vm_compute. repeat split; discriminate. Qed.


(* ===================================================================== *)
(** * Relations that the crawl maintains *)
(* ===================================================================== *)

Section Preservation.

Context {R : State -> State -> Prop} {quiet : Quiet R}.

Lemma preserves_ret {A : Type} (a : A) : preserves R (ret a).
Proof. intros s. apply quiet_refl. Qed.

Lemma preserves_raise {A : Type} (e : exn) : preserves R (@raise A e).
Proof. intros s. apply quiet_refl. Qed.

Lemma preserves_out_of_fuel {A : Type} : preserves R (@out_of_fuel A).
Proof. intros s. apply quiet_refl. Qed.

Lemma preserves_signal_handler {A : Type} : preserves R (@signal_handler A).
Proof. intros s. apply quiet_refl. Qed.

Lemma preserves_gets {A : Type} (f : State -> A) : preserves R (gets f).
Proof. intros s. apply quiet_refl. Qed.

Lemma preserves_modify (f : State -> State) :
  (forall s, R s (f s)) -> preserves R (modify f).
Proof. intros H s. apply H. Qed.

(** The rule for sequences: the continuation is run on what the first
    part returns. *)
Lemma preserves_bind {A B : Type} (c : M A) (k : A -> M B) :
  preserves R c ->
  (forall a s, fst (c s) = Ret a -> preserves R (k a)) ->
  preserves R (bind c k).
Proof.
  intros Hc Hk s. unfold bind. specialize (Hc s).
  destruct (c s) as [[a|e| |] s1] eqn:E; simpl in *; trivial.
  apply (quiet_trans _ _ _ Hc). apply (Hk a s). now rewrite E.
Qed.

Lemma preserves_try_except {A B : Type} (c : M A) (body : A -> M B)
  (handler : M B) :
  preserves R c ->
  (forall a s, fst (c s) = Ret a -> preserves R (body a)) ->
  preserves R handler ->
  preserves R (try_except c body handler).
Proof.
  intros Hc Hb Hh s. unfold try_except. specialize (Hc s).
  destruct (c s) as [[a|e| |] s1] eqn:E; simpl in *; trivial.
  - apply (quiet_trans _ _ _ Hc). apply (Hb a s). now rewrite E.
  - apply (quiet_trans _ _ _ Hc). apply Hh.
Qed.

Lemma preserves_except_connection_error {A : Type} (c handler : M A) :
  preserves R c -> preserves R handler ->
  preserves R (except_connection_error c handler).
Proof.
  intros Hc Hh s. unfold except_connection_error. specialize (Hc s).
  destruct (c s) as [[a|[]| |] s1]; simpl in *; trivial.
  apply (quiet_trans _ _ _ Hc). apply Hh.
Qed.

Lemma preserves_when (b : bool) (c : M unit) :
  preserves R c -> preserves R (when b c).
Proof. intros Hc. destruct b; [exact Hc|apply preserves_ret]. Qed.

Ltac quiet_step :=
  first
    [ apply preserves_ret | apply preserves_raise | apply preserves_gets
    | apply preserves_out_of_fuel | apply preserves_signal_handler
    | apply preserves_when | apply preserves_except_connection_error
    | apply preserves_bind; [|intros ? ? _]
    | apply preserves_try_except; [|intros ? ? _|]
    | apply preserves_modify; intros ? ].

Ltac quiet_bind x := apply preserves_bind; [|intros x ? _].

Variable args : Args.
Variable server : Server.

Lemma preserves_update_status msg : preserves R (update_status msg).
Proof. unfold update_status. repeat quiet_step. apply quiet_status. Qed.

Lemma preserves_event (e : Event) :
  is_search_event e = false ->
  preserves R (modify (fun s => set_trace (e :: trace s) s)).
Proof. intros He. quiet_step. now apply quiet_event. Qed.

Lemma preserves_time_sleep t : preserves R (time_sleep t).
Proof.
  unfold time_sleep. quiet_step.
  eapply quiet_trans; [apply (quiet_clock (clock s + t)%Q)|].
  now apply (quiet_event (EvSleep t) (set_clock _ s)).
Qed.

Lemma preserves_requests_get url params authorized :
  has_query params = false ->
  preserves R (requests_get server url params authorized).
Proof.
  intros Hq s. unfold requests_get.
  assert (Hsent : R s (set_trace (EvRequest url params authorized :: trace s)
                         (set_requests (S (requests s)) s))).
  { eapply quiet_trans; [apply (quiet_requests (S (requests s)))|].
    apply (quiet_event (EvRequest url params authorized) (set_requests _ s)).
    simpl. rewrite Hq. apply andb_false_r. }
  destruct (server _ _ _); simpl; trivial.
  eapply quiet_trans; [exact Hsent|]. apply quiet_clock.
Qed.

Lemma preserves_json_total_count res : preserves R (json_total_count res).
Proof. unfold json_total_count. destruct (body res); quiet_step. Qed.

Lemma preserves_json_items res : preserves R (json_items res).
Proof. unfold json_items. destruct (body res); quiet_step. Qed.

Lemma preserves_json_tree res : preserves R (json_tree res).
Proof. unfold json_tree. destruct (body res); quiet_step. Qed.

Lemma preserves_json_message res : preserves R (json_message res).
Proof. unfold json_message. destruct (body res); quiet_step. Qed.

Lemma preserves_json_commits res : preserves R (json_commits res).
Proof. unfold json_commits. destruct (body res); quiet_step. Qed.

Lemma preserves_raise_for_status res : preserves R (raise_for_status res).
Proof. unfold raise_for_status. destruct (_ && _); quiet_step. Qed.

Lemma preserves_handle_log_response res :
  preserves R (handle_log_response res).
Proof.
  unfold handle_log_response.
  quiet_step; [apply preserves_update_status|].
  quiet_step.
  { destruct (negb _); repeat quiet_step. apply preserves_json_message. }
  quiet_step; [now apply preserves_event|].
  quiet_step; [apply preserves_time_sleep|].
  quiet_step; [apply preserves_update_status|]. quiet_step.
Qed.

Lemma preserves_pass_on res : preserves R (pass_on res).
Proof.
  unfold pass_on.
  quiet_step; [quiet_step; apply preserves_handle_log_response|].
  quiet_step; [apply preserves_raise_for_status|]. quiet_step.
Qed.

Lemma preserves_handle_rate_limit_error retry res :
  (forall u, preserves R (retry u)) ->
  preserves R (handle_rate_limit_error args retry res).
Proof.
  intros Hretry. unfold handle_rate_limit_error, time_time.
  quiet_step.
  { destruct (x_ratelimit_reset res); repeat quiet_step. }
  quiet_step; [apply preserves_update_status|].
  quiet_step; [apply preserves_time_sleep|].
  quiet_step; [apply preserves_update_status|]. apply Hretry.
Qed.

Lemma preserves_get (fuel : nat) : forall url params,
  has_query params = false ->
  preserves R (get args server fuel url params).
Proof.
  induction fuel as [|fuel IH]; intros url params Hq; [quiet_step|].
  unfold get; fold (get args server).
  quiet_step; [quiet_step; apply preserves_time_sleep|].
  quiet_bind res.
  { quiet_step; [now apply preserves_requests_get|quiet_step]. }
  quiet_step; [quiet_step; apply quiet_api_calls|].
  quiet_step; [quiet_step; apply quiet_rate_used|].
  destruct (status_code res =? 403).
  - apply preserves_handle_rate_limit_error. intros u. now apply IH.
  - apply preserves_pass_on.
Qed.

Lemma preserves_get_content url : preserves R (get_content server url).
Proof.
  unfold get_content.
  quiet_bind res.
  { quiet_step; [now apply preserves_requests_get|quiet_step]. }
  apply preserves_pass_on.
Qed.

Lemma preserves_insert_repo repo : preserves R (insert_repo repo).
Proof.
  unfold insert_repo.
  quiet_step; [quiet_step; apply quiet_insert_repo|].
  quiet_step; [quiet_step; apply quiet_sam_repo|].
  quiet_step; apply quiet_total_sam_repo.
Qed.

Lemma preserves_insert_file file repo_id :
  preserves R (insert_file file repo_id).
Proof.
  unfold insert_file.
  quiet_step; [quiet_step; apply quiet_insert_file|].
  quiet_step; [quiet_step|].
  quiet_step; [quiet_step; apply quiet_sam_file|].
  quiet_step; [quiet_step; apply quiet_total_sam_file|]. quiet_step.
Qed.

Lemma preserves_insert_commit commit res prnts file_id :
  preserves R (insert_commit commit res prnts file_id).
Proof.
  unfold insert_commit.
  quiet_step; [quiet_step; apply quiet_insert_comit|].
  quiet_step; [quiet_step; apply quiet_sam_comit|].
  quiet_step; apply quiet_total_sam_comit.
Qed.

Lemma preserves_commits_loop items full path file_id :
  preserves R (commits_loop server items full path file_id).
Proof.
  induction items as [|commit rest IH]; simpl; [quiet_step|].
  quiet_bind known; [apply preserves_gets|].
  quiet_step; [|exact IH].
  destruct (negb known); [|quiet_step].
  quiet_step; [apply preserves_get_content|apply preserves_insert_commit
              |quiet_step].
Qed.

Lemma preserves_download_commits_from_page res full path file_id :
  preserves R (download_commits_from_page server res full path file_id).
Proof.
  unfold download_commits_from_page.
  quiet_step; [apply preserves_json_commits|].
  quiet_step; [apply preserves_update_status|apply preserves_commits_loop].
Qed.

Lemma preserves_commit_pages fuel (n : nat) : forall res full path file_id,
  preserves R (commit_pages args server fuel n res full path file_id).
Proof.
  induction n as [|n IH]; intros res full path file_id; simpl;
    destruct (link_next res); try quiet_step.
  - apply preserves_update_status.
  - quiet_step; [now apply preserves_get|].
    quiet_step; [apply preserves_download_commits_from_page|apply IH].
Qed.

Lemma preserves_download_all_commits fuel repo file file_id :
  preserves R (download_all_commits args server fuel repo file file_id).
Proof.
  unfold download_all_commits.
  quiet_step; [now apply preserves_get| |quiet_step].
  quiet_step; [apply preserves_download_commits_from_page|].
  quiet_step; [apply preserves_commit_pages|].
  quiet_step; [apply preserves_update_status|quiet_step].
Qed.

Lemma preserves_files_loop fuel repo entries :
  preserves R (files_loop args server fuel repo entries).
Proof.
  induction entries as [|file rest IH]; simpl; [quiet_step|].
  quiet_step; [|exact IH].
  destruct (is_solidity_blob file); [|quiet_step].
  quiet_bind known; [apply preserves_gets|].
  destruct (negb known); [|quiet_step].
  quiet_step; [apply preserves_insert_file
              |apply preserves_download_all_commits].
Qed.

Lemma preserves_crawl_repo fuel repo :
  preserves R (crawl_repo args server fuel repo).
Proof.
  unfold crawl_repo.
  quiet_bind known; [apply preserves_gets|].
  destruct (negb known); [|quiet_step].
  quiet_step; [apply preserves_insert_repo|].
  quiet_step; [now apply preserves_get| |quiet_step].
  quiet_step; [apply preserves_json_tree|].
  quiet_step; [apply preserves_files_loop|quiet_step].
Qed.

Lemma preserves_repos_loop fuel items :
  preserves R (repos_loop args server fuel items).
Proof.
  induction items as [|repo rest IH]; simpl; [quiet_step|].
  quiet_bind at_footer; [apply preserves_crawl_repo|].
  destruct at_footer; [|exact IH].
  repeat (quiet_step; [apply preserves_gets|]).
  destruct (_ >=? _); [quiet_step|exact IH].
Qed.

Lemma preserves_download_repos_from_page fuel res :
  preserves R (download_repos_from_page args server fuel res).
Proof.
  unfold download_repos_from_page.
  quiet_step; [apply preserves_update_status|].
  quiet_step; [apply preserves_json_items|apply preserves_repos_loop].
Qed.

End Preservation.

(** ** The relations at hand *)

#[export] Instance same_searches_quiet : Quiet same_searches.
Proof.
  constructor; unfold same_searches; try (intros; reflexivity).
  - intros; congruence.
  - intros e s He. simpl trace. destruct e; trivial.
    unfold search_queries; fold search_queries. now rewrite He.
Qed.

#[export] Instance same_stratum_quiet : Quiet same_stratum.
Proof.
  constructor; unfold same_stratum; intros; simpl;
    try (split; reflexivity); intuition congruence.
Qed.

#[export] Instance population_grows_quiet : Quiet population_grows.
Proof.
  constructor; unfold population_grows; intros; simpl;
    try (split; [lia|reflexivity]); intuition (lia || congruence).
Qed.

#[export] Instance population_within_quiet (c b : Z) :
  Quiet (population_within c b).
Proof.
  constructor; unfold population_within; intros; simpl; lia.
Qed.

#[export] Instance rows_kept_quiet : Quiet rows_kept.
Proof.
  constructor; unfold rows_kept; intros; simpl; try tauto.
  - intuition auto.
  - unfold Store.insert_or_ignore_repo. destruct (existsb _ _); simpl;
      repeat split; auto. intros r Hr. apply in_or_app. now left.
  - unfold Store.insert_or_ignore_file. destruct (existsb _ _); simpl;
      repeat split; auto. intros r Hr. apply in_or_app. now left.
  - unfold Store.insert_or_ignore_comit. destruct (existsb _ _); simpl;
      repeat split; auto. intros r Hr. apply in_or_app. now left.
Qed.

Section Pages.

Variable args : Args.
Variable server : Server.

(** What [get] returns is a reply of the server. *)
Lemma get_reports (P : Z -> Prop) (fuel : nat) :
  server_reports server P ->
  forall url params s res,
    fst (get args server fuel url params s) = Ret res -> reports P res.
Proof.
  intros Hserver. induction fuel as [|fuel IH]; intros url params s res Hret;
    [discriminate|].
  destruct (server (requests s) (prepare url params) (negb (no_token args)))
    as [r| |] eqn:Hreply.
  - destruct (Z.eq_dec (status_code r) 403) as [H403|H403].
    + destruct (get_403 args server fuel url params s r Hreply H403)
        as (s1 & Hrun & _).
      rewrite Hrun in Hret. exact (IH _ _ _ _ Hret).
    + destruct (get_not_403 args server fuel url params s r Hreply H403)
        as (res' & s1 & Hrun & _ & Hbody & _).
      rewrite Hrun in Hret.
      pose proof (pass_on_outcome res' s1) as Hout. unfold result in Hout.
      rewrite Hret in Hout. subst res'.
      intros n l Hn. rewrite Hbody in Hn.
      exact (Hserver _ _ _ _ Hreply n l Hn).
  - destruct (get_no_reply args server fuel url params s) as [H|H];
      [intros r; rewrite Hreply; discriminate| |];
      unfold result in H; congruence.
  - destruct (get_no_reply args server fuel url params s) as [H|H];
      [intros r; rewrite Hreply; discriminate| |];
      unfold result in H; congruence.
Qed.

Lemma json_total_count_reports (P : Z -> Prop) res s n :
  reports P res -> fst (json_total_count res s) = Ret n -> P n.
Proof.
  unfold json_total_count. intros Hrep.
  destruct (body res) eqn:Hb; try discriminate.
  intros [= <-]. exact (Hrep _ _ Hb).
Qed.

Context {R : State -> State -> Prop} {quiet : Quiet R}.

(** Following the [next] links maintains a relation that holds across the
    update of the population estimate by what the server reports. *)
Lemma preserves_repo_pages (P : Z -> Prop) fuel (n : nat) :
  server_reports server P ->
  (forall v s, P v ->
     R s (set_pop_repo (Z.max (pop_repo s) (v + current_cumulative_pop s)) s)) ->
  forall res, preserves R (repo_pages args server fuel n res).
Proof.
  intros Hserver Hpop.
  induction n as [|n IH]; intros res; simpl;
    destruct (link_next res) as [next|];
    try apply preserves_ret; try apply preserves_out_of_fuel.
  apply preserves_bind; [apply preserves_update_status|intros _ _ _].
  apply preserves_bind; [now apply preserves_get|intros res' s1 Hres'].
  apply preserves_bind; [apply preserves_json_total_count|intros v s2 Hv].
  apply preserves_bind.
  { apply preserves_modify. intros s3. apply Hpop.
    apply (json_total_count_reports P res' s2); [|exact Hv].
    exact (get_reports P fuel Hserver _ _ _ _ Hres'). }
  intros _ _ _.
  apply preserves_bind; [apply preserves_download_repos_from_page|].
  intros _ _ _.
  apply preserves_bind; [apply preserves_gets|intros sam _ _].
  apply preserves_bind; [apply preserves_gets|intros pop _ _].
  destruct (sam >=? pop); [apply preserves_ret|apply IH].
Qed.

Lemma preserves_download_all_repos (P : Z -> Prop) fuel res :
  server_reports server P ->
  (forall v s, P v ->
     R s (set_pop_repo (Z.max (pop_repo s) (v + current_cumulative_pop s)) s)) ->
  preserves R (download_all_repos args server fuel res).
Proof.
  intros Hserver Hpop. unfold download_all_repos.
  apply preserves_bind; [apply preserves_download_repos_from_page|].
  intros _ _ _.
  apply preserves_bind; [now apply (preserves_repo_pages P)|intros _ _ _].
  apply preserves_bind; [apply preserves_update_status|intros _ _ _].
  apply preserves_ret.
Qed.

End Pages.

(* ===================================================================== *)
(** * Properties of the sampler *)
(* ===================================================================== *)

Section SamplerFacts.

Variable args : Args.
Variable server : Server.

Lemma exec_bind {A B : Type} (c : M A) (k : A -> M B) (s : State) :
  exec (bind c k) s =
  match result c s with
  | Ret a => exec (k a) (exec c s)
  | _ => exec c s
  end.
Proof. unfold exec, result, bind. now destruct (c s) as [[]]. Qed.

Lemma result_bind {A B : Type} (c : M A) (k : A -> M B) (s : State) :
  result (bind c k) s =
  match result c s with
  | Ret a => result (k a) (exec c s)
  | Raise e => Raise e
  | Exit => Exit
  | OutOfFuel => OutOfFuel
  end.
Proof. unfold exec, result, bind. now destruct (c s) as [[]]. Qed.

(** A sequence maintains what its first part establishes and its second
    part maintains. *)
Lemma bind_then_quiet {A B : Type} (c : M A) (k : A -> M B)
  (R : State -> State -> Prop) {quiet : Quiet R} (s : State) :
  (forall a, preserves R (k a)) ->
  R (exec c s) (exec (bind c k) s).
Proof.
  intros Hk. rewrite exec_bind. destruct (result c s);
    try apply quiet_refl. apply Hk.
Qed.

Lemma throttled_globals (s : State) : same_globals s (throttled args s).
Proof.
  unfold throttled, exec, when.
  destruct (throttle args); repeat split.
Qed.

Lemma throttled_queries (s : State) :
  search_queries (trace (throttled args s)) = search_queries (trace s).
Proof. unfold throttled, exec, when. destruct (throttle args); reflexivity. Qed.

(** [get] with fuel sends its request after the throttling pause, and
    whatever follows keeps every relation of the class [Quiet]: it sends
    no search query. *)
Lemma get_first_request (fuel : nat) (url : string) (params : Params)
  (s : State) :
  exists sent,
    trace sent = EvRequest url params (negb (no_token args)) ::
                 trace (throttled args s) /\
    same_globals s sent /\
    forall (R : State -> State -> Prop), Quiet R ->
      R sent (exec (get args server (S fuel) url params) s).
Proof.
  set (auth := negb (no_token args)).
  pose (after_reply := fun res : Response =>
         modify (fun s => set_api_calls (api_calls s + 1) s) ;;
         modify (set_rate_used (match x_ratelimit_used res with
                                | Some u => Z.of_N u
                                | None => 0
                                end)) ;;
         if status_code res =? 403 then
           handle_rate_limit_error args
             (fun u => get args server fuel u []) res
         else pass_on res).
  assert (Hafter : forall (R : State -> State -> Prop), Quiet R ->
            forall res, preserves R (after_reply res)).
  { intros R quiet res. unfold after_reply.
    apply preserves_bind;
      [apply preserves_modify; intros; apply quiet_api_calls|intros _ _ _].
    apply preserves_bind;
      [apply preserves_modify; intros; apply quiet_rate_used|intros _ _ _].
    destruct (status_code res =? 403).
    - apply preserves_handle_rate_limit_error. intros u.
      now apply preserves_get.
    - apply preserves_pass_on. }
  assert (Hget : get args server (S fuel) url params s =
    bind (except_connection_error (requests_get server url params auth)
            signal_handler) after_reply (throttled args s)).
  { unfold throttled, exec, when, bind, time_sleep, modify.
    simpl. destruct (throttle args); reflexivity. }
  unfold exec. rewrite Hget. clear Hget.
  pose proof (throttled_globals s) as Hglob. revert Hglob.
  generalize (throttled args s). intros s0 Hglob.
  unfold bind at 1, except_connection_error, requests_get, signal_handler.
  pose (sent := set_trace (EvRequest url params auth :: trace s0)
                  (set_requests (S (requests s0)) s0)).
  destruct (server (requests s0) (prepare url params) auth) as [r| |];
    cbv beta iota;
    [exists (set_clock (clock sent + elapsed r)%Q sent)
    |exists sent|exists sent];
    (split; [reflexivity|]); (split; [exact Hglob|]); intros R quiet;
    [apply (Hafter R quiet)|apply quiet_refl..].
Qed.

(** A search sends one search query, for the sizes and in the order asked
    for. *)
Lemma search_sends_one (fuel : nat) (a b : Z) (order license : string)
  (s : State) :
  exists sent,
    search_queries (trace sent) =
      (query args a b license, order) :: search_queries (trace s) /\
    same_globals s sent /\
    forall (R : State -> State -> Prop), Quiet R ->
      R sent (exec (search args server (S fuel) a b order license) s).
Proof.
  unfold search.
  match goal with
  | |- context [get args server (S fuel) ?u ?p] =>
      destruct (get_first_request fuel u p s)
        as (sent & Htrace & Hglob & Hquiet)
  end.
  exists sent. split; [|split; assumption].
  rewrite Htrace. unfold search_queries; fold search_queries.
  rewrite throttled_queries. reflexivity.
Qed.

Lemma preserves_download_all_repos_free (R : State -> State -> Prop)
  {quiet : Quiet R} fuel res :
  estimate_free R -> preserves R (download_all_repos args server fuel res).
Proof.
  intros (Hpop & _). apply (preserves_download_all_repos args server (fun _ => True)).
  - intros i url a r _ n l _. exact I.
  - intros v s _. apply Hpop.
Qed.

(** Each pass sends its search query, and nothing else that a relation of
    the class would see. *)
Lemma ascending_pass_sends (fuel : nat) (s : State) :
  exists sent,
    search_queries (trace sent) =
      (query args (strat_first s) (strat_last s) "no", "asc") ::
      search_queries (trace s) /\
    same_globals s sent /\
    forall (R : State -> State -> Prop), Quiet R -> estimate_free R ->
      R sent (exec (ascending_pass args server (S fuel)) s).
Proof.
  destruct (search_sends_one fuel (strat_first s) (strat_last s) "asc" "no"
              (set_status_msg "Searching..." s))
    as (sent & Hq & Hglob & Hquiet).
  exists sent. split; [exact Hq|]. split; [exact Hglob|].
  intros R quiet Hfree.
  eapply quiet_trans; [apply (Hquiet R quiet)|].
  apply (bind_then_quiet
           (search args server (S fuel) (strat_first s) (strat_last s)
              "asc" "no")
           (fun res =>
              total_count <- json_total_count res ;;
              modify (set_pop_repo total_count) ;;
              download_all_repos args server (S fuel) res) R).
  intros res.
  apply preserves_bind; [apply preserves_json_total_count|intros v _ _].
  apply preserves_bind;
    [apply preserves_modify; intros; apply Hfree|intros _ _ _].
  now apply preserves_download_all_repos_free.
Qed.

Lemma descending_pass_sends (fuel : nat) (s : State) :
  exists sent,
    search_queries (trace sent) =
      (query args (strat_first s) (strat_last s) "no", "desc") ::
      search_queries (trace s) /\
    same_globals s sent /\
    forall (R : State -> State -> Prop), Quiet R -> estimate_free R ->
      R sent (exec (descending_pass args server (S fuel)) s).
Proof.
  destruct (search_sends_one fuel (strat_first s) (strat_last s) "desc" "no"
              (set_status_msg "Repeating search with reverse sort order..." s))
    as (sent & Hq & Hglob & Hquiet).
  exists sent. split; [exact Hq|]. split; [exact Hglob|].
  intros R quiet Hfree.
  eapply quiet_trans; [apply (Hquiet R quiet)|].
  apply (bind_then_quiet
           (search args server (S fuel) (strat_first s) (strat_last s)
              "desc" "no")
           (fun res =>
              pop2 <- json_total_count res ;;
              modify (fun s => set_pop_repo (Z.max (pop_repo s) pop2) s) ;;
              download_all_repos args server (S fuel) res) R).
  intros res.
  apply preserves_bind; [apply preserves_json_total_count|intros v _ _].
  apply preserves_bind;
    [apply preserves_modify; intros; apply Hfree|intros _ _ _].
  now apply preserves_download_all_repos_free.
Qed.

Lemma license_ascending_pass_sends (fuel : nat) (lic : string) (s : State) :
  exists sent,
    search_queries (trace sent) =
      (query args (strat_first s) (strat_last s) lic, "asc") ::
      search_queries (trace s) /\
    same_globals s sent /\
    forall (R : State -> State -> Prop), Quiet R -> estimate_free R ->
      R sent (exec (license_ascending_pass args server (S fuel) lic) s).
Proof.
  destruct (search_sends_one fuel (strat_first s) (strat_last s) "asc" lic
              (set_current_license lic
                 (set_status_msg
                    ("Searching for >>" ++ lic ++
                     "<< licensed repositories...") s)))
    as (sent & Hq & Hglob & Hquiet).
  exists sent. split; [exact Hq|]. split; [exact Hglob|].
  intros R quiet Hfree.
  eapply quiet_trans; [apply (Hquiet R quiet)|].
  apply (bind_then_quiet
           (search args server (S fuel) (strat_first s) (strat_last s)
              "asc" lic)
           (fun res =>
              modify (fun s => set_current_cumulative_pop (pop_repo s) s) ;;
              total_count <- json_total_count res ;;
              modify (fun s => set_pop_repo (pop_repo s + total_count) s) ;;
              download_all_repos args server (S fuel) res) R).
  intros res.
  apply preserves_bind;
    [apply preserves_modify; intros; apply Hfree|intros _ _ _].
  apply preserves_bind; [apply preserves_json_total_count|intros v _ _].
  apply preserves_bind;
    [apply preserves_modify; intros; apply Hfree|intros _ _ _].
  now apply preserves_download_all_repos_free.
Qed.

Lemma license_descending_pass_sends (fuel : nat) (lic : string) (s : State) :
  exists sent,
    search_queries (trace sent) =
      (query args (strat_first s) (strat_last s) lic, "desc") ::
      search_queries (trace s) /\
    same_globals s sent /\
    forall (R : State -> State -> Prop), Quiet R -> estimate_free R ->
      R sent (exec (license_descending_pass args server (S fuel) lic) s).
Proof.
  destruct (search_sends_one fuel (strat_first s) (strat_last s) "desc" lic
              (set_status_msg "Repeating search with reverse sort order..." s))
    as (sent & Hq & Hglob & Hquiet).
  exists sent. split; [exact Hq|]. split; [exact Hglob|].
  intros R quiet Hfree.
  eapply quiet_trans; [apply (Hquiet R quiet)|].
  apply (bind_then_quiet
           (search args server (S fuel) (strat_first s) (strat_last s)
              "desc" lic)
           (fun res =>
              total_count <- json_total_count res ;;
              modify (fun s =>
                let pop2 := total_count + current_cumulative_pop s in
                set_pop_repo (Z.max (pop_repo s) pop2) s) ;;
              download_all_repos args server (S fuel) res) R).
  intros res.
  apply preserves_bind; [apply preserves_json_total_count|intros v _ _].
  apply preserves_bind;
    [apply preserves_modify; intros; apply Hfree|intros _ _ _].
  now apply preserves_download_all_repos_free.
Qed.

Lemma same_searches_free : estimate_free same_searches.
Proof. repeat split. Qed.

Lemma same_stratum_free : estimate_free same_stratum.
Proof. repeat split. Qed.

(** What a pass adds to the search queries, and that it keeps the bounds
    of the stratum. *)
Lemma pass_queries (pass : M unit) (order license : string) (s : State) :
  (exists sent,
     search_queries (trace sent) =
       (query args (strat_first s) (strat_last s) license, order) ::
       search_queries (trace s) /\
     same_globals s sent /\
     forall (R : State -> State -> Prop), Quiet R -> estimate_free R ->
       R sent (exec pass s)) ->
  search_queries (trace (exec pass s)) =
    (query args (strat_first s) (strat_last s) license, order) ::
    search_queries (trace s) /\
  same_stratum s (exec pass s).
Proof.
  intros (sent & Hq & Hglob & Hquiet). split.
  - rewrite <- Hq. apply (Hquiet same_searches _ same_searches_free).
  - destruct (Hquiet same_stratum _ same_stratum_free) as [Hf Hl].
    destruct Hglob as (Hf' & Hl' & _). split; congruence.
Qed.

(** Without fuel no search returns. *)
Lemma search_needs_fuel a b order license s :
  result (search args server 0 a b order license) s = OutOfFuel.
Proof. reflexivity. Qed.

End SamplerFacts.

(** What a run of the two passes of a stratum adds to the queries. *)
Lemma two_passes_queries (args : Args) (server : Server)
  (asc_pass desc_pass : M unit) (license : string) (fuel : nat) (s : State) :
  (forall s0,
     search_queries (trace (exec asc_pass s0)) =
       (query args (strat_first s0) (strat_last s0) license, "asc") ::
       search_queries (trace s0) /\
     same_stratum s0 (exec asc_pass s0)) ->
  (forall s0,
     search_queries (trace (exec desc_pass s0)) =
       (query args (strat_first s0) (strat_last s0) license, "desc") ::
       search_queries (trace s0) /\
     same_stratum s0 (exec desc_pass s0)) ->
  let both := (asc_pass ;;
               pop <- gets pop_repo ;;
               if pop >? 1000 then desc_pass else ret tt) in
  result both s = Ret tt ->
  let s1 := exec asc_pass s in
  let s2 := exec both s in
  let asc := (query args (strat_first s) (strat_last s) license, "asc") in
  let desc := (query args (strat_first s) (strat_last s) license, "desc") in
  result asc_pass s = Ret tt /\
  (1000 < pop_repo s1 ->
   search_queries (trace s2) = desc :: asc :: search_queries (trace s)) /\
  (pop_repo s1 <= 1000 ->
   search_queries (trace s2) = [asc] ++ search_queries (trace s))%list.
Proof.
  intros Hasc Hdesc both Hret s1 s2 asc desc.
  unfold s2, both in *. rewrite result_bind in Hret. rewrite exec_bind.
  destruct (result asc_pass s) as [[]| | |] eqn:Hres; try discriminate.
  fold s1 in Hret |- *. split; [reflexivity|].
  rewrite exec_bind. unfold gets at 1 2. unfold result at 1, exec at 2. simpl.
  destruct (Hasc s) as [Hq1 [Hf Hl]]. fold s1 in Hq1, Hf, Hl.
  destruct (Z.gtb_spec (pop_repo s1) 1000) as [Hgt|Hle]; split;
    intros Hpop; try lia.
  - destruct (Hdesc s1) as [Hq2 _]. rewrite Hq2, Hq1, Hf, Hl. reflexivity.
  - exact Hq1.
Qed.

(** C5. Result-cap stretching: a stratum whose population estimate after
    the ascending pass exceeds 1000 is searched with exactly two queries,
    the ascending one and then the same in descending order; at 1000 or
    below only the ascending query is sent.  With the license filter the
    same holds for each license. *)
Theorem result_cap_stretching (args : Args) (server : Server) (fuel : nat)
  (s : State) (lic : string) :
  (result (sample_unlicensed args server fuel) s = Ret tt ->
   let s1 := exec (ascending_pass args server fuel) s in
   let s2 := exec (sample_unlicensed args server fuel) s in
   let asc := (query args (strat_first s) (strat_last s) "no", "asc") in
   let desc := (query args (strat_first s) (strat_last s) "no", "desc") in
   (1000 < pop_repo s1 ->
    search_queries (trace s2) = desc :: asc :: search_queries (trace s)) /\
   (pop_repo s1 <= 1000 ->
    search_queries (trace s2) = asc :: search_queries (trace s))) /\
  (result (sample_license args server fuel lic) s = Ret tt ->
   let s1 := exec (license_ascending_pass args server fuel lic) s in
   let s2 := exec (sample_license args server fuel lic) s in
   let asc := (query args (strat_first s) (strat_last s) lic, "asc") in
   let desc := (query args (strat_first s) (strat_last s) lic, "desc") in
   (1000 < pop_repo s1 ->
    search_queries (trace s2) = desc :: asc :: search_queries (trace s)) /\
   (pop_repo s1 <= 1000 ->
    search_queries (trace s2) = asc :: search_queries (trace s))).
Proof.
  split; intros Hret; (destruct fuel as [|fuel]; [discriminate|]).
  - apply (two_passes_queries args server
             (ascending_pass args server (S fuel))
             (descending_pass args server (S fuel)) "no" (S fuel) s);
      [| |exact Hret]; intros s0; apply pass_queries.
    + apply ascending_pass_sends.
    + apply descending_pass_sends.
  - apply (two_passes_queries args server
             (license_ascending_pass args server (S fuel) lic)
             (license_descending_pass args server (S fuel) lic) lic
             (S fuel) s);
      [| |exact Hret]; intros s0; apply pass_queries.
    + apply license_ascending_pass_sends.
    + apply license_descending_pass_sends.
Qed.

Lemma result_cap_stretching_witness :
  let s := initial_state one_stratum Store.empty None 0 in
  search_queries
    (trace (exec (sample_unlicensed one_stratum crowded_server 1) s)) =
  [ ("language:Solidity size:1..5 fork:false ", "desc");
    ("language:Solidity size:1..5 fork:false ", "asc") ].
Proof.
  intros s.
  assert (Hret : result (sample_unlicensed one_stratum crowded_server 1) s
                 = Ret tt) by (vm_compute; reflexivity).
  destruct (proj1 (result_cap_stretching one_stratum crowded_server 1 s "mit")
              Hret) as [Hbig _].
  apply Hbig. vm_compute. reflexivity.
Defined.

(* ===================================================================== *)
(** * Properties of the population estimate *)
(* ===================================================================== *)

#[export] Instance same_estimate_quiet : Quiet same_estimate.
Proof.
  constructor; unfold same_estimate; intros; simpl;
    try (split; reflexivity); intuition congruence.
Qed.

Section PopulationFacts.

Variable args : Args.
Variable server : Server.



Lemma exec_bind_ret {A B : Type} (c : M A) (k : A -> M B) s a s1 :
  c s = (Ret a, s1) -> exec (bind c k) s = exec (k a) s1.
Proof. intros H. unfold exec, bind. now rewrite H. Qed.








(** The state in which the ascending pass of a license sends its search. *)
Lemma license_search_state (lic : string) (s : State) :
  exec (update_status ("Searching for >>" ++ lic ++
                       "<< licensed repositories...") ;;
        modify (set_current_license lic)) s =
  set_current_license lic
    (set_status_msg ("Searching for >>" ++ lic ++
                     "<< licensed repositories...") s).
Proof. reflexivity. Qed.









End PopulationFacts.






(* ===================================================================== *)
(** * Properties of the crawl *)
(* ===================================================================== *)

Section CrawlFacts.

Variable args : Args.
Variable server : Server.

(** A repository whose tree cannot be fetched is inserted and left. *)
Lemma crawl_repo_without_tree (fuel : nat) (repo : Repo) (s : State) (e : exn) :
  let inserted := exec (insert_repo repo) s in
  result (known_repo repo) s = Ret false ->
  result (get args server fuel (tree_url repo) []) inserted = Raise e ->
  crawl_repo args server fuel repo s =
    (Ret false, exec (get args server fuel (tree_url repo) []) inserted).
Proof.
  intros inserted Hknown Hget.
  unfold crawl_repo, bind at 1.
  unfold known_repo, gets, result in Hknown |- *. simpl in Hknown.
  injection Hknown as ->. change (negb false) with true. cbv beta iota.
  unfold bind at 1.
  change (insert_repo repo s) with (Ret tt, inserted). cbv beta iota.
  unfold try_except.
  unfold result, exec in Hget |- *.
  destruct (get args server fuel (tree_url repo) [] inserted) as [o s'].
  simpl in Hget |- *. now rewrite Hget.
Qed.

(** A commit whose content cannot be fetched is left. *)
Lemma commits_loop_without_content (commit : Commit) (rest : list Commit)
  (full path_ : string) (file_id : Z) (s : State) (e : exn) :
  let url := raw_url full (commit_sha commit) path_ in
  result (known_commit commit file_id) s = Ret false ->
  result (get_content server url) s = Raise e ->
  commits_loop server (commit :: rest) full path_ file_id s =
    commits_loop server rest full path_ file_id
      (exec (get_content server url) s).
Proof.
  intros url Hknown Hget.
  unfold commits_loop; fold (commits_loop server).
  unfold bind at 1.
  unfold known_commit, gets, result in Hknown |- *. simpl in Hknown.
  injection Hknown as ->. change (negb false) with true. cbv beta iota.
  unfold bind at 1, try_except. fold url. unfold result, exec in Hget |- *.
  destruct (get_content server url s) as [o s'].
  simpl in Hget |- *. now rewrite Hget.
Qed.

(** A repository at whose tree request the connection is lost: the script
    exits in [get], and the crawl with it. *)
Lemma crawl_repo_exits (fuel : nat) (repo : Repo) (s : State) :
  let inserted := exec (insert_repo repo) s in
  result (known_repo repo) s = Ret false ->
  result (get args server fuel (tree_url repo) []) inserted = Exit ->
  crawl_repo args server fuel repo s =
    (Exit, exec (get args server fuel (tree_url repo) []) inserted).
Proof.
  intros inserted Hknown Hget.
  unfold crawl_repo, bind at 1.
  unfold known_repo, gets, result in Hknown |- *. simpl in Hknown.
  injection Hknown as ->. change (negb false) with true. cbv beta iota.
  unfold bind at 1.
  change (insert_repo repo s) with (Ret tt, inserted). cbv beta iota.
  unfold try_except.
  unfold result, exec in Hget |- *.
  destruct (get args server fuel (tree_url repo) [] inserted) as [o s'].
  simpl in Hget |- *. now rewrite Hget.
Qed.

(** A commit at whose content request the connection is lost. *)
Lemma commits_loop_exits (commit : Commit) (rest : list Commit)
  (full path_ : string) (file_id : Z) (s : State) :
  let url := raw_url full (commit_sha commit) path_ in
  result (known_commit commit file_id) s = Ret false ->
  result (get_content server url) s = Exit ->
  commits_loop server (commit :: rest) full path_ file_id s =
    (Exit, exec (get_content server url) s).
Proof.
  intros url Hknown Hget.
  unfold commits_loop; fold (commits_loop server).
  unfold bind at 1.
  unfold known_commit, gets, result in Hknown |- *. simpl in Hknown.
  injection Hknown as ->. change (negb false) with true. cbv beta iota.
  unfold bind at 1, try_except. fold url. unfold result, exec in Hget |- *.
  destruct (get_content server url s) as [o s'].
  simpl in Hget |- *. now rewrite Hget.
Qed.

Lemma get_content_no_connection (url : string) (s : State) :
  server (requests s) url false = NoConnection ->
  result (get_content server url) s = Exit.
Proof.
  intros Hreply.
  unfold result, get_content, bind, except_connection_error, requests_get,
    signal_handler.
  change (prepare url []) with url. now rewrite Hreply.
Qed.

End CrawlFacts.

(** C7 (as the code has it). Per-item failure.  When the request for the
    tree of a repository ends in an exception (an error status, a request
    that fails otherwise), the loop over the page goes on with the next
    repository in the state the failed request left, nothing else is done
    for that repository, and its row is still in the store when the page
    is done; when the request for the content of a commit ends in an
    exception, the loop over the commits goes on with the next commit of
    the same file.  A lost connection is not such a failure: [get] and
    [get_content] end the program on it, so the loop ends with the item
    and goes on to no other. *)
Theorem per_item_failure (args : Args) (server : Server) (fuel : nat)
  (repo : Repo) (rest : list Repo) (commit : Commit) (more : list Commit)
  (full path_ : string) (file_id : Z) (s : State) :
  (let inserted := exec (insert_repo repo) s in
   let fetch := get args server (S fuel) (tree_url repo) [] in
   let failed := exec fetch inserted in
   let page := repos_loop args server (S fuel) in
   result (known_repo repo) s = Ret false ->
   (forall e, result fetch inserted = Raise e ->
      page (repo :: rest) s = page rest failed /\
      rows_kept inserted (exec (page (repo :: rest)) s) /\
      exists row, In row (Store.repo (db (exec (page (repo :: rest)) s))) /\
                  Store.repo_id row = id repo) /\
   (server (requests s) (tree_url repo) (negb (no_token args))
      = NoConnection ->
    result fetch inserted = Exit /\
    page (repo :: rest) s = (Exit, failed))) /\
  (let url := raw_url full (commit_sha commit) path_ in
   let failed := exec (get_content server url) s in
   let page := fun items => commits_loop server items full path_ file_id in
   result (known_commit commit file_id) s = Ret false ->
   (forall e, result (get_content server url) s = Raise e ->
      page (commit :: more) s = page more failed) /\
   (server (requests s) url false = NoConnection ->
    result (get_content server url) s = Exit /\
    page (commit :: more) s = (Exit, failed))).
Proof.
  split.
  - intros inserted fetch failed page Hknown. split.
    + intros e Hget.
      assert (Hloop : page (repo :: rest) s = page rest failed).
      { unfold page, repos_loop; fold (repos_loop args server).
        unfold bind at 1.
        now rewrite (crawl_repo_without_tree args server (S fuel) repo s e
                       Hknown Hget). }
      assert (Hkept : rows_kept inserted (exec (page (repo :: rest)) s)).
      { unfold exec. rewrite Hloop.
        apply (quiet_trans inserted failed).
        - now apply (preserves_get args server (S fuel) (tree_url repo) []).
        - apply (preserves_repos_loop args server (S fuel) rest). }
      split; [exact Hloop|]. split; [exact Hkept|].
      pose proof (insert_repo_key
                    (Store.mkRepoRow (id repo) (name repo) (full_name repo)
                       (description repo) (url repo)
                       (if fork repo then 1 else 0) (owner_id repo)
                       (owner_login repo)) (db s)) as Hkey.
      apply existsb_exists in Hkey. destruct Hkey as (row & Hin & Hid).
      exists row. split; [|now apply Z.eqb_eq in Hid].
      apply Hkept. exact Hin.
    + intros Hlost.
      assert (Hget : result fetch inserted = Exit).
      { apply get_no_connection. exact Hlost. }
      split; [exact Hget|].
      unfold page, repos_loop; fold (repos_loop args server).
      unfold bind at 1.
      now rewrite (crawl_repo_exits args server (S fuel) repo s Hknown Hget).
  - intros url failed page Hknown. split.
    + intros e Hget.
      now apply (commits_loop_without_content server _ _ _ _ _ _ e).
    + intros Hlost.
      pose proof (get_content_no_connection server url s Hlost) as Hget.
      split; [exact Hget|].
      now apply commits_loop_exits.
Qed.

Lemma per_item_failure_witness :
  let s := initial_state one_stratum Store.empty None 0 in
  (repos_loop one_stratum failing_server 1 [some_repo; some_repo] s =
     repos_loop one_stratum failing_server 1 [some_repo]
       (exec (get one_stratum failing_server 1 (tree_url some_repo) [])
             (exec (insert_repo some_repo) s)) /\
   commits_loop failing_server [some_commit; some_commit] "o/n" "a.sol" 1 s =
     commits_loop failing_server [some_commit] "o/n" "a.sol" 1
       (exec (get_content failing_server (raw_url "o/n" "c1" "a.sol")) s)) /\
  (result (repos_loop one_stratum offline_server 1 [some_repo; some_repo]) s
     = Exit /\
   result (commits_loop offline_server [some_commit; some_commit]
             "o/n" "a.sol" 1) s = Exit).
Proof.
  intros s. split.
  - destruct (per_item_failure one_stratum failing_server 0 some_repo
                [some_repo] some_commit [some_commit] "o/n" "a.sol" 1 s)
      as [Htree Hcommit].
    split.
    + apply (proj1 (Htree eq_refl) (HTTPError 500)). reflexivity.
    + apply (proj1 (Hcommit eq_refl) (HTTPError 500)). reflexivity.
  - destruct (per_item_failure one_stratum offline_server 0 some_repo
                [some_repo] some_commit [some_commit] "o/n" "a.sol" 1 s)
      as [Htree Hcommit].
    split.
    + unfold result.
      now rewrite (proj2 (proj2 (Htree eq_refl) eq_refl)).
    + unfold result.
      now rewrite (proj2 (proj2 (Hcommit eq_refl) eq_refl)).
Defined.

(** C7 as the specification has it does not hold for every failure of a
    fetch.  When the connection is lost at the request for the tree of
    the first of two repositories, the program exits: the second
    repository is not looked at, and its row is not stored.  When the
    connection is lost at the request for the content of the first of
    two commits, the program exits as well, and the second commit is not
    asked for. *)
Lemma lost_connection_not_skipped :
  let s := initial_state one_stratum Store.empty None 0 in
  let page := repos_loop one_stratum offline_server 1
                [some_repo; numbered_repo 8] in
  let commits := commits_loop offline_server
                   [some_commit; mkCommit "c2" "second" "2020-01-02" ["c1"]]
                   "o/n" "a.sol" 1 in
  result (known_repo (numbered_repo 8)) s = Ret false /\
  result page s = Exit /\
  map Store.repo_id (Store.repo (db (exec page s))) = [7] /\
  requests (exec page s) = 1%nat /\
  result commits s = Exit /\
  requests (exec commits s) = 1%nat /\
  Store.comit (db (exec commits s)) = [].
Proof. vm_compute. repeat split. Qed.

(* ===================================================================== *)
(** * The early exit of the pagination *)
(* ===================================================================== *)

#[export] Instance trace_grows_quiet : Quiet trace_grows.
Proof.
  constructor; unfold trace_grows; try (intros; now exists []).
  - intros s1 s2 s3 [l Hl] [l' Hl']. exists (l' ++ l)%list.
    now rewrite Hl', Hl, app_assoc.
  - intros e s _. now exists [e].
Qed.

Section EarlyExit.

Variable args : Args.
Variable server : Server.

(** After the first page of a query [download_all_repos] asks for the next
    page whenever there is one, whatever the counters are: they are not
    compared before the loop over the [next] links is entered. *)
Lemma next_page_after_first (fuel : nat) (res : Response) (next : string)
  (s : State) :
  link_next res = Some next ->
  result (download_repos_from_page args server (S fuel) res) s = Ret tt ->
  let s1 := exec (download_repos_from_page args server (S fuel) res) s in
  let final := exec (download_all_repos args server (S fuel) res) s in
  exists l,
    trace final =
      (l ++ EvRequest next [] (negb (no_token args)) ::
       trace (throttled args
                (set_status_msg "Getting next page of search results..." s1)))%list.
Proof.
  intros Hnext Hret s1 final.
  set (s2 := set_status_msg "Getting next page of search results..." s1).
  destruct (get_first_request args server fuel next [] s2)
    as (sent & Htrace & _ & Hquiet).
  rewrite <- Htrace. change (trace_grows sent final).
  assert (Hpage : download_repos_from_page args server (S fuel) res s =
                  (Ret tt, s1)).
  { unfold result, s1, exec in *.
    destruct (download_repos_from_page args server (S fuel) res s).
    simpl in *. now rewrite Hret. }
  assert (Hfree : forall v s0, True ->
            trace_grows s0
              (set_pop_repo
                 (Z.max (pop_repo s0) (v + current_cumulative_pop s0)) s0)).
  { intros v s0 _. now exists []. }
  assert (Hall : server_reports server (fun _ => True)).
  { intros i url a r _ n l _. exact I. }
  unfold final, download_all_repos.
  rewrite (exec_bind_ret _ _ _ _ _ Hpage).
  eapply quiet_trans;
    [|apply (bind_then_quiet
               (repo_pages args server (S fuel) (S fuel) res) _ trace_grows);
      intros _;
      apply preserves_bind; [apply preserves_update_status|intros _ _ _];
      apply preserves_ret].
  simpl repo_pages. rewrite Hnext.
  rewrite (exec_bind_ret
             (update_status "Getting next page of search results...")
             _ s1 (status_msg s1) s2 eq_refl).
  eapply quiet_trans; [apply (Hquiet trace_grows _)|].
  apply (bind_then_quiet (get args server (S fuel) next []) _ trace_grows).
  intros res'.
  apply preserves_bind; [apply preserves_json_total_count|intros v _ _].
  apply preserves_bind;
    [apply preserves_modify; intros s0; now apply Hfree|intros _ _ _].
  apply preserves_bind;
    [apply preserves_download_repos_from_page|intros _ _ _].
  apply preserves_bind; [apply preserves_gets|intros sam _ _].
  apply preserves_bind; [apply preserves_gets|intros pop _ _].
  destruct (sam >=? pop); [apply preserves_ret|].
  now apply (preserves_repo_pages args server (fun _ => True)).
Qed.

End EarlyExit.

(** C8 fails on the code.  In a stratum of 1001 repositories the ascending
    query samples 1000; the first repository of the descending query is
    the last one missing, and [download_repos_from_page] returns there with
    [sam_repo = pop_repo = 1001].  The next request, number 1012, is for
    the second page of the descending query all the same: the run ends
    normally after 1013 requests with that request as its last, and when
    the connection is lost at that very request the script exits with the
    counters at 1001 already. *)
Theorem page_fetched_after_estimate_met :
  let s := initial_state one_stratum Store.empty None 0 in
  let last_page := reply 200 None (SearchResults 1001 [numbered_repo 999]) in
  let run := sample_stratum one_stratum (just_above_cap last_page) 12 in
  let cut := sample_stratum one_stratum (just_above_cap NoConnection) 12 in
  (result run s = Ret tt /\
   statistics (exec run s) = Some [[1; 5; 1001; 1001; 0; 0]] /\
   requests (exec run s) = 1013%nat /\
   hd (EvSleep 0) (trace (exec run s)) = EvRequest page_two [] true) /\
  (result cut s = Exit /\
   sam_repo (exec cut s) = 1001 /\ pop_repo (exec cut s) = 1001 /\
   requests (exec cut s) = 1013%nat /\
   hd (EvSleep 0) (trace (exec cut s)) = EvRequest page_two [] true).
Proof. vm_compute. repeat split. Qed.

(* ===================================================================== *)
(** * The main loop visits the planned strata *)
(* ===================================================================== *)

#[export] Instance same_plan_quiet : Quiet same_plan.
Proof.
  constructor; unfold same_plan; intros; simpl;
    try (repeat split; reflexivity); intuition congruence.
Qed.

Section MainLoopFacts.

Variable args : Args.
Variable server : Server.

Lemma same_plan_free : estimate_free same_plan.
Proof. repeat split. Qed.

(** A pass keeps the bounds and the statistics file. *)
Lemma pass_plan (pass : M unit) (s : State) :
  (exists sent,
     same_globals s sent /\
     forall (R : State -> State -> Prop), Quiet R -> estimate_free R ->
       R sent (exec pass s)) ->
  same_plan s (exec pass s).
Proof.
  intros (sent & Hglob & Hquiet).
  destruct (Hquiet same_plan _ same_plan_free) as (Hf & Hl & Hst).
  destruct Hglob as (Hf' & Hl' & _ & _ & _ & _ & Hst').
  repeat split; congruence.
Qed.

Lemma preserves_sample_unlicensed (fuel : nat) :
  preserves same_plan (sample_unlicensed args server (S fuel)).
Proof.
  unfold sample_unlicensed.
  apply preserves_bind.
  { intros s. apply pass_plan.
    destruct (ascending_pass_sends args server fuel s) as (sent & _ & H).
    now exists sent. }
  intros _ _ _. apply preserves_bind; [apply preserves_gets|intros pop _ _].
  destruct (pop >? 1000); [|apply preserves_ret].
  intros s. apply pass_plan.
  destruct (descending_pass_sends args server fuel s) as (sent & _ & H).
  now exists sent.
Qed.

Lemma preserves_sample_licenses (fuel : nat) (lics : list string) :
  preserves same_plan (sample_licenses args server (S fuel) lics).
Proof.
  induction lics as [|lic rest IH]; simpl; [apply preserves_ret|].
  apply preserves_bind; [|intros _ _ _; exact IH].
  unfold sample_license.
  apply preserves_bind.
  { intros s. apply pass_plan.
    destruct (license_ascending_pass_sends args server fuel lic s)
      as (sent & _ & H).
    now exists sent. }
  intros _ _ _. apply preserves_bind; [apply preserves_gets|intros pop _ _].
  destruct (pop >? 1000); [|apply preserves_ret].
  intros s. apply pass_plan.
  destruct (license_descending_pass_sends args server fuel lic s)
    as (sent & _ & H).
  now exists sent.
Qed.

(** A turn of the main loop that ends appends one row with the bounds it
    started with, and steps to the next stratum. *)
Lemma sample_stratum_row (fuel : nat) (s : State) (rows : list (list Z)) :
  statistics s = Some rows ->
  result (sample_stratum args server fuel) s = Ret tt ->
  let s' := exec (sample_stratum args server fuel) s in
  (exists row, statistics s' = Some (rows ++ [row])%list /\
               row_bounds row = (strat_first s, strat_last s)) /\
  (strat_first s', strat_last s') =
    strat_advance args (strat_first s, strat_last s).
Proof.
  intros Hstats Hret s'.
  set (sampling := if negb (licensed args)
                   then sample_unlicensed args server fuel
                   else sample_licenses args server fuel licenses).
  assert (Hrun : sample_stratum args server fuel s =
            (sampling ;;
             row <- gets (fun s => [strat_first s; strat_last s; pop_repo s;
                                    sam_repo s; sam_file s; sam_comit s]) ;;
             writerow row ;;
             next_stratum args) (stratum_start s)) by reflexivity.
  assert (Hplan : result sampling (stratum_start s) = Ret tt ->
                  same_plan (stratum_start s)
                            (exec sampling (stratum_start s))).
  { unfold sampling. destruct fuel as [|fuel].
    - destruct (negb (licensed args)); discriminate.
    - intros _. destruct (negb (licensed args));
        [apply preserves_sample_unlicensed|apply preserves_sample_licenses]. }
  assert (Hsam : exists s2, sampling (stratum_start s) = (Ret tt, s2)).
  { unfold result in Hret. rewrite Hrun in Hret. unfold bind at 1 in Hret.
    destruct (sampling (stratum_start s)) as [[[]| | |] s2];
      try discriminate. now exists s2. }
  destruct Hsam as [s2 Hsam].
  assert (Hs2 : same_plan (stratum_start s) s2).
  { unfold result, exec in Hplan. rewrite Hsam in Hplan. now apply Hplan. }
  destruct Hs2 as (Hf & Hl & Hst). simpl in Hf, Hl, Hst.
  assert (Hfinal : sample_stratum args server fuel s =
            (row <- gets (fun s => [strat_first s; strat_last s; pop_repo s;
                                    sam_repo s; sam_file s; sam_comit s]) ;;
             writerow row ;;
             next_stratum args) s2).
  { rewrite Hrun. unfold bind at 1. now rewrite Hsam. }
  unfold s', exec. rewrite Hfinal.
  simpl. rewrite Hst, Hstats, Hf, Hl. split; [|reflexivity].
  eexists. split; reflexivity.
Qed.

(** The main loop, when it ends, has appended the rows of the strata that
    [strata_from] lists, in that order. *)
Lemma main_loop_strata (fuel n : nat) : forall (s : State) rows,
  statistics s = Some rows ->
  result (main_loop args server fuel n) s = Ret tt ->
  exists new_rows,
    statistics (exec (main_loop args server fuel n) s) =
      Some (rows ++ new_rows)%list /\
    strata_from n args (strat_first s, strat_last s) =
      Some (map row_bounds new_rows).
Proof.
  induction n as [|n IH]; intros s rows Hstats Hret.
  - unfold main_loop, result, exec, bind, gets in *. simpl in *.
    destruct (strat_first s <=? max_size args); [discriminate|].
    exists []. now rewrite app_nil_r.
  - assert (Hrun : main_loop args server fuel (S n) s =
              (if strat_first s <=? max_size args
               then (sample_stratum args server fuel ;;
                     main_loop args server fuel n)
               else ret tt) s) by reflexivity.
    unfold result, exec in *. rewrite Hrun in Hret |- *. simpl strata_from.
    destruct (strat_first s <=? max_size args).
    + unfold bind at 1 in Hret. unfold bind at 1.
      pose proof (sample_stratum_row fuel s rows Hstats) as Hrow.
      unfold result, exec in Hrow.
      destruct (sample_stratum args server fuel s) as [[[]| | |] s1];
        try discriminate.
      destruct (Hrow eq_refl) as ((row & Hst1 & Hb) & Hadv).
      simpl in Hst1, Hadv.
      destruct (IH s1 _ Hst1 Hret) as (new_rows & Hst2 & Hstrata).
      exists (row :: new_rows). split.
      * rewrite Hst2, <- app_assoc. reflexivity.
      * rewrite <- Hadv, Hstrata. simpl. now rewrite Hb.
    + exists []. now rewrite app_nil_r.
Qed.

(** A fresh run that ends has written one row for each stratum of the
    plan, in order. *)
Lemma fresh_run_strata (fuel : nat) (d : Store.database) (now : Q) :
  let s := initial_state args d None now in
  result (main args server fuel) s = Ret tt ->
  exists rows,
    statistics (exec (main args server fuel) s) = Some rows /\
    strata fuel args = Some (map row_bounds rows).
Proof.
  intros s Hret.
  set (s0 := exec (startup args) s).
  assert (Hrun : main args server fuel s =
            (main_loop args server fuel fuel ;;
             update_status "Done." ;; ret tt) s0) by reflexivity.
  assert (Hloop : exists s1,
            main_loop args server fuel fuel s0 = (Ret tt, s1)).
  { unfold result in Hret. rewrite Hrun in Hret. unfold bind at 1 in Hret.
    destruct (main_loop args server fuel fuel s0) as [[[]| | |] s1];
      try discriminate. now exists s1. }
  destruct Hloop as [s1 Hloop].
  destruct (main_loop_strata fuel fuel s0 [] eq_refl) as (rows & Hst & Hstrata).
  { unfold result. now rewrite Hloop. }
  unfold exec in Hst. rewrite Hloop in Hst. simpl in Hst.
  exists rows. split; [|exact Hstrata].
  unfold exec. rewrite Hrun. unfold bind at 1. rewrite Hloop. exact Hst.
Qed.

End MainLoopFacts.

(** The checks on the command line turn away equal bounds (line 61 tests
    [>=]), so a run always has [min_size < max_size]; and without a token
    the script goes on only when it is told to. *)
Example equal_bounds_rejected :
  args_accepted (mkArgs 5 5 5 true false false None) (Some "y") = false /\
  args_accepted (mkArgs 5 6 5 true false false None) (Some "y") = true /\
  args_accepted (mkArgs 5 6 5 true false false None) (Some "") = false /\
  args_accepted (mkArgs 5 6 5 true false false (Some "t")) None = true.
Proof. repeat split; reflexivity. Qed.

(* ===================================================================== *)
(** * The strata partition the size range *)
(* ===================================================================== *)

Lemma strata_from_cover (args : Args) (fuel : nat) :
  1 <= stratum_size args ->
  forall b l,
  planned args b -> strata_from fuel args b = Some l ->
  (forall x, fst b <= x <= max_size args ->
     exists c, In c l /\ fst c <= x <= snd c) /\
  (forall c, In c l ->
     fst b <= fst c <= snd c /\ snd c <= max_size args /\
     snd c - fst c + 1 <= stratum_size args).
Proof.
  intros Hw. induction fuel as [|fuel IH]; intros b l Hb Hrun; simpl in Hrun;
    destruct (Z.leb_spec (fst b) (max_size args)) as [Hle|Hgt];
    try discriminate.
  - injection Hrun as <-. split; [intros x Hx; lia|intros c []].
  - destruct (strata_from fuel args (strat_advance args b)) as [rest|] eqn:E;
      [|discriminate].
    injection Hrun as <-.
    destruct (IH _ _ (planned_advance args Hw b Hb) E) as [Hcover Hin].
    unfold planned in Hb. split.
    + intros x Hx. destruct (Z_le_gt_dec x (snd b)) as [Hxb|Hxb].
      * exists b. split; [now left|lia].
      * destruct (Hcover x) as (c & Hc & Hxc); [simpl; lia|].
        exists c. split; [now right|exact Hxc].
    + intros c [<-|Hc]; [lia|].
      destruct (Hin c Hc) as (H1 & H2 & H3). simpl in H1. lia.
  - injection Hrun as <-. split; [intros x Hx; lia|intros c []].
Qed.

(** X1. The strata of a run partition the requested sizes: when the walk
    over the strata ends, every size from [min_size] to [max_size] lies in
    one of the strata visited, and every stratum visited is a non-empty
    range inside [min_size .. max_size] that holds [stratum_size] sizes at
    most. *)
Theorem strata_partition (args : Args) (fuel : nat) (l : list bounds) :
  1 <= stratum_size args ->
  strata fuel args = Some l ->
  (forall x, min_size args <= x <= max_size args ->
     exists b, In b l /\ fst b <= x <= snd b) /\
  (forall b, In b l ->
     min_size args <= fst b <= snd b /\ snd b <= max_size args /\
     snd b - fst b + 1 <= stratum_size args).
Proof.
  intros Hw Hrun.
  exact (strata_from_cover args fuel Hw (strat_init args) l
           (planned_init args) Hrun).
Qed.

Lemma strata_partition_witness :
  let args := mkArgs 1 7 5 true false false None in
  (forall x, 1 <= x <= 7 ->
     exists b, In b [(1, 5); (6, 7)] /\ fst b <= x <= snd b) /\
  (forall b, In b [(1, 5); (6, 7)] ->
     1 <= fst b <= snd b /\ snd b <= 7 /\ snd b - fst b + 1 <= 5).
Proof.
  intros args.
  apply (strata_partition args 7 [(1, 5); (6, 7)]); [simpl; lia|reflexivity].
Defined.

(* ===================================================================== *)
(** * Which tree entries are taken, and under which name *)
(* ===================================================================== *)

Section PatternFacts.

(** [re.search] finds a match exactly when the pattern matches at some
    position of the text. *)
Lemma search_some (re : list Re.atom) (t : list N) :
  Re.search_from re t <> None <->
  exists pre rest, t = (pre ++ rest)%list /\ Re.match_at re rest <> None.
Proof.
  split.
  - intros H. destruct (Re.search_from re t) as [m|] eqn:E; [|congruence].
    destruct (search_leftmost _ _ _ E) as (pre & rest & -> & Hm & _).
    exists pre, rest. split; [reflexivity|congruence].
  - intros (pre & rest & -> & Hm).
    induction pre as [|c pre IH].
    + simpl. destruct rest; simpl; destruct (Re.match_at re _);
        congruence.
    + change ((c :: pre) ++ rest)%list with (c :: (pre ++ rest))%list.
      rewrite search_cons.
      destruct (Re.match_at re (c :: (pre ++ rest))%list); [discriminate|].
      exact IH.
Qed.

(** No match inside [pre]: the pattern matches at none of its positions. *)
Lemma matches_inside_none (re : list Re.atom) (pre rest : list N) :
  Re.matches_inside re pre rest = false ->
  forall x y, pre = (x ++ y)%list -> y <> [] ->
  Re.match_at re (y ++ rest)%list = None.
Proof.
  induction pre as [|c pre IH]; intros H x y Hsplit Hy.
  - destruct x, y; try discriminate. congruence.
  - simpl in H.
    destruct (Re.match_at re (c :: (pre ++ rest))%list) eqn:E;
      [discriminate|].
    destruct x as [|d x].
    + simpl in Hsplit. subst y. exact E.
    + injection Hsplit as -> Hpre. exact (IH H x y Hpre Hy).
Qed.

(** [\w\.sol$] at a position: a word character, [.sol], and then the end
    of the text or one last newline. *)
Lemma sol_re_match (t : list N) :
  Re.match_at Re.sol_re t <> None <->
  exists c tail, t = c :: (Re.codepoints ".sol" ++ tail)%list /\
                 Re.is_word c = true /\ (tail = [] \/ tail = [10%N]).
Proof.
  unfold Re.match_at, Re.sol_re. split.
  - intros H. simpl in H. unfold Re.one, Re.is_char in H.
    destruct t as [|c t]; [congruence|].
    destruct (Re.is_word c) eqn:Hc; [|congruence].
    destruct t as [|c1 t]; [congruence|].
    destruct (N.eqb_spec (Re.byte ".") c1) as [<-|]; [|congruence].
    destruct t as [|c2 t]; [congruence|].
    destruct (N.eqb_spec (Re.byte "s") c2) as [<-|]; [|congruence].
    destruct t as [|c3 t]; [congruence|].
    destruct (N.eqb_spec (Re.byte "o") c3) as [<-|]; [|congruence].
    destruct t as [|c4 t]; [congruence|].
    destruct (N.eqb_spec (Re.byte "l") c4) as [<-|]; [|congruence].
    unfold Re.at_end in H.
    destruct t as [|c5 [|c6 t]].
    + exists c, []. auto.
    + unfold Re.is_char in H.
      destruct (N.eqb_spec (Re.byte Re.newline) c5) as [<-|]; [|congruence].
      exists c, [10%N]. auto.
    + congruence.
  - intros (c & tail & -> & Hc & [-> | ->]); simpl; rewrite Hc; discriminate.
Qed.

(** What [[\w-]+?(?=\.)] matches at a position: a non-empty run of word
    characters and hyphens that a dot follows. *)
Lemma plus_lazy_ahead (p : N -> bool) (a : ascii) : forall t m r,
  Re.plus_lazy p (Re.ahead (Re.is_char a) (fun _ m => Some m)) t m = Some r ->
  exists n rest,
    t = (n ++ Re.byte a :: rest)%list /\ n <> [] /\
    forallb p n = true /\
    Re.whole r = (rev n ++ Re.whole m)%list.
Proof.
  induction t as [|c t IH]; intros m r H; simpl in H; [discriminate|].
  destruct (p c) eqn:Hc; [|discriminate].
  destruct (Re.ahead (Re.is_char a) (fun _ m => Some m) t (Re.eat c m))
    as [r'|] eqn:E; simpl in H.
  - injection H as <-. unfold Re.ahead in E.
    destruct t as [|d t]; [discriminate|]. unfold Re.is_char in E.
    destruct (N.eqb_spec (Re.byte a) d) as [<-|]; [|discriminate].
    injection E as <-.
    exists [c], t. simpl. rewrite Hc. repeat split. discriminate.
  - destruct (IH _ _ H) as (n & rest & -> & Hn & Hall & Hw).
    exists (c :: n), rest. simpl. rewrite Hc, Hall.
    repeat split; [discriminate|].
    rewrite Hw. simpl. now rewrite <- app_assoc.
Qed.

Lemma name_re_match (t : list N) (m : Re.caps) :
  Re.match_at Re.name_re t = Some m ->
  exists rest,
    t = (rev (Re.whole m) ++ 46%N :: rest)%list /\ Re.whole m <> [] /\
    forallb (fun c => Re.is_word c || Re.is_char "-" c) (rev (Re.whole m))
      = true.
Proof.
  intros H. unfold Re.match_at, Re.name_re in H. simpl in H.
  destruct (plus_lazy_ahead _ _ _ _ _ H) as (n & rest & -> & Hn & Hall & Hw).
  simpl in Hw. rewrite app_nil_r in Hw. rewrite Hw, rev_involutive.
  exists rest. repeat split; [|exact Hall].
  intros Hrev. apply Hn. apply (f_equal (@rev N)) in Hrev.
  now rewrite rev_involutive in Hrev.
Qed.

(** A run of word characters and hyphens that a dot follows is a match of
    [[\w-]+?(?=\.)] where it starts. *)
Lemma name_re_at_run (n rest : list N) :
  n <> [] ->
  forallb (fun c => Re.is_word c || Re.is_char "-" c) n = true ->
  Re.match_at Re.name_re (n ++ 46%N :: rest)%list <> None.
Proof.
  unfold Re.match_at, Re.name_re. simpl.
  generalize Re.no_caps.
  induction n as [|c n IH]; intros m Hn Hall; [congruence|].
  simpl in Hall. apply andb_true_iff in Hall. destruct Hall as [Hc Hall].
  simpl. rewrite Hc.
  destruct n as [|d n].
  - simpl. discriminate.
  - destruct (Re.ahead (Re.is_char ".") (fun _ m0 => Some m0)
                ((d :: n) ++ 46%N :: rest)%list (Re.eat c m));
      [discriminate|].
    simpl. apply IH; [discriminate|exact Hall].
Qed.

(** Where two splits of a list differ, the later one cuts the first part
    of the other. *)
Lemma split_later {A : Type} (x : list A) : forall before r1 r2 : list A,
  (before ++ r1 = x ++ r2)%list ->
  (List.length x < List.length before)%nat ->
  exists z, before = (x ++ z)%list /\ z <> [] /\ r2 = (z ++ r1)%list.
Proof.
  induction x as [|a x IH]; intros before r1 r2 H Hlen; simpl in *.
  - exists before. split; [reflexivity|]. split; [|now symmetry].
    destruct before; [simpl in Hlen; lia|discriminate].
  - destruct before as [|b before]; [simpl in Hlen; lia|].
    simpl in H. injection H as -> H.
    destruct (IH before r1 r2 H ltac:(simpl in Hlen; lia))
      as (z & -> & Hz & ->).
    now exists z.
Qed.

End PatternFacts.

(** X2. The tree entries that [download_repos_from_page] takes: an entry is
    processed exactly when its type is [blob] and its path ends in a word
    character followed by [.sol], where one newline may still follow.  A
    word character is one of Python's [\w]: a letter or a digit of any
    script, or the underscore.  So a path such as [.sol] or [x/.sol], with
    no word character before the dot, is skipped. *)
Theorem solidity_blob_paths (file : TreeEntry) :
  is_solidity_blob file = true <->
  entry_type file = "blob" /\
  exists pre c tail,
    Re.codepoints (path file) =
      (pre ++ c :: Re.codepoints ".sol" ++ tail)%list /\
    Re.is_word c = true /\ (tail = [] \/ tail = [10%N]).
Proof.
  unfold is_solidity_blob, Re.search. rewrite andb_true_iff, String.eqb_eq.
  assert (Hs : (match Re.search_from Re.sol_re (Re.codepoints (path file))
                with Some _ => true | None => false end) = true <->
               Re.search_from Re.sol_re (Re.codepoints (path file)) <> None).
  { destruct (Re.search_from Re.sol_re _); split; congruence. }
  rewrite Hs, search_some.
  split; intros [Hty Hp]; (split; [exact Hty|]).
  - destruct Hp as (pre & rest & Hpath & Hm).
    apply sol_re_match in Hm. destruct Hm as (c & tail & -> & Hc & Htail).
    now exists pre, c, tail.
  - destruct Hp as (pre & c & tail & Hpath & Hc & Htail).
    exists pre, (c :: Re.codepoints ".sol" ++ tail)%list.
    split; [exact Hpath|].
    apply sol_re_match. now exists c, tail.
Qed.

(** The path of an entry that is taken has a word character before its
    [.sol]. *)
Lemma taken_path (file : TreeEntry) :
  is_solidity_blob file = true ->
  exists pre c tail,
    Re.codepoints (path file) =
      (pre ++ c :: Re.codepoints ".sol" ++ tail)%list /\
    Re.is_word c = true.
Proof.
  unfold is_solidity_blob, Re.search. rewrite andb_true_iff. intros [_ Hp].
  destruct (Re.search_from Re.sol_re (Re.codepoints (path file)))
    as [m|] eqn:E; [|discriminate].
  destruct (search_leftmost _ _ _ E) as (pre & rest & Hpath & Hm & _).
  assert (Hsome : Re.match_at Re.sol_re rest <> None) by congruence.
  apply sol_re_match in Hsome. destruct Hsome as (c & tail & -> & Hc & _).
  now exists pre, c, tail.
Qed.

(** X3. The name under which a Solidity file is stored: for an entry that
    is taken, the pattern for the name always matches, so the path itself
    is never used.  The name is the first run of word characters and
    hyphens of the path that a dot follows: it is not empty, a dot follows
    it, and every such run of the path starts where the name starts or
    later.  (The directory of [v1.2/Token.sol] gives the name [v1].) *)
Theorem solidity_blob_name (file : TreeEntry) :
  is_solidity_blob file = true ->
  let nm := entry_name (with_name file) in
  let in_name (c : N) := Re.is_word c || Re.is_char "-" c in
  exists before run after,
    Re.codepoints (path file) = (before ++ run ++ 46%N :: after)%list /\
    nm = Re.utf8 run /\ nm <> "" /\ forallb in_name run = true /\
    path file = Re.utf8 before ++ nm ++ String "." (Re.utf8 after) /\
    forall x n y,
      Re.codepoints (path file) = (x ++ n ++ 46%N :: y)%list ->
      n <> [] -> forallb in_name n = true ->
      (List.length before <= List.length x)%nat.
Proof.
  intros H nm in_name.
  destruct (taken_path file H) as (pre & c & tail & Hpath & Hc).
  assert (Hfound : Re.search_from Re.name_re (Re.codepoints (path file))
                   <> None).
  { apply search_some. exists pre, (c :: Re.codepoints ".sol" ++ tail)%list.
    split; [exact Hpath|].
    apply (name_re_at_run [c] (tl (Re.codepoints ".sol") ++ tail));
      [discriminate|].
    simpl. now rewrite Hc. }
  unfold nm, with_name, Re.search. simpl.
  destruct (Re.search_from Re.name_re (Re.codepoints (path file)))
    as [m|] eqn:E; [|congruence].
  destruct (search_leftmost _ _ _ E) as (before & rest & Hsplit & Hm & Hno).
  destruct (name_re_match _ _ Hm) as (after & -> & Hne & Hall).
  exists before, (rev (Re.whole m)), after.
  assert (Hrun : rev (Re.whole m) <> []).
  { intros Hrev. apply Hne. apply (f_equal (@rev N)) in Hrev.
    now rewrite rev_involutive in Hrev. }
  split; [exact Hsplit|]. split; [reflexivity|].
  split; [now apply utf8_not_empty|]. split; [exact Hall|]. split.
  - rewrite <- (utf8_codepoints (path file)) at 1.
    rewrite Hsplit, !utf8_app. reflexivity.
  - intros x n y Hx Hn Hin.
    destruct (Nat.le_gt_cases (List.length before) (List.length x))
      as [Hle|Hlt]; [exact Hle|exfalso].
    rewrite Hsplit in Hx.
    destruct (split_later x before _ _ Hx Hlt) as (z & -> & Hz & Hrest).
    pose proof (matches_inside_none _ _ _ Hno x z eq_refl Hz) as Hnone.
    rewrite <- Hrest in Hnone.
    exact (name_re_at_run n y Hn Hin Hnone).
Qed.

Lemma solidity_blob_name_witness :
  let file := mkEntry "blob" "v1.2/Token.sol" "s" "" in
  let nm := entry_name (with_name file) in
  nm = "v1" /\
  exists before run after,
    Re.codepoints (path file) = (before ++ run ++ 46%N :: after)%list /\
    nm = Re.utf8 run /\ nm <> "".
Proof.
  intros file nm. split; [reflexivity|].
  destruct (solidity_blob_name file eq_refl)
    as (before & run & after & Hsplit & Hnm & Hne & _).
  now exists before, run, after.
Defined.

(* ===================================================================== *)
(** * The shape of an extracted compiler version *)
(* ===================================================================== *)

Section GroupFacts.

Lemma run_app (re re' : list Re.atom) (k : Re.cont) :
  Re.run (re ++ re') k = Re.run re (Re.run re' k).
Proof.
  induction re as [|a re IH]; [reflexivity|].
  simpl. rewrite IH. reflexivity.
Qed.

(** A match goes on in a suffix of the text. *)
Lemma star_consumes (p : N -> bool) (k : Re.cont) : forall t m r,
  Re.star p k t m = Some r ->
  exists pre t' m', t = (pre ++ t')%list /\ k t' m' = Some r.
Proof.
  induction t as [|c t IH]; intros m r H; simpl in H.
  - now exists [], [], m.
  - destruct (p c).
    + destruct (Re.star p k t (Re.eat c m)) as [r'|] eqn:E; simpl in H.
      * injection H as <-.
        destruct (IH _ _ E) as (pre & t' & m' & -> & Hk).
        now exists (c :: pre), t', m'.
      * now exists [], (c :: t), m.
    + now exists [], (c :: t), m.
Qed.

Lemma plus_lazy_consumes (p : N -> bool) (k : Re.cont) : forall t m r,
  Re.plus_lazy p k t m = Some r ->
  exists pre t' m', t = (pre ++ t')%list /\ k t' m' = Some r.
Proof.
  induction t as [|c t IH]; intros m r H; simpl in H; [discriminate|].
  destruct (p c); [|discriminate].
  destruct (k t (Re.eat c m)) as [r'|] eqn:E; simpl in H.
  - injection H as <-. now exists [c], t, (Re.eat c m).
  - destruct (IH _ _ H) as (pre & t' & m' & -> & Hk).
    now exists (c :: pre), t', m'.
Qed.

Lemma one_consumes (p : N -> bool) (k : Re.cont) t m r :
  Re.one p k t m = Some r ->
  exists pre t' m', t = (pre ++ t')%list /\ k t' m' = Some r.
Proof.
  unfold Re.one. destruct t as [|c t]; [discriminate|].
  destruct (p c); [|discriminate]. intros H.
  now exists [c], t, (Re.eat c m).
Qed.

Lemma run_consumes (re : list Re.atom) (k : Re.cont) : forall t m r,
  Re.run re k t m = Some r ->
  exists pre t' m', t = (pre ++ t')%list /\ k t' m' = Some r.
Proof.
  induction re as [|a re IH]; intros t m r H.
  - now exists [], t, m.
  - assert (Hnext : forall t1 m1, Re.run re k t1 m1 = Some r ->
              forall pre1, t = (pre1 ++ t1)%list ->
              exists pre t' m', t = (pre ++ t')%list /\ k t' m' = Some r).
    { intros t1 m1 H1 pre1 ->.
      destruct (IH _ _ _ H1) as (pre & t' & m' & -> & Hk).
      exists (pre1 ++ pre)%list, t', m'. split; [|exact Hk].
      now rewrite app_assoc. }
    destruct a; simpl in H.
    + destruct (one_consumes _ _ _ _ _ H) as (pre & t' & m' & -> & Hk).
      exact (Hnext _ _ Hk pre eq_refl).
    + destruct (Re.one p (Re.run re k) t m) as [r'|] eqn:E; simpl in H.
      * injection H as <-.
        destruct (one_consumes _ _ _ _ _ E) as (pre & t' & m' & -> & Hk).
        exact (Hnext _ _ Hk pre eq_refl).
      * exact (Hnext _ _ H [] eq_refl).
    + destruct (star_consumes _ _ _ _ _ H) as (pre & t' & m' & -> & Hk).
      exact (Hnext _ _ Hk pre eq_refl).
    + destruct (one_consumes _ _ _ _ _ H) as (pre & t' & m' & -> & Hk).
      destruct (star_consumes _ _ _ _ _ Hk) as (pre2 & t2 & m2 & -> & Hk2).
      apply (Hnext _ _ Hk2 (pre ++ pre2)%list).
      now rewrite app_assoc.
    + destruct (plus_lazy_consumes _ _ _ _ _ H) as (pre & t' & m' & -> & Hk).
      exact (Hnext _ _ Hk pre eq_refl).
    + unfold Re.ahead in H. destruct t as [|c t]; [discriminate|].
      destruct (p c); [|discriminate].
      exact (Hnext _ _ H [] eq_refl).
    + unfold Re.at_end in H. destruct t as [|c [|d t]]; try discriminate.
      * exact (Hnext _ _ H [] eq_refl).
      * destruct (Re.is_char Re.newline c); [|discriminate].
        exact (Hnext _ _ H [] eq_refl).
    + exact (Hnext _ _ H [] eq_refl).
    + exact (Hnext _ _ H [] eq_refl).
Qed.

(** Inside the group, [p*] adds characters of the class to the group, up
    to the closing parenthesis. *)
Lemma star_group (p : N -> bool) : forall t m r,
  Re.star p (Re.run [Re.GClose] (fun _ m => Some m)) t m = Some r ->
  Re.inside m = true ->
  exists n t',
    t = (n ++ t')%list /\ forallb p n = true /\
    Re.grp r = (rev n ++ Re.grp m)%list.
Proof.
  induction t as [|c t IH]; intros m r H Hin; simpl in H.
  - injection H as <-. now exists [], [].
  - destruct (p c) eqn:Hc.
    + destruct (Re.star p _ t (Re.eat c m)) as [r'|] eqn:E; simpl in H.
      * injection H as <-.
        destruct (IH _ _ E) as (n & t' & -> & Hall & Hg);
          [unfold Re.eat; simpl; exact Hin|].
        exists (c :: n), t'. simpl. rewrite Hc, Hall.
        repeat split. rewrite Hg. unfold Re.eat. simpl. rewrite Hin.
        now rewrite <- app_assoc.
      * injection H as <-. now exists [], (c :: t).
    + injection H as <-. now exists [], (c :: t).
Qed.

Lemma group_match (p : N -> bool) (t : list N) (m r : Re.caps) :
  Re.run [Re.GOpen; Re.Plus p; Re.GClose] (fun _ m => Some m) t m = Some r ->
  exists t',
    t = (rev (Re.grp r) ++ t')%list /\ Re.grp r <> [] /\
    forallb p (rev (Re.grp r)) = true.
Proof.
  intros H.
  change (Re.one p (Re.star p (Re.run [Re.GClose] (fun _ m => Some m))) t
            (Re.mkCaps (Re.whole m) [] true) = Some r) in H.
  unfold Re.one in H. destruct t as [|c t]; [discriminate|].
  destruct (p c) eqn:Hc; [|discriminate].
  destruct (star_group _ _ _ _ H eq_refl) as (n & t' & -> & Hall & Hg).
  simpl in Hg. rewrite Hg, rev_app_distr, rev_involutive. simpl.
  exists t'. rewrite Hc, Hall. repeat split.
  now destruct (rev n).
Qed.

Lemma compiler_re_match (t : list N) (m : Re.caps) :
  Re.match_at Re.compiler_re t = Some m ->
  exists pre post,
    t = (pre ++ rev (Re.grp m) ++ post)%list /\ Re.grp m <> [] /\
    forallb (fun c => Re.is_digit c || Re.is_char "." c) (rev (Re.grp m))
      = true.
Proof.
  intros H. unfold Re.match_at in H.
  change Re.compiler_re with
    ((Re.lit "pragma solidity " ++
      [Re.Opt (Re.one_of "<>^"); Re.Opt (Re.is_char "="); Re.Star Re.is_space])
     ++ [Re.GOpen; Re.Plus (fun c => Re.is_digit c || Re.is_char "." c);
         Re.GClose])%list in H.
  rewrite run_app in H.
  destruct (run_consumes _ _ _ _ _ H) as (pre & t' & m' & -> & Hk).
  destruct (group_match _ _ _ _ Hk) as (post & -> & Hne & Hall).
  now exists pre, post.
Qed.

End GroupFacts.

(** X4. The shape of a compiler version: whatever the text,
    [find_compiler_version] returns a piece of the text that consists of
    digits and dots only (no operator, no blank, no semicolon), and it
    returns the empty string exactly when its pattern matches nowhere in
    the text.  A digit is one of Python's [\d]: a decimal digit of any
    script. *)
Theorem version_shape (text : string) :
  let v := find_compiler_version text in
  (v = "" <-> Re.search Re.compiler_re text = None) /\
  exists before digits after,
    Re.codepoints text = (before ++ digits ++ after)%list /\
    v = Re.utf8 digits /\
    forallb (fun c => Re.is_digit c || Re.is_char "." c) digits = true /\
    text = Re.utf8 before ++ v ++ Re.utf8 after.
Proof.
  unfold find_compiler_version, Re.search.
  destruct (Re.search_from Re.compiler_re (Re.codepoints text))
    as [m|] eqn:E.
  - destruct (search_leftmost _ _ _ E) as (pre & rest & Hsplit & Hm & _).
    destruct (compiler_re_match _ _ Hm) as (pre' & post & -> & Hne & Hall).
    assert (Hrun : rev (Re.grp m) <> []).
    { intros Hrev. apply Hne. apply (f_equal (@rev N)) in Hrev.
      now rewrite rev_involutive in Hrev. }
    split.
    + split; [|discriminate]. intros Hv.
      now elim (utf8_not_empty _ Hrun).
    + exists (pre ++ pre')%list, (rev (Re.grp m)), post.
      split; [now rewrite Hsplit, <- app_assoc|].
      split; [reflexivity|]. split; [exact Hall|].
      rewrite <- (utf8_codepoints text) at 1.
      rewrite Hsplit, !utf8_app. unfold Re.group1.
      now rewrite append_assoc.
  - split; [tauto|]. exists [], [], (Re.codepoints text).
    repeat split. simpl. now rewrite utf8_codepoints.
Qed.

(** Python's character classes at work: a no-break space counts as a
    blank and a digit of another script as a digit, in a pragma; a letter
    of any script counts as a word character, in a path. *)
Example unicode_classes :
  find_compiler_version "pragma solidity ^ 0.8.4;" = "0.8.4" /\
  find_compiler_version "pragma solidity ^٠.٨.١;"
    = "٠.٨.١" /\
  is_solidity_blob (mkEntry "blob" "é.sol" "" "") = true /\
  is_solidity_blob (mkEntry "blob" "src/合约.sol" "" "") = true /\
  is_solidity_blob (mkEntry "blob" "src/.sol" "" "") = false /\
  entry_name (with_name (mkEntry "blob" "é.x/a.sol" "" "")) = "é".
Proof. vm_compute. repeat split. Qed.

(* ===================================================================== *)
(** * What the client leaves alone *)
(* ===================================================================== *)

Lemma only_world_refl s : only_world s s.
Proof. repeat split. Qed.

Lemma only_world_trans s1 s2 s3 :
  only_world s1 s2 -> only_world s2 s3 -> only_world s1 s3.
Proof. unfold only_world. intuition congruence. Qed.

Section Carrying.

Lemma carries_ret {A : Type} (I : State -> Prop) (a : A) : keeps I (ret a).
Proof. intros s H. exact H. Qed.

Lemma carries_raise {A : Type} (I : State -> Prop) (e : exn) :
  keeps I (@raise A e).
Proof. intros s H. exact H. Qed.

Lemma carries_out_of_fuel {A : Type} (I : State -> Prop) :
  keeps I (@out_of_fuel A).
Proof. intros s H. exact H. Qed.

Lemma carries_signal_handler {A : Type} (I : State -> Prop) :
  keeps I (@signal_handler A).
Proof. intros s H. exact H. Qed.

Lemma carries_gets {A : Type} (I : State -> Prop) (f : State -> A) :
  keeps I (gets f).
Proof. intros s H. exact H. Qed.

Lemma carries_modify (P Q : State -> Prop) (f : State -> State) :
  (forall s, P s -> Q (f s)) -> carries P (modify f) Q.
Proof. intros H s. apply H. Qed.

Lemma carries_weaken {A : Type} (P P' Q Q' : State -> Prop) (c : M A) :
  carries P' c Q' -> (forall s, P s -> P' s) -> (forall s, Q' s -> Q s) ->
  carries P c Q.
Proof. intros Hc Hp Hq s H. apply Hq, Hc, Hp, H. Qed.

(** The rule for sequences; what the first part leaves when it does not
    return is what the sequence leaves. *)
Lemma carries_bind {A B : Type} (P Q R : State -> Prop) (c : M A)
  (k : A -> M B) :
  carries P c Q -> (forall a, carries Q (k a) R) -> (forall s, Q s -> R s) ->
  carries P (bind c k) R.
Proof.
  intros Hc Hk Hqr s H. unfold exec, bind. specialize (Hc s H).
  unfold exec in Hc.
  destruct (c s) as [[a|e| |] s1]; simpl in *; auto.
  now apply Hk.
Qed.

Lemma keeps_bind {A B : Type} (I : State -> Prop) (c : M A) (k : A -> M B) :
  keeps I c -> (forall a, keeps I (k a)) -> keeps I (bind c k).
Proof. intros Hc Hk. apply (carries_bind I I I); auto. Qed.

(** The rule for a value read from the state. *)
Lemma carries_bind_gets {A B : Type} (P Q : State -> Prop) (f : State -> A)
  (k : A -> M B) :
  (forall s, P s -> Q (exec (k (f s)) s)) -> carries P (bind (gets f) k) Q.
Proof. intros H s Hs. exact (H s Hs). Qed.

Lemma carries_try_except {A B : Type} (P Q R : State -> Prop) (c : M A)
  (body : A -> M B) (handler : M B) :
  carries P c Q -> (forall a, carries Q (body a) R) -> carries Q handler R ->
  (forall s, Q s -> R s) ->
  carries P (try_except c body handler) R.
Proof.
  intros Hc Hb Hh Hqr s H. unfold exec, try_except. specialize (Hc s H).
  unfold exec in Hc.
  destruct (c s) as [[a|e| |] s1]; simpl in *; auto.
  - now apply Hb.
  - now apply Hh.
Qed.

Lemma keeps_try_except {A B : Type} (I : State -> Prop) (c : M A)
  (body : A -> M B) (handler : M B) :
  keeps I c -> (forall a, keeps I (body a)) -> keeps I handler ->
  keeps I (try_except c body handler).
Proof. intros Hc Hb Hh. apply (carries_try_except I I I); auto. Qed.

Lemma keeps_except_connection_error {A : Type} (I : State -> Prop)
  (c handler : M A) :
  keeps I c -> keeps I handler -> keeps I (except_connection_error c handler).
Proof.
  intros Hc Hh s H. unfold exec, except_connection_error.
  specialize (Hc s H). unfold exec in Hc.
  destruct (c s) as [[a|[]| |] s1]; simpl in *; auto.
  now apply Hh.
Qed.

Lemma keeps_when (I : State -> Prop) (b : bool) (c : M unit) :
  keeps I c -> keeps I (when b c).
Proof. intros Hc. destruct b; [exact Hc|apply carries_ret]. Qed.

End Carrying.

Ltac keeps_step :=
  first
    [ apply carries_ret | apply carries_raise | apply carries_gets
    | apply carries_out_of_fuel | apply carries_signal_handler
    | apply keeps_when | apply keeps_except_connection_error
    | apply keeps_bind; [|intros ?]
    | apply keeps_try_except; [|intros ?|] ].

Ltac keeps_then x := apply keeps_bind; [|intros x].

Section ClientFrame.

Variable I : State -> Prop.
Hypothesis I_stable : stable I.

Variable args : Args.
Variable server : Server.

(** An update of the world keeps what does not look at the world. *)
Lemma keeps_world (f : State -> State) :
  (forall s, only_world s (f s)) -> keeps I (modify f).
Proof. intros H s Hs. exact (I_stable s (f s) (H s) Hs). Qed.

Lemma keeps_update_status msg : keeps I (update_status msg).
Proof.
  unfold update_status. repeat keeps_step.
  apply keeps_world. intros s. repeat split.
Qed.

Lemma keeps_time_sleep t : keeps I (time_sleep t).
Proof. apply keeps_world. intros s. repeat split. Qed.

Lemma keeps_requests_get url params authorized :
  keeps I (requests_get server url params authorized).
Proof.
  intros s Hs. unfold exec, requests_get.
  destruct (server _ _ _); simpl;
    (eapply I_stable; [|exact Hs]); repeat split.
Qed.

Lemma keeps_json_message res : keeps I (json_message res).
Proof. unfold json_message. destruct (body res); keeps_step. Qed.

Lemma keeps_json_total_count res : keeps I (json_total_count res).
Proof. unfold json_total_count. destruct (body res); keeps_step. Qed.

Lemma keeps_json_items res : keeps I (json_items res).
Proof. unfold json_items. destruct (body res); keeps_step. Qed.

Lemma keeps_json_tree res : keeps I (json_tree res).
Proof. unfold json_tree. destruct (body res); keeps_step. Qed.

Lemma keeps_json_commits res : keeps I (json_commits res).
Proof. unfold json_commits. destruct (body res); keeps_step. Qed.

Lemma keeps_raise_for_status res : keeps I (raise_for_status res).
Proof. unfold raise_for_status. destruct (_ && _); keeps_step. Qed.

Lemma keeps_handle_log_response res : keeps I (handle_log_response res).
Proof.
  unfold handle_log_response.
  keeps_step; [apply keeps_update_status|].
  keeps_step.
  { destruct (negb _); repeat keeps_step. apply keeps_json_message. }
  keeps_step; [apply keeps_world; intros s; repeat split|].
  keeps_step; [apply keeps_time_sleep|].
  keeps_step; [apply keeps_update_status|]. keeps_step.
Qed.

Lemma keeps_pass_on res : keeps I (pass_on res).
Proof.
  unfold pass_on.
  keeps_step; [keeps_step; apply keeps_handle_log_response|].
  keeps_step; [apply keeps_raise_for_status|]. keeps_step.
Qed.

Lemma keeps_handle_rate_limit_error retry res :
  (forall u, keeps I (retry u)) ->
  keeps I (handle_rate_limit_error args retry res).
Proof.
  intros Hretry. unfold handle_rate_limit_error, time_time.
  keeps_step.
  { destruct (x_ratelimit_reset res); repeat keeps_step. }
  keeps_step; [apply keeps_update_status|].
  keeps_step; [apply keeps_time_sleep|].
  keeps_step; [apply keeps_update_status|]. apply Hretry.
Qed.

Lemma keeps_get (fuel : nat) : forall url params,
  keeps I (get args server fuel url params).
Proof.
  induction fuel as [|fuel IH]; intros url params; [keeps_step|].
  unfold get; fold (get args server).
  keeps_step; [keeps_step; apply keeps_time_sleep|].
  keeps_then res.
  { keeps_step; [apply keeps_requests_get|keeps_step]. }
  keeps_step; [apply keeps_world; intros s; repeat split|].
  keeps_step; [apply keeps_world; intros s; repeat split|].
  destruct (status_code res =? 403).
  - apply keeps_handle_rate_limit_error. intros u. apply IH.
  - apply keeps_pass_on.
Qed.

Lemma keeps_get_content url : keeps I (get_content server url).
Proof.
  unfold get_content.
  keeps_step.
  { keeps_step; [apply keeps_requests_get|keeps_step]. }
  apply keeps_pass_on.
Qed.

Lemma keeps_search fuel a b order license :
  keeps I (search args server fuel a b order license).
Proof. apply keeps_get. Qed.

End ClientFrame.

Lemma only_world_stable (s : State) : stable (only_world s).
Proof. intros s1 s2 H12 H1. exact (only_world_trans _ _ _ H1 H12). Qed.

Lemma get_only_world (args : Args) (server : Server) (fuel : nat)
  (url : string) (params : Params) (s : State) :
  only_world s (exec (get args server fuel url params) s).
Proof.
  apply (keeps_get _ (only_world_stable s)), only_world_refl.
Qed.

Lemma get_content_only_world (server : Server) (url : string) (s : State) :
  only_world s (exec (get_content server url) s).
Proof.
  apply (keeps_get_content _ (only_world_stable s)), only_world_refl.
Qed.

(** X5. The client leaves the program's data alone: however a call of
    [get], of [search] or of [get_content] ends, and whatever the server
    answers, the database, the statistics file, the stratum bounds, the
    population estimate and the sample counters are the ones from before
    the call. *)
Theorem client_changes_world_only (args : Args) (server : Server)
  (fuel : nat) (s : State) :
  (forall url params,
     only_world s (exec (get args server fuel url params) s)) /\
  (forall a b order license,
     only_world s (exec (search args server fuel a b order license) s)) /\
  (forall url, only_world s (exec (get_content server url) s)).
Proof.
  split; [|split]; intros.
  - apply get_only_world.
  - apply get_only_world.
  - apply get_content_only_world.
Qed.

(* ===================================================================== *)
(** * Logging a response, and the requests for raw content *)
(* ===================================================================== *)

(** X6. [handle_log_response] on a response whose status is not 200.  When
    the body is a JSON object with a [message], the response is logged, the
    script pauses for a second and a half, and the status message is the
    one from before.  When it is not (the text of an error page, a list),
    reading the message raises: the call ends with that exception (which
    is no [HTTPError]), nothing is logged, there is no pause, and the
    status message stays the one of the error. *)
Theorem log_response_needs_message (res : Response) (s : State) :
  status_code res <> 200 ->
  let s' := exec (handle_log_response res) s in
  (forall m, body res = ErrorMessage m ->
     result (handle_log_response res) s = Ret tt /\
     status_msg s' = status_msg s /\
     trace s' =
       EvSleep (3 # 2) ::
       EvLog (status_code res) (res_url res)
         (String Re.newline "Message: " ++ m) :: trace s /\
     clock s' = (clock s + (3 # 2))%Q) /\
  ((forall m, body res <> ErrorMessage m) ->
     (exists e, result (handle_log_response res) s = Raise e /\
                forall st, e <> HTTPError st) /\
     trace s' = trace s /\ clock s' = clock s /\
     status_msg s' =
       "Request response error with status: " ++ zstr (status_code res) ++
       " (for details see log.txt)").
Proof.
  intros Hst s'. apply Z.eqb_neq in Hst. subst s'.
  unfold result, exec, handle_log_response, update_status, time_sleep,
    json_message, bind, gets, modify, ret, raise.
  cbn [fst snd]. rewrite Hst. cbn [negb].
  split.
  - intros m Hm. rewrite Hm. cbn. repeat split.
  - intros Hno. destruct (body res) as [n l|l|l|m|t|] eqn:Hb; cbn;
      try (now elim (Hno m));
      (split; [eexists; split; [reflexivity|discriminate]|repeat split]).
Qed.

Lemma log_response_needs_message_witness :
  let res := mkResponse 404 "u" None None None None (Content "404: Not Found")
               0 in
  let s := initial_state one_stratum Store.empty None 0 in
  let s' := exec (handle_log_response res) s in
  (exists e, result (handle_log_response res) s = Raise e /\
             forall st, e <> HTTPError st) /\
  trace s' = trace s /\ clock s' = clock s /\
  status_msg s' =
    "Request response error with status: 404 (for details see log.txt)".
Proof.
  intros res s.
  apply (proj2 (log_response_needs_message res s ltac:(discriminate))).
  intros m. discriminate.
Defined.

Section ContentFacts.

Variable server : Server.

Lemma get_content_unfold (url : string) (s : State) :
  get_content server url s =
  bind (except_connection_error (requests_get server url [] false)
          signal_handler) pass_on s.
Proof. reflexivity. Qed.

(** What [pass_on] adds to the trace is no request. *)
Lemma pass_on_no_request (res : Response) (s : State) :
  requests (exec (pass_on res) s) = requests s /\
  exists log, trace (exec (pass_on res) s) = (log ++ trace s)%list /\
              forall url params auth, ~ In (EvRequest url params auth) log.
Proof.
  unfold exec, pass_on, when, handle_log_response, update_status, time_sleep,
    json_message, raise_for_status, bind, gets, modify, ret, raise.
  destruct (status_code res =? 200); cbn.
  - split; [now destruct (_ && _)|]. exists [].
    split; [now destruct (_ && _)|]. intros ? ? ? [].
  - destruct (body res); cbn;
      try (split; [reflexivity|]; exists []; split; [reflexivity|];
           intros ? ? ? []).
    split; [now destruct (_ && _)|].
    eexists [_; _]. split; [now destruct (_ && _)|].
    intros ? ? ? [H|[H|[]]]; discriminate.
Qed.

End ContentFacts.

(** X7. A request for raw content: [get_content] sends one request,
    to the URL it is given and without the [Authorization] header, and
    never a second one.  A lost connection ends the run; a reply with an
    error status (400 to 599, the 403 of a rate limit included) is not
    asked for again but raised: as [HTTPError] of that status when the
    body carries a message, as the error of reading the message when it
    does not. *)
Theorem get_content_asks_once (server : Server) (url : string) (s : State) :
  let s' := exec (get_content server url) s in
  requests s' = S (requests s) /\
  (exists log, trace s' = (log ++ EvRequest url [] false :: trace s)%list /\
               forall u params auth, ~ In (EvRequest u params auth) log) /\
  (server (requests s) url false = NoConnection ->
   result (get_content server url) s = Exit) /\
  (forall r, server (requests s) url false = Reply r ->
     400 <= status_code r < 600 ->
     exists e, result (get_content server url) s = Raise e /\
       forall m, body r = ErrorMessage m -> e = HTTPError (status_code r)).
Proof.
  intros s'. subst s'. unfold exec, result. rewrite get_content_unfold.
  unfold bind, except_connection_error, requests_get, signal_handler.
  change (prepare url []) with url.
  destruct (server (requests s) url false) as [r| |] eqn:Hreply; cbn [fst snd].
  - match goal with
    | |- context [pass_on ?res ?s1] =>
        pose proof (pass_on_no_request res s1) as (Hreq & log & Htr & Hlog);
        pose proof (pass_on_outcome res s1) as Hout;
        unfold exec, result in Hreq, Htr, Hout;
        destruct (pass_on res s1) as [o s2] eqn:Hrun
    end.
    cbn [fst snd] in *. split; [exact Hreq|]. split; [|split].
    + exists log. split; [exact Htr|exact Hlog].
    + discriminate.
    + intros r' [= <-] Hst.
      revert Hrun. unfold pass_on, when, handle_log_response, update_status,
        time_sleep, json_message, raise_for_status, bind, gets, modify, ret,
        raise. cbn [status_code body res_url].
      assert (H200 : (status_code r =? 200) = false) by (apply Z.eqb_neq; lia).
      assert (Herr : ((400 <=? status_code r) && (status_code r <? 600))
                     = true).
      { apply andb_true_iff. split; [apply Z.leb_le|apply Z.ltb_lt]; lia. }
      rewrite H200. cbn [negb].
      destruct (body r) as [n l|l|l|m|t|]; cbn; rewrite ?Herr;
        intros [= <- _]; eexists; (split; [reflexivity|]);
        intros m' Hm; congruence.
  - repeat split; try discriminate.
    exists []. split; [reflexivity|]. intros ? ? ? [].
  - repeat split; try discriminate.
    exists []. split; [reflexivity|]. intros ? ? ? [].
Qed.

Lemma get_content_asks_once_witness :
  let limited : Server :=
    fun _ _ _ => reply 403 None (ErrorMessage "rate limit exceeded") in
  let s := initial_state one_stratum Store.empty None 0 in
  requests (exec (get_content limited "u") s) = 1%nat /\
  exists e, result (get_content limited "u") s = Raise e /\
            e = HTTPError 403.
Proof.
  intros limited s.
  destruct (get_content_asks_once limited "u" s) as (Hreq & _ & _ & Herr).
  split; [exact Hreq|].
  destruct (Herr _ eq_refl ltac:(cbn; lia)) as (e & Hres & He).
  exists e. split; [exact Hres|]. exact (He _ eq_refl).
Defined.

(* ===================================================================== *)
(** * The constraints of the schema *)
(* ===================================================================== *)

Section StoreInvariants.

Import Store.

Lemma NoDup_snoc {K : Type} (l : list K) (k : K) :
  NoDup l -> ~ In k l -> NoDup (l ++ [k]).
Proof.
  induction l as [|a l IH]; intros Hl Hk; simpl.
  - constructor; [intros []|constructor].
  - inversion Hl as [|? ? Ha Hl']; subst. constructor.
    + intros Hin. apply in_app_or in Hin. destruct Hin as [Hin|[->|[]]].
      * contradiction.
      * apply Hk. now left.
    + apply IH; [exact Hl'|]. intros Hin. apply Hk. now right.
Qed.

Lemma next_rowid_above {A : Type} (rowid : A -> Z) (rows : list A) (r : A) :
  In r rows -> rowid r < next_rowid rowid rows.
Proof.
  unfold next_rowid. induction rows as [|a rows IH]; intros Hin; [easy|].
  simpl. destruct Hin as [->|Hin]; [lia|]. specialize (IH Hin). lia.
Qed.

Lemma next_rowid_fresh {A : Type} (rowid : A -> Z) (rows : list A) :
  ~ In (next_rowid rowid rows) (map rowid rows).
Proof.
  intros Hin. apply in_map_iff in Hin. destruct Hin as (r & Hr & Hin).
  pose proof (next_rowid_above rowid rows r Hin). lia.
Qed.

Lemma existsb_false_key {A K : Type} (key : A -> K) (p : A -> bool) (k : K)
  (rows : list A) :
  (forall r, p r = true <-> key r = k) ->
  existsb p rows = false -> ~ In k (map key rows).
Proof.
  intros Hp Hex Hin. apply in_map_iff in Hin. destruct Hin as (r & Hr & Hin).
  assert (existsb p rows = true); [|congruence].
  apply existsb_exists. exists r. split; [exact Hin|]. now apply Hp.
Qed.

(** Under a unique key, the count of a key is one when it is stored and
    zero when it is not. *)
Lemma count_of_key {A K : Type} (key : A -> K) (p : A -> bool) (k : K)
  (rows : list A) :
  (forall r, p r = true <-> key r = k) -> NoDup (map key rows) ->
  count p rows = if existsb p rows then 1 else 0.
Proof.
  intros Hp. unfold count. induction rows as [|a rows IH]; intros Hnd;
    [reflexivity|].
  simpl in *. inversion Hnd as [|? ? Ha Hnd']; subst.
  destruct (p a) eqn:Ea; simpl.
  - assert (Hno : existsb p rows = false).
    { destruct (existsb p rows) eqn:Ex; [|reflexivity].
      apply existsb_exists in Ex. destruct Ex as (r & Hin & Hr).
      exfalso. apply Ha. apply Hp in Ea, Hr. rewrite Ea, <- Hr.
      now apply in_map. }
    specialize (IH Hnd'). rewrite Hno in IH.
    apply (f_equal Z.to_nat) in IH. rewrite Nat2Z.id in IH.
    now rewrite IH.
  - exact (IH Hnd').
Qed.

Lemma file_key (pth : string) (rid : Z) (r : file_row) :
  String.eqb (f_path r) pth && (f_repo_id r =? rid) = true <->
  (f_path r, f_repo_id r) = (pth, rid).
Proof.
  rewrite andb_true_iff, String.eqb_eq, Z.eqb_eq.
  split; [intros [-> ->]; reflexivity|intros [= -> ->]; auto].
Qed.

Lemma comit_key (sh : string) (fid : Z) (r : comit_row) :
  String.eqb (c_sha r) sh && (c_file_id r =? fid) = true <->
  (c_sha r, c_file_id r) = (sh, fid).
Proof.
  rewrite andb_true_iff, String.eqb_eq, Z.eqb_eq.
  split; [intros [-> ->]; reflexivity|intros [= -> ->]; auto].
Qed.

Lemma repo_key (rid : Z) (r : repo_row) :
  (repo_id r =? rid) = true <-> repo_id r = rid.
Proof. apply Z.eqb_eq. Qed.

(** The inserts keep the keys unique. *)
Lemma unique_insert_repo (row : repo_row) (d : database) :
  unique_keys d -> unique_keys (insert_or_ignore_repo row d).
Proof.
  intros (Hr & Hf & Hfk & Hc & Hck). unfold insert_or_ignore_repo.
  destruct (existsb _ (repo d)) eqn:Ex; [repeat split; assumption|].
  repeat split; simpl; try assumption.
  rewrite map_app. apply NoDup_snoc; [exact Hr|].
  exact (existsb_false_key repo_id _ _ _ (repo_key (repo_id row)) Ex).
Qed.

Lemma unique_insert_file nm pth sh rid (d : database) :
  unique_keys d -> unique_keys (insert_or_ignore_file nm pth sh rid d).
Proof.
  intros (Hr & Hf & Hfk & Hc & Hck). unfold insert_or_ignore_file.
  destruct (existsb _ (file d)) eqn:Ex; [repeat split; assumption|].
  repeat split; simpl; try assumption; rewrite map_app; apply NoDup_snoc;
    try assumption.
  - apply next_rowid_fresh.
  - exact (existsb_false_key (fun r => (f_path r, f_repo_id r)) _ _ _
             (file_key pth rid) Ex).
Qed.

Lemma unique_insert_comit sh msg size created content vers prnts fid
  (d : database) :
  unique_keys d ->
  unique_keys (insert_or_ignore_comit sh msg size created content vers prnts
                 fid d).
Proof.
  intros (Hr & Hf & Hfk & Hc & Hck). unfold insert_or_ignore_comit.
  destruct (existsb _ (comit d)) eqn:Ex; [repeat split; assumption|].
  repeat split; simpl; try assumption; rewrite map_app; apply NoDup_snoc;
    try assumption.
  - apply next_rowid_fresh.
  - exact (existsb_false_key (fun r => (c_sha r, c_file_id r)) _ _ _
             (comit_key sh fid) Ex).
Qed.

(** No insert removes a row. *)
Lemma has_repo_insert_repo rid row d :
  has_repo rid d -> has_repo rid (insert_or_ignore_repo row d).
Proof.
  intros (r & Hin & Hr). unfold insert_or_ignore_repo.
  destruct (existsb _ _); exists r; simpl; auto using in_or_app.
Qed.

Lemma has_repo_insert_file rid nm pth sh rid' d :
  has_repo rid d -> has_repo rid (insert_or_ignore_file nm pth sh rid' d).
Proof.
  intros (r & Hin & Hr). unfold insert_or_ignore_file.
  destruct (existsb _ _); exists r; simpl; auto.
Qed.

Lemma has_repo_insert_comit rid sh msg size created content vers prnts fid d :
  has_repo rid d ->
  has_repo rid (insert_or_ignore_comit sh msg size created content vers prnts
                  fid d).
Proof.
  intros (r & Hin & Hr). unfold insert_or_ignore_comit.
  destruct (existsb _ _); exists r; simpl; auto.
Qed.

Lemma has_file_insert_repo fid row d :
  has_file fid d -> has_file fid (insert_or_ignore_repo row d).
Proof.
  intros (r & Hin & Hr). unfold insert_or_ignore_repo.
  destruct (existsb _ _); exists r; simpl; auto.
Qed.

Lemma has_file_insert_file fid nm pth sh rid d :
  has_file fid d -> has_file fid (insert_or_ignore_file nm pth sh rid d).
Proof.
  intros (r & Hin & Hr). unfold insert_or_ignore_file.
  destruct (existsb _ _); exists r; simpl; auto using in_or_app.
Qed.

Lemma has_file_insert_comit fid sh msg size created content vers prnts fid' d :
  has_file fid d ->
  has_file fid (insert_or_ignore_comit sh msg size created content vers prnts
                  fid' d).
Proof.
  intros (r & Hin & Hr). unfold insert_or_ignore_comit.
  destruct (existsb _ _); exists r; simpl; auto.
Qed.

(** After [INSERT OR IGNORE INTO repo] the repository is stored. *)
Lemma has_repo_inserted row d :
  has_repo (repo_id row) (insert_or_ignore_repo row d).
Proof.
  pose proof (insert_repo_key row d) as H. apply existsb_exists in H.
  destruct H as (r & Hin & Hr). exists r. split; [exact Hin|].
  now apply Z.eqb_eq.
Qed.

(** The inserts keep the references, when the row they add refers to a
    stored row. *)
Lemma refs_insert_repo row d :
  references_kept d -> references_kept (insert_or_ignore_repo row d).
Proof.
  intros [Hf Hc]. split.
  - intros f Hin. apply has_repo_insert_repo. apply Hf.
    unfold insert_or_ignore_repo in Hin. now destruct (existsb _ _).
  - intros c Hin. apply has_file_insert_repo. apply Hc.
    unfold insert_or_ignore_repo in Hin. now destruct (existsb _ _).
Qed.

Lemma refs_insert_file nm pth sh rid d :
  references_kept d -> has_repo rid d ->
  references_kept (insert_or_ignore_file nm pth sh rid d).
Proof.
  intros [Hf Hc] Hrid. split.
  - intros f Hin. apply has_repo_insert_file.
    unfold insert_or_ignore_file in Hin.
    destruct (existsb _ _); [now apply Hf|].
    simpl in Hin. apply in_app_or in Hin.
    destruct Hin as [Hin|[<-|[]]]; [now apply Hf|exact Hrid].
  - intros c Hin. apply has_file_insert_file. apply Hc.
    unfold insert_or_ignore_file in Hin. now destruct (existsb _ _).
Qed.

Lemma refs_insert_comit sh msg size created content vers prnts fid d :
  references_kept d -> has_file fid d ->
  references_kept (insert_or_ignore_comit sh msg size created content vers
                     prnts fid d).
Proof.
  intros [Hf Hc] Hfid. split.
  - intros f Hin. apply has_repo_insert_comit. apply Hf.
    unfold insert_or_ignore_comit in Hin. now destruct (existsb _ _).
  - intros c Hin. apply has_file_insert_comit.
    unfold insert_or_ignore_comit in Hin.
    destruct (existsb _ _); [now apply Hc|].
    simpl in Hin. apply in_app_or in Hin.
    destruct Hin as [Hin|[<-|[]]]; [now apply Hc|exact Hfid].
Qed.

End StoreInvariants.

(* ===================================================================== *)
(** * What the crawl keeps in the store *)
(* ===================================================================== *)

Section StoreRows.

Import Store.

(** Under unique keys, an item that is not known has no row. *)
Lemma unknown_file pth rid (d : database) :
  unique_keys d ->
  (count (fun r => String.eqb (f_path r) pth && (f_repo_id r =? rid))
         (file d) =? 1) = false ->
  existsb (fun r => String.eqb (f_path r) pth && (f_repo_id r =? rid))
          (file d) = false.
Proof.
  intros (_ & _ & Hk & _) Hc.
  rewrite (count_of_key (fun r => (f_path r, f_repo_id r)) _ (pth, rid) _
             (file_key pth rid) Hk) in Hc.
  now destruct (existsb _ _).
Qed.

Lemma unknown_comit sh fid (d : database) :
  unique_keys d ->
  (count (fun r => String.eqb (c_sha r) sh && (c_file_id r =? fid))
         (comit d) =? 1) = false ->
  existsb (fun r => String.eqb (c_sha r) sh && (c_file_id r =? fid))
          (comit d) = false.
Proof.
  intros (_ & _ & _ & _ & Hk) Hc.
  rewrite (count_of_key (fun r => (c_sha r, c_file_id r)) _ (sh, fid) _
             (comit_key sh fid) Hk) in Hc.
  now destruct (existsb _ _).
Qed.

(** The rows that an insert adds. *)
Lemma rows_insert_repo row (d : database) :
  let d' := insert_or_ignore_repo row d in
  (List.length (repo d') <= S (List.length (repo d)))%nat /\
  file d' = file d /\ comit d' = comit d.
Proof.
  unfold insert_or_ignore_repo. destruct (existsb _ _); simpl.
  - repeat split. lia.
  - rewrite length_app. simpl. repeat split. lia.
Qed.

Lemma rows_insert_file nm pth sh rid (d : database) :
  existsb (fun r => String.eqb (f_path r) pth && (f_repo_id r =? rid))
          (file d) = false ->
  let d' := insert_or_ignore_file nm pth sh rid d in
  repo d' = repo d /\
  List.length (file d') = S (List.length (file d)) /\
  comit d' = comit d /\
  has_file (last_insert_rowid d') d'.
Proof.
  intros Ex. unfold insert_or_ignore_file. rewrite Ex. simpl.
  rewrite length_app. simpl. repeat split; [lia|].
  eexists. split; [apply in_or_app; right; left; reflexivity|reflexivity].
Qed.

Lemma rows_insert_comit sh msg size created content vers prnts fid
  (d : database) :
  existsb (fun r => String.eqb (c_sha r) sh && (c_file_id r =? fid))
          (comit d) = false ->
  let d' := insert_or_ignore_comit sh msg size created content vers prnts
              fid d in
  repo d' = repo d /\ file d' = file d /\
  List.length (comit d') = S (List.length (comit d)).
Proof.
  intros Ex. unfold insert_or_ignore_comit. rewrite Ex. simpl.
  rewrite length_app. simpl. repeat split. lia.
Qed.

End StoreRows.

Lemma only_world_db s s' : only_world s s' -> db s' = db s.
Proof. intros H. apply H. Qed.

Lemma crawl_inv_stable kr kf kc tr tf tc :
  stable (crawl_inv kr kf kc tr tf tc).
Proof.
  intros s s'
    (_ & _ & _ & H4 & H5 & H6 & H7 & H8 & H9 & _ & _ & H12 & _).
  unfold crawl_inv, ledger, tally.
  rewrite H12, H4, H5, H6, H7, H8, H9. tauto.
Qed.

Lemma within_repo_stable kr kf kc tr tf tc rid :
  stable (within_repo kr kf kc tr tf tc rid).
Proof.
  intros s s' Hw [Hi Hr]. split.
  - exact (crawl_inv_stable _ _ _ _ _ _ s s' Hw Hi).
  - now rewrite (only_world_db _ _ Hw).
Qed.

Lemma within_file_stable kr kf kc tr tf tc rid fid :
  stable (within_file kr kf kc tr tf tc rid fid).
Proof.
  intros s s' Hw [Hi Hf]. split.
  - exact (within_repo_stable _ _ _ _ _ _ _ s s' Hw Hi).
  - now rewrite (only_world_db _ _ Hw).
Qed.

(** A stable property, with the database held fixed. *)
Lemma stable_with_db (I : State -> Prop) (d : Store.database) :
  stable I -> stable (fun s => I s /\ db s = d).
Proof.
  intros HI s s' Hw [Hs Hd]. split; [exact (HI s s' Hw Hs)|].
  now rewrite (only_world_db _ _ Hw).
Qed.

Create HintDb stable.

#[export] Hint Resolve crawl_inv_stable within_repo_stable within_file_stable
  stable_with_db : stable.

Ltac keeps_client :=
  first
    [ apply keeps_update_status | apply keeps_get | apply keeps_get_content
    | apply keeps_search | apply keeps_json_total_count
    | apply keeps_json_items | apply keeps_json_tree
    | apply keeps_json_commits | apply keeps_time_sleep ];
  auto with stable.

Section CrawlInvariant.

Variable args : Args.
Variable server : Server.
Variables kr kf kc tr tf tc : Z.

(** [insert_repo] leaves the repository stored. *)
Lemma insert_repo_inv (repo : Repo) :
  carries (crawl_inv kr kf kc tr tf tc) (insert_repo repo)
    (within_repo kr kf kc tr tf tc (id repo)).
Proof.
  intros s (Hu & Hr & (Lr & Lf & Lc) & (Tr & Tf & Tc)).
  set (row := Store.mkRepoRow (id repo) (name repo) (full_name repo)
                (description repo) (url repo) (if fork repo then 1 else 0)
                (owner_id repo) (owner_login repo)).
  destruct (rows_insert_repo row (db s)) as (Hlen & Hfile & Hcomit).
  unfold within_repo, crawl_inv, ledger, tally.
  change (db (exec (insert_repo repo) s))
    with (Store.insert_or_ignore_repo row (db s)).
  change (total_sam_repo (exec (insert_repo repo) s))
    with (total_sam_repo s + 1).
  change (sam_repo (exec (insert_repo repo) s)) with (sam_repo s + 1).
  change (total_sam_file (exec (insert_repo repo) s)) with (total_sam_file s).
  change (sam_file (exec (insert_repo repo) s)) with (sam_file s).
  change (total_sam_comit (exec (insert_repo repo) s))
    with (total_sam_comit s).
  change (sam_comit (exec (insert_repo repo) s)) with (sam_comit s).
  rewrite Hfile, Hcomit.
  split; [split; [|split; [|split]]|].
  - now apply unique_insert_repo.
  - now apply refs_insert_repo.
  - repeat split; lia.
  - repeat split; lia.
  - apply (has_repo_inserted row).
Qed.

(** [insert_file] of a file that is not known adds its row and returns
    the [file_id] of that row. *)
Lemma insert_file_inv (file : TreeEntry) (rid : Z) (s : State) :
  within_repo kr kf kc tr tf tc rid s ->
  fst (known_file file rid s) = Ret false ->
  exists fid s1,
    insert_file file rid s = (Ret fid, s1) /\
    within_file kr kf kc tr tf tc rid fid s1.
Proof.
  intros [(Hu & Hr & (Lr & Lf & Lc) & (Tr & Tf & Tc)) Hrid] Hknown.
  unfold known_file, gets in Hknown. simpl in Hknown.
  injection Hknown as Hknown.
  pose proof (unknown_file _ _ _ Hu Hknown) as Ex.
  destruct (rows_insert_file (entry_name file) (path file) (sha file) rid
              (db s) Ex) as (Hrepo & Hlen & Hcomit & Hfid).
  eexists _, _. split; [reflexivity|].
  unfold within_file, within_repo, crawl_inv, ledger, tally.
  cbn [db total_sam_repo total_sam_file total_sam_comit sam_repo sam_file
       sam_comit set_db set_sam_file set_total_sam_file].
  rewrite Hrepo, Hlen, Hcomit.
  split; [split; [split; [|split; [|split]]|]|].
  - now apply unique_insert_file.
  - now apply refs_insert_file.
  - repeat split; lia.
  - repeat split; lia.
  - now apply has_repo_insert_file.
  - exact Hfid.
Qed.

Lemma insert_commit_inv (commit : Commit) (res : Response)
  (prnts : list string) (rid fid : Z) (s : State) :
  within_file kr kf kc tr tf tc rid fid s ->
  fst (known_commit commit fid s) = Ret false ->
  within_file kr kf kc tr tf tc rid fid
    (exec (insert_commit commit res prnts fid) s).
Proof.
  intros [[(Hu & Hr & (Lr & Lf & Lc) & (Tr & Tf & Tc)) Hrid] Hfid] Hknown.
  unfold known_commit, gets in Hknown. simpl in Hknown.
  injection Hknown as Hknown.
  pose proof (unknown_comit _ _ _ Hu Hknown) as Ex.
  destruct (rows_insert_comit (commit_sha commit) (message commit)
              (Z.of_nat (String.length (text_of res))) (date commit)
              (text_of res) (find_compiler_version (text_of res))
              (str_list prnts) fid (db s) Ex) as (Hrepo & Hfile & Hlen).
  unfold within_file, within_repo, crawl_inv, ledger, tally.
  unfold exec, insert_commit, bind, modify.
  cbn [fst snd db total_sam_repo total_sam_file total_sam_comit sam_repo
       sam_file sam_comit set_db set_sam_comit set_total_sam_comit].
  rewrite Hrepo, Hfile, Hlen.
  split; [split; [split; [|split; [|split]]|]|].
  - now apply unique_insert_comit.
  - now apply refs_insert_comit.
  - repeat split; lia.
  - repeat split; lia.
  - now apply has_repo_insert_comit.
  - now apply has_file_insert_comit.
Qed.

Lemma keeps_commits_loop rid fid items full path_ :
  keeps (within_file kr kf kc tr tf tc rid fid)
    (commits_loop server items full path_ fid).
Proof.
  induction items as [|commit rest IH]; [apply carries_ret|].
  simpl. unfold known_commit at 1. apply carries_bind_gets. intros s Hs.
  destruct (Store.count _ _ =? 1) eqn:Hk; cbn [negb].
  - exact (keeps_bind _ _ _ (carries_ret _ tt) (fun _ => IH) s Hs).
  - refine (carries_bind
              (fun s0 => within_file kr kf kc tr tf tc rid fid s0 /\
                         db s0 = db s)
              (within_file kr kf kc tr tf tc rid fid)
              (within_file kr kf kc tr tf tc rid fid)
              _ _ _ _ _ s (conj Hs eq_refl)).
    + apply (carries_try_except _
               (fun s0 => within_file kr kf kc tr tf tc rid fid s0 /\
                          db s0 = db s)).
      * apply keeps_get_content. auto with stable.
      * intros res s0 [H0 Hdb]. apply insert_commit_inv; [exact H0|].
        unfold known_commit, gets. cbn [fst]. now rewrite Hdb, Hk.
      * intros s0 [H0 _]. exact H0.
      * intros s0 [H0 _]. exact H0.
    + intros _. exact IH.
    + auto.
Qed.

Lemma keeps_download_commits_from_page rid fid res full path_ :
  keeps (within_file kr kf kc tr tf tc rid fid)
        (download_commits_from_page server res full path_ fid).
Proof.
  unfold download_commits_from_page.
  keeps_step; [keeps_client|].
  keeps_step; [keeps_client|apply keeps_commits_loop].
Qed.

Lemma keeps_commit_pages rid fid fuel (n : nat) : forall res full path_,
  keeps (within_file kr kf kc tr tf tc rid fid)
    (commit_pages args server fuel n res full path_ fid).
Proof.
  induction n as [|n IH]; intros res full path_; simpl;
    destruct (link_next res); try keeps_step.
  - keeps_client.
  - keeps_step; [keeps_client|].
    keeps_step; [apply keeps_download_commits_from_page|apply IH].
Qed.

Lemma keeps_download_all_commits rid fid fuel repo file :
  keeps (within_file kr kf kc tr tf tc rid fid)
    (download_all_commits args server fuel repo file fid).
Proof.
  unfold download_all_commits.
  keeps_step; [keeps_client| |keeps_step].
  keeps_step; [apply keeps_download_commits_from_page|].
  keeps_step; [apply keeps_commit_pages|].
  keeps_step; [keeps_client|keeps_step].
Qed.

Lemma keeps_files_loop fuel repo entries :
  keeps (within_repo kr kf kc tr tf tc (id repo))
    (files_loop args server fuel repo entries).
Proof.
  induction entries as [|file rest IH]; [apply carries_ret|].
  simpl. apply keeps_bind; [|intros _; exact IH].
  destruct (is_solidity_blob file); [|apply carries_ret].
  cbv zeta. unfold known_file at 1. apply carries_bind_gets. intros s Hs.
  destruct (Store.count _ _ =? 1) eqn:Hk; cbn [negb]; [exact Hs|].
  destruct (insert_file_inv (with_name file) (id repo) s Hs)
    as (fid & s1 & Hrun & H1).
  { unfold known_file, gets. cbn [fst]. now rewrite Hk. }
  unfold exec, bind. rewrite Hrun.
  exact (proj1 (keeps_download_all_commits (id repo) fid fuel repo
                  (with_name file) s1 H1)).
Qed.

Lemma keeps_crawl_repo fuel repo :
  keeps (crawl_inv kr kf kc tr tf tc) (crawl_repo args server fuel repo).
Proof.
  unfold crawl_repo, known_repo. apply carries_bind_gets. intros s Hs.
  destruct (Store.count _ _ =? 1); cbn [negb]; [exact Hs|].
  refine (carries_bind (crawl_inv kr kf kc tr tf tc)
            (within_repo kr kf kc tr tf tc (id repo))
            (crawl_inv kr kf kc tr tf tc) _ _ _ _ _ s Hs).
  - apply insert_repo_inv.
  - intros _.
    apply (carries_weaken _ (within_repo kr kf kc tr tf tc (id repo)) _
             (within_repo kr kf kc tr tf tc (id repo)));
      [|auto|intros s0 [H0 _]; exact H0].
    keeps_step; [keeps_client| |keeps_step].
    keeps_step; [keeps_client|].
    keeps_step; [apply keeps_files_loop|keeps_step].
  - intros s0 [H0 _]. exact H0.
Qed.

Lemma keeps_repos_loop fuel items :
  keeps (crawl_inv kr kf kc tr tf tc) (repos_loop args server fuel items).
Proof.
  induction items as [|repo rest IH]; simpl; [keeps_step|].
  keeps_then at_footer; [apply keeps_crawl_repo|].
  destruct at_footer; [|exact IH].
  keeps_then sam; [keeps_step|]. keeps_then pop; [keeps_step|].
  destruct (_ >=? _); [keeps_step|exact IH].
Qed.

Lemma keeps_download_repos_from_page fuel res :
  keeps (crawl_inv kr kf kc tr tf tc)
    (download_repos_from_page args server fuel res).
Proof.
  unfold download_repos_from_page.
  keeps_step; [keeps_client|].
  keeps_step; [keeps_client|apply keeps_repos_loop].
Qed.

(** An update of the estimate or of the license variables. *)
Lemma keeps_estimate (f : State -> State) :
  (forall s, db (f s) = db s /\
     total_sam_repo (f s) = total_sam_repo s /\
     total_sam_file (f s) = total_sam_file s /\
     total_sam_comit (f s) = total_sam_comit s /\
     sam_repo (f s) = sam_repo s /\ sam_file (f s) = sam_file s /\
     sam_comit (f s) = sam_comit s) ->
  keeps (crawl_inv kr kf kc tr tf tc) (modify f).
Proof.
  intros Hf s H. destruct (Hf s) as (H1 & H2 & H3 & H4 & H5 & H6 & H7).
  unfold exec, modify. cbn [snd]. unfold crawl_inv, ledger, tally.
  rewrite H1, H2, H3, H4, H5, H6, H7. exact H.
Qed.

Lemma keeps_repo_pages fuel (n : nat) : forall res,
  keeps (crawl_inv kr kf kc tr tf tc) (repo_pages args server fuel n res).
Proof.
  induction n as [|n IH]; intros res; simpl;
    destruct (link_next res); try keeps_step.
  - keeps_client.
  - keeps_then res'; [keeps_client|].
    keeps_then total_count; [keeps_client|].
    keeps_step; [apply keeps_estimate; intros ?; repeat split|].
    keeps_step; [apply keeps_download_repos_from_page|].
    keeps_then sam; [keeps_step|]. keeps_then pop; [keeps_step|].
    destruct (_ >=? _); [keeps_step|apply IH].
Qed.

Lemma keeps_download_all_repos fuel res :
  keeps (crawl_inv kr kf kc tr tf tc) (download_all_repos args server fuel res).
Proof.
  unfold download_all_repos.
  keeps_step; [apply keeps_download_repos_from_page|].
  keeps_step; [apply keeps_repo_pages|].
  keeps_step; [keeps_client|keeps_step].
Qed.

Lemma keeps_ascending_pass fuel :
  keeps (crawl_inv kr kf kc tr tf tc) (ascending_pass args server fuel).
Proof.
  unfold ascending_pass.
  keeps_step; [keeps_client|].
  keeps_then lo; [keeps_step|]. keeps_then hi; [keeps_step|].
  keeps_then res; [keeps_client|].
  keeps_then total_count; [keeps_client|].
  keeps_step; [apply keeps_estimate; intros ?; repeat split|].
  apply keeps_download_all_repos.
Qed.

Lemma keeps_descending_pass fuel :
  keeps (crawl_inv kr kf kc tr tf tc) (descending_pass args server fuel).
Proof.
  unfold descending_pass.
  keeps_step; [keeps_client|].
  keeps_then lo; [keeps_step|]. keeps_then hi; [keeps_step|].
  keeps_then res; [keeps_client|].
  keeps_then pop2; [keeps_client|].
  keeps_step; [apply keeps_estimate; intros ?; repeat split|].
  apply keeps_download_all_repos.
Qed.

Lemma keeps_sample_unlicensed fuel :
  keeps (crawl_inv kr kf kc tr tf tc) (sample_unlicensed args server fuel).
Proof.
  unfold sample_unlicensed.
  keeps_step; [apply keeps_ascending_pass|].
  keeps_then pop; [keeps_step|].
  destruct (pop >? 1000); [apply keeps_descending_pass|keeps_step].
Qed.

Lemma keeps_license_ascending_pass fuel lic :
  keeps (crawl_inv kr kf kc tr tf tc)
    (license_ascending_pass args server fuel lic).
Proof.
  unfold license_ascending_pass.
  keeps_step; [keeps_client|].
  keeps_step; [apply keeps_estimate; intros ?; repeat split|].
  keeps_then lo; [keeps_step|]. keeps_then hi; [keeps_step|].
  keeps_then res; [keeps_client|].
  keeps_step; [apply keeps_estimate; intros ?; repeat split|].
  keeps_then total_count; [keeps_client|].
  keeps_step; [apply keeps_estimate; intros ?; repeat split|].
  apply keeps_download_all_repos.
Qed.

Lemma keeps_license_descending_pass fuel lic :
  keeps (crawl_inv kr kf kc tr tf tc)
    (license_descending_pass args server fuel lic).
Proof.
  unfold license_descending_pass.
  keeps_step; [keeps_client|].
  keeps_then lo; [keeps_step|]. keeps_then hi; [keeps_step|].
  keeps_then res; [keeps_client|].
  keeps_then total_count; [keeps_client|].
  keeps_step; [apply keeps_estimate; intros ?; repeat split|].
  apply keeps_download_all_repos.
Qed.

Lemma keeps_sample_licenses fuel lics :
  keeps (crawl_inv kr kf kc tr tf tc) (sample_licenses args server fuel lics).
Proof.
  induction lics as [|lic rest IH]; simpl; [keeps_step|].
  keeps_step; [|exact IH]. unfold sample_license.
  keeps_step; [apply keeps_license_ascending_pass|].
  keeps_then pop; [keeps_step|].
  destruct (pop >? 1000); [apply keeps_license_descending_pass|keeps_step].
Qed.

End CrawlInvariant.

(* ===================================================================== *)
(** * The store and the statistics over a run *)
(* ===================================================================== *)

Section RunInvariant.

Variable args : Args.
Variable server : Server.

Lemma kept_start (s : State) :
  unique_keys (db s) -> references_kept (db s) ->
  crawl_inv
    (Z.of_nat (List.length (Store.repo (db s))) - total_sam_repo s)
    (Z.of_nat (List.length (Store.file (db s))) - total_sam_file s)
    (Z.of_nat (List.length (Store.comit (db s))) - total_sam_comit s)
    (total_sam_repo s - sam_repo s) (total_sam_file s - sam_file s)
    (total_sam_comit s - sam_comit s) s.
Proof.
  intros Hu Hr. split; [exact Hu|]. split; [exact Hr|].
  split; unfold ledger, tally; lia.
Qed.

Lemma kept_stable kr kf kc : stable (run_inv kr kf kc).
Proof.
  intros s s' Hw (tr & tf & tc & H). exists tr, tf, tc.
  exact (crawl_inv_stable _ _ _ _ _ _ s s' Hw H).
Qed.

(** An update of a variable of the stratum or of the statistics file. *)
Lemma kept_field kr kf kc (f : State -> State) :
  (forall s, db (f s) = db s /\
     total_sam_repo (f s) = total_sam_repo s /\
     total_sam_file (f s) = total_sam_file s /\
     total_sam_comit (f s) = total_sam_comit s) ->
  keeps (run_inv kr kf kc) (modify f).
Proof.
  intros Hf s (tr & tf & tc & Hu & Hr & Hl & _).
  destruct (Hf s) as (H1 & H2 & H3 & H4).
  exists (total_sam_repo s - sam_repo (f s)),
         (total_sam_file s - sam_file (f s)),
         (total_sam_comit s - sam_comit (f s)).
  unfold exec, modify. cbn [snd]. unfold crawl_inv, ledger, tally.
  rewrite H1, H2, H3, H4.
  split; [exact Hu|]. split; [exact Hr|]. split; [exact Hl|].
  repeat split.
Qed.

Lemma kept_sampling kr kf kc fuel :
  keeps (run_inv kr kf kc)
    (if negb (licensed args) then sample_unlicensed args server fuel
     else sample_licenses args server fuel licenses).
Proof.
  intros s (tr & tf & tc & H). exists tr, tf, tc.
  destruct (negb (licensed args));
    [now apply keeps_sample_unlicensed|now apply keeps_sample_licenses].
Qed.

Lemma kept_next_stratum kr kf kc : keeps (run_inv kr kf kc) (next_stratum args).
Proof.
  unfold next_stratum.
  repeat (apply keeps_bind;
          [apply kept_field; intros ?; repeat split|intros _]).
  apply kept_field; intros ?; repeat split.
Qed.

Lemma kept_sample_stratum kr kf kc fuel :
  keeps (run_inv kr kf kc) (sample_stratum args server fuel).
Proof.
  unfold sample_stratum.
  do 4 (apply keeps_bind;
        [apply kept_field; intros ?; repeat split|intros _]).
  apply keeps_bind; [apply kept_sampling|intros _].
  apply keeps_bind; [apply carries_gets|intros row].
  apply keeps_bind; [|intros _; apply kept_next_stratum].
  apply kept_field; intros ?; repeat split.
Qed.

Lemma kept_main_loop kr kf kc fuel (n : nat) :
  keeps (run_inv kr kf kc) (main_loop args server fuel n).
Proof.
  induction n as [|n IH]; simpl;
    (apply keeps_bind; [apply carries_gets|intros first]);
    destruct (first <=? max_size args); try keeps_step.
  - apply kept_sample_stratum.
  - exact IH.
Qed.

(** [startup] leaves the database alone. *)
Lemma startup_db (s : State) : db (exec (startup args) s) = db s.
Proof.
  assert (Hst : stable (fun st => db st = db s)).
  { intros s1 s2 Hw H1. now rewrite (only_world_db _ _ Hw). }
  assert (Hfield : forall f : State -> State,
            (forall st, db (f st) = db st) ->
            keeps (fun st => db st = db s) (modify f)).
  { intros f Hf st H. unfold exec, modify. cbn [snd]. now rewrite Hf. }
  assert (Hcell : forall row i, keeps (fun st => db st = db s) (cell row i)).
  { intros row i. unfold cell. destruct (nth_error row i); keeps_step. }
  assert (Hreplay : forall rows, keeps (fun st => db st = db s) (replay rows)).
  { induction rows as [|row rows IH]; simpl; [keeps_step|].
    apply keeps_bind; [|intros _; exact IH].
    unfold replay_row.
    repeat (apply keeps_bind;
            [first [apply Hcell|apply Hfield; reflexivity]|intros ?]).
    apply Hfield; reflexivity. }
  apply (fun H : keeps (fun st => db st = db s) (startup args) =>
           H s eq_refl).
  unfold startup.
  do 4 (apply keeps_bind; [apply Hfield; reflexivity|intros _]).
  apply keeps_bind; [apply carries_gets|intros stats].
  destruct stats as [rows|]; [|apply Hfield; reflexivity].
  apply keeps_bind; [now apply keeps_update_status|intros _].
  apply keeps_bind; [apply Hreplay|intros _].
  apply keeps_bind; [apply carries_gets|intros pop].
  destruct (pop >? -1); [|keeps_step].
  unfold next_stratum.
  repeat (apply keeps_bind; [apply Hfield; reflexivity|intros _]).
  apply Hfield; reflexivity.
Qed.

(** How [main] goes on after [startup]. *)
Lemma main_steps (fuel : nat) (s : State) :
  main args server fuel s =
  (main_loop args server fuel fuel ;; update_status "Done." ;; ret tt)
    (exec (startup args) s) \/
  (exec (main args server fuel) s = exec (startup args) s /\
   result (main args server fuel) s <> Ret tt).
Proof.
  unfold main, exec, result.
  destruct (startup args s) as [[[]|e| |] s0] eqn:E.
  - left. unfold bind at 1. rewrite E. reflexivity.
  - right. unfold bind. rewrite E. split; [reflexivity|discriminate].
  - right. unfold bind. rewrite E. split; [reflexivity|discriminate].
  - right. unfold bind. rewrite E. split; [reflexivity|discriminate].
Qed.

Lemma kept_after_loop kr kf kc fuel :
  keeps (run_inv kr kf kc)
    (main_loop args server fuel fuel ;; update_status "Done." ;; ret tt).
Proof.
  apply keeps_bind; [apply kept_main_loop|intros _].
  apply keeps_bind; [|intros _; keeps_step].
  apply keeps_update_status. apply kept_stable.
Qed.

(** A turn of the main loop that ends: the row it appends, the rows it
    added to the store and what it added to the totals. *)
Lemma sample_stratum_ends (fuel : nat) (s : State) (rows : list (list Z)) :
  unique_keys (db s) -> references_kept (db s) ->
  statistics s = Some rows ->
  result (sample_stratum args server fuel) s = Ret tt ->
  let s' := exec (sample_stratum args server fuel) s in
  exists pop sr sf sc,
    statistics s' =
      Some (rows ++ [[strat_first s; strat_last s; pop; sr; sf; sc]])%list /\
    Z.of_nat (List.length (Store.repo (db s'))) <=
      Z.of_nat (List.length (Store.repo (db s))) + sr /\
    Z.of_nat (List.length (Store.file (db s'))) =
      Z.of_nat (List.length (Store.file (db s))) + sf /\
    Z.of_nat (List.length (Store.comit (db s'))) =
      Z.of_nat (List.length (Store.comit (db s))) + sc /\
    total_sam_repo s' = total_sam_repo s + sr /\
    total_sam_file s' = total_sam_file s + sf /\
    total_sam_comit s' = total_sam_comit s + sc /\
    unique_keys (db s') /\ references_kept (db s') /\
    (strat_first s', strat_last s') =
      strat_advance args (strat_first s, strat_last s).
Proof.
  intros Hu Hr Hstats Hret s'.
  set (sampling := if negb (licensed args)
                   then sample_unlicensed args server fuel
                   else sample_licenses args server fuel licenses).
  assert (Hrun : sample_stratum args server fuel s =
            (sampling ;;
             row <- gets (fun s => [strat_first s; strat_last s; pop_repo s;
                                    sam_repo s; sam_file s; sam_comit s]) ;;
             writerow row ;;
             next_stratum args) (stratum_start s)) by reflexivity.
  assert (Hplan : result sampling (stratum_start s) = Ret tt ->
                  same_plan (stratum_start s)
                            (exec sampling (stratum_start s))).
  { unfold sampling. destruct fuel as [|fuel].
    - destruct (negb (licensed args)); discriminate.
    - intros _. destruct (negb (licensed args));
        [apply preserves_sample_unlicensed|apply preserves_sample_licenses]. }
  assert (Hsam : exists s2, sampling (stratum_start s) = (Ret tt, s2)).
  { unfold result in Hret. rewrite Hrun in Hret. unfold bind at 1 in Hret.
    destruct (sampling (stratum_start s)) as [[[]| | |] s2];
      try discriminate. now exists s2. }
  destruct Hsam as [s2 Hsam].
  assert (Hs2 : same_plan (stratum_start s) s2).
  { unfold result, exec in Hplan. rewrite Hsam in Hplan. now apply Hplan. }
  destruct Hs2 as (Hf & Hl & Hst). simpl in Hf, Hl, Hst.
  assert (Hinv : crawl_inv
            (Z.of_nat (List.length (Store.repo (db s))) - total_sam_repo s)
            (Z.of_nat (List.length (Store.file (db s))) - total_sam_file s)
            (Z.of_nat (List.length (Store.comit (db s))) - total_sam_comit s)
            (total_sam_repo s) (total_sam_file s) (total_sam_comit s) s2).
  { assert (Hk : keeps (crawl_inv
              (Z.of_nat (List.length (Store.repo (db s))) - total_sam_repo s)
              (Z.of_nat (List.length (Store.file (db s))) - total_sam_file s)
              (Z.of_nat (List.length (Store.comit (db s)))
               - total_sam_comit s)
              (total_sam_repo s) (total_sam_file s) (total_sam_comit s))
              sampling).
    { unfold sampling. destruct (negb (licensed args));
        [apply keeps_sample_unlicensed|apply keeps_sample_licenses]. }
    specialize (Hk (stratum_start s)). unfold exec in Hk.
    rewrite Hsam in Hk. apply Hk.
    split; [exact Hu|]. split; [exact Hr|].
    split; unfold ledger, tally; simpl; lia. }
  destruct Hinv as (Hu2 & Hr2 & (Lr & Lf & Lc) & (Tr & Tf & Tc)).
  assert (Hfinal : sample_stratum args server fuel s =
            (row <- gets (fun s => [strat_first s; strat_last s; pop_repo s;
                                    sam_repo s; sam_file s; sam_comit s]) ;;
             writerow row ;;
             next_stratum args) s2).
  { rewrite Hrun. unfold bind at 1. now rewrite Hsam. }
  unfold s', exec. rewrite Hfinal.
  exists (pop_repo s2), (sam_repo s2), (sam_file s2), (sam_comit s2).
  simpl. rewrite Hst, Hstats, Hf, Hl.
  split; [reflexivity|]. do 6 (split; [lia|]).
  split; [exact Hu2|]. split; [exact Hr2|]. reflexivity.
Qed.

Lemma column_app (i : nat) (rows rows' : list (list Z)) :
  column i (rows ++ rows') = column i rows + column i rows'.
Proof.
  unfold column. induction rows as [|row rows IH]; simpl; [reflexivity|].
  rewrite IH. lia.
Qed.

(** The main loop, when it ends, has added to the totals what the rows it
    appended record. *)
Lemma main_loop_totals (fuel n : nat) : forall (s : State) rows,
  unique_keys (db s) -> references_kept (db s) ->
  statistics s = Some rows ->
  result (main_loop args server fuel n) s = Ret tt ->
  let s' := exec (main_loop args server fuel n) s in
  exists new_rows,
    statistics s' = Some (rows ++ new_rows)%list /\
    total_sam_repo s' = total_sam_repo s + column 3 new_rows /\
    total_sam_file s' = total_sam_file s + column 4 new_rows /\
    total_sam_comit s' = total_sam_comit s + column 5 new_rows.
Proof.
  induction n as [|n IH]; intros s rows Hu Hr Hstats Hret.
  - unfold main_loop, result, exec, bind, gets in *. simpl in *.
    destruct (strat_first s <=? max_size args); [discriminate|].
    exists []. rewrite app_nil_r. unfold column. simpl.
    repeat split; try assumption; lia.
  - assert (Hrun : main_loop args server fuel (S n) s =
              (if strat_first s <=? max_size args
               then (sample_stratum args server fuel ;;
                     main_loop args server fuel n)
               else ret tt) s) by reflexivity.
    cbv zeta. unfold result, exec in *. rewrite Hrun in Hret |- *.
    destruct (strat_first s <=? max_size args).
    + pose proof (sample_stratum_ends fuel s rows Hu Hr Hstats) as Hrow.
      unfold result, exec in Hrow.
      destruct (sample_stratum args server fuel s) as [[[]| | |] s1] eqn:E;
        try (unfold bind at 1 in Hret; rewrite E in Hret; discriminate).
      assert (Hnext : (sample_stratum args server fuel ;;
                       main_loop args server fuel n) s =
                      main_loop args server fuel n s1).
      { unfold bind at 1. now rewrite E. }
      rewrite Hnext in Hret |- *.
      destruct (Hrow eq_refl)
        as (pop & sr & sf & sc & Hst1 & _ & _ & _ & Tr & Tf & Tc & Hu1 & Hr1
            & _).
      cbn [snd] in Hst1, Tr, Tf, Tc, Hu1, Hr1.
      destruct (IH s1 _ Hu1 Hr1 Hst1 Hret)
        as (new_rows & Hst2 & Tr2 & Tf2 & Tc2).
      exists ([strat_first s; strat_last s; pop; sr; sf; sc] :: new_rows).
      split; [rewrite Hst2, <- app_assoc; reflexivity|].
      rewrite Tr2, Tf2, Tc2, Tr, Tf, Tc. unfold column. simpl.
      repeat split; lia.
    + exists []. rewrite app_nil_r. unfold column. simpl.
      repeat split; try assumption; lia.
Qed.

End RunInvariant.

(** X8. The constraints of the schema hold throughout a run: when the
    keys of the database are unique and every file and commit refers to a
    stored row before the run, they are and do so after it, however the
    run ends and whatever the server answers.  The references are kept by
    the order of the inserts; SQLite is not asked to enforce the foreign
    keys. *)
Theorem run_keeps_schema (args : Args) (server : Server) (fuel : nat)
  (s : State) :
  unique_keys (db s) -> references_kept (db s) ->
  let s' := exec (main args server fuel) s in
  unique_keys (db s') /\ references_kept (db s').
Proof.
  intros Hu Hr s'. subst s'.
  destruct (main_steps args server fuel s) as [Hrun|[Hrun _]].
  - unfold exec. rewrite Hrun. fold (exec (startup args) s).
    set (s0 := exec (startup args) s).
    assert (H0 : exists tr tf tc, crawl_inv
              (Z.of_nat (List.length (Store.repo (db s0))) - total_sam_repo s0)
              (Z.of_nat (List.length (Store.file (db s0))) - total_sam_file s0)
              (Z.of_nat (List.length (Store.comit (db s0)))
               - total_sam_comit s0) tr tf tc s0).
    { eexists _, _, _. apply kept_start; unfold s0; now rewrite startup_db. }
    destruct (kept_after_loop args server _ _ _ fuel s0 H0)
      as (tr & tf & tc & Hu' & Hr' & _).
    split; assumption.
  - rewrite Hrun, startup_db. split; assumption.
Qed.

Lemma run_keeps_schema_witness :
  let s' := exec (main one_stratum solidity_server 2)
                 (initial_state one_stratum Store.empty None 0) in
  unique_keys (db s') /\ references_kept (db s').
Proof.
  apply (run_keeps_schema one_stratum solidity_server 2).
  - repeat split; simpl; repeat constructor; simpl; tauto.
  - split; intros r [].
Defined.

(** X9. The totals count the rows of a run: from [startup] to the end of
    the run, however it ends, the rows added to [file] and to [comit] are
    what was added to [total_sam_file] and to [total_sam_comit], and the
    rows added to [repo] are at most what was added to [total_sam_repo]. *)
Theorem run_counts_rows (args : Args) (server : Server) (fuel : nat)
  (s : State) :
  unique_keys (db s) -> references_kept (db s) ->
  let s0 := exec (startup args) s in
  let s' := exec (main args server fuel) s in
  Z.of_nat (List.length (Store.file (db s'))) -
    Z.of_nat (List.length (Store.file (db s))) =
    total_sam_file s' - total_sam_file s0 /\
  Z.of_nat (List.length (Store.comit (db s'))) -
    Z.of_nat (List.length (Store.comit (db s))) =
    total_sam_comit s' - total_sam_comit s0 /\
  Z.of_nat (List.length (Store.repo (db s'))) -
    Z.of_nat (List.length (Store.repo (db s))) <=
    total_sam_repo s' - total_sam_repo s0.
Proof.
  intros Hu Hr s0 s'. subst s'.
  destruct (main_steps args server fuel s) as [Hrun|[Hrun _]].
  - unfold exec. rewrite Hrun. fold (exec (startup args) s). fold s0.
    assert (H0 : exists tr tf tc, crawl_inv
              (Z.of_nat (List.length (Store.repo (db s0))) - total_sam_repo s0)
              (Z.of_nat (List.length (Store.file (db s0))) - total_sam_file s0)
              (Z.of_nat (List.length (Store.comit (db s0)))
               - total_sam_comit s0) tr tf tc s0).
    { eexists _, _, _. apply kept_start; unfold s0; now rewrite startup_db. }
    destruct (kept_after_loop args server _ _ _ fuel s0 H0)
      as (tr & tf & tc & _ & _ & (Lr & Lf & Lc) & _).
    unfold exec in Lr, Lf, Lc.
    assert (Hdb : db s0 = db s) by apply startup_db.
    rewrite Hdb in Lr, Lf, Lc. lia.
  - rewrite Hrun. fold s0. assert (Hdb : db s0 = db s) by apply startup_db.
    rewrite Hdb. lia.
Qed.

Lemma run_counts_rows_witness :
  let s := initial_state one_stratum Store.empty None 0 in
  let s' := exec (main one_stratum solidity_server 2) s in
  Z.of_nat (List.length (Store.file (db s'))) - 0 = total_sam_file s' - 0 /\
  Z.of_nat (List.length (Store.comit (db s'))) - 0 = total_sam_comit s' - 0 /\
  Z.of_nat (List.length (Store.repo (db s'))) - 0 <= total_sam_repo s' - 0.
Proof.
  intros s s'.
  apply (run_counts_rows one_stratum solidity_server 2 s).
  - repeat split; simpl; repeat constructor; simpl; tauto.
  - split; intros r [].
Defined.

(** X10. The row of a stratum counts what the stratum added: when a turn
    of the main loop ends, the row it appends to the statistics file
    carries the bounds of the stratum, and its counts of files and of
    commits are the rows that the turn added to [file] and to [comit]; its
    count of repositories is at least the rows added to [repo]. *)
Theorem stratum_row_counts (args : Args) (server : Server) (fuel : nat)
  (s : State) (rows : list (list Z)) :
  unique_keys (db s) -> references_kept (db s) ->
  statistics s = Some rows ->
  result (sample_stratum args server fuel) s = Ret tt ->
  let s' := exec (sample_stratum args server fuel) s in
  exists pop sr sf sc,
    statistics s' =
      Some (rows ++ [[strat_first s; strat_last s; pop; sr; sf; sc]])%list /\
    Z.of_nat (List.length (Store.repo (db s'))) <=
      Z.of_nat (List.length (Store.repo (db s))) + sr /\
    Z.of_nat (List.length (Store.file (db s'))) =
      Z.of_nat (List.length (Store.file (db s))) + sf /\
    Z.of_nat (List.length (Store.comit (db s'))) =
      Z.of_nat (List.length (Store.comit (db s))) + sc.
Proof.
  intros Hu Hr Hstats Hret s'.
  destruct (sample_stratum_ends args server fuel s rows Hu Hr Hstats Hret)
    as (pop & sr & sf & sc & H1 & H2 & H3 & H4 & _).
  exists pop, sr, sf, sc. repeat split; assumption.
Qed.

Lemma stratum_row_counts_witness :
  let s := exec (startup one_stratum)
             (initial_state one_stratum Store.empty None 0) in
  let s' := exec (sample_stratum one_stratum solidity_server 2) s in
  exists pop sr sf sc,
    statistics s' = Some ([] ++ [[1; 5; pop; sr; sf; sc]])%list /\
    Z.of_nat (List.length (Store.repo (db s'))) <= 0 + sr /\
    Z.of_nat (List.length (Store.file (db s'))) = 0 + sf /\
    Z.of_nat (List.length (Store.comit (db s'))) = 0 + sc.
Proof.
  intros s s'.
  apply (stratum_row_counts one_stratum solidity_server 2 s []).
  - repeat split; simpl; repeat constructor; simpl; tauto.
  - split; intros r [].
  - reflexivity.
  - reflexivity.
Defined.

(** X11. The totals are the sums of the statistics file: when a run ends,
    over a fresh statistics file or over one with well-formed rows, each
    of [total_sam_repo], [total_sam_file] and [total_sam_comit] is the sum
    of its column over the rows of the file, those of earlier runs
    included. *)
Theorem totals_match_statistics (args : Args) (server : Server) (fuel : nat)
  (s : State) :
  unique_keys (db s) -> references_kept (db s) ->
  (forall rows, statistics s = Some rows ->
     Forall (fun row => (6 <= List.length row)%nat) rows) ->
  result (main args server fuel) s = Ret tt ->
  let s' := exec (main args server fuel) s in
  exists rows',
    statistics s' = Some rows' /\
    total_sam_repo s' = column 3 rows' /\
    total_sam_file s' = column 4 rows' /\
    total_sam_comit s' = column 5 rows'.
Proof.
  intros Hu Hr Hwf Hret s'. subst s'.
  destruct (main_steps args server fuel s) as [Hrun|[_ Hno]];
    [|contradiction].
  set (s0 := exec (startup args) s) in *.
  assert (Hstart : exists rows,
            statistics s0 = Some rows /\
            total_sam_repo s0 = column 3 rows /\
            total_sam_file s0 = column 4 rows /\
            total_sam_comit s0 = column 5 rows).
  { unfold s0. destruct (statistics s) as [rows|] eqn:Hstats.
    - pose proof (startup_resume args s rows Hstats) as Hst.
      match type of Hst with
      | _ = _ ?s1 =>
          destruct (replay_totals rows s1 (Hwf rows eq_refl))
            as (s2 & Hrep & Tr & Tf & Tc & Hs & _)
      end.
      assert (Hfin : startup args s =
                (pop <- gets pop_repo ;;
                 if pop >? -1 then next_stratum args else ret tt) s2).
      { rewrite Hst. unfold bind at 1. now rewrite Hrep. }
      unfold exec. rewrite Hfin.
      exists rows. simpl in Tr, Tf, Tc, Hs.
      unfold bind, gets, next_stratum, modify, ret.
      destruct (pop_repo s2 >? -1); simpl;
        rewrite ?Tr, ?Tf, ?Tc, Hs, Hstats; repeat split.
    - exists []. unfold exec, startup, bind, modify, gets, update_status.
      simpl. rewrite Hstats. simpl. repeat split. }
  destruct Hstart as (rows & Hst0 & Tr0 & Tf0 & Tc0).
  assert (Hloop : exists s1,
            main_loop args server fuel fuel s0 = (Ret tt, s1)).
  { unfold result in Hret. rewrite Hrun in Hret. unfold bind at 1 in Hret.
    destruct (main_loop args server fuel fuel s0) as [[[]| | |] s1];
      try discriminate. now exists s1. }
  destruct Hloop as [s1 Hloop].
  destruct (main_loop_totals args server fuel fuel s0 rows)
    as (new_rows & Hst1 & Tr1 & Tf1 & Tc1).
  - unfold s0. now rewrite startup_db.
  - unfold s0. now rewrite startup_db.
  - exact Hst0.
  - unfold result. now rewrite Hloop.
  - unfold exec in Hst1, Tr1, Tf1, Tc1. rewrite Hloop in Hst1, Tr1, Tf1, Tc1.
    cbn [snd] in Hst1, Tr1, Tf1, Tc1.
    exists (rows ++ new_rows)%list.
    assert (Hend : main args server fuel s =
              (update_status "Done." ;; ret tt) s1).
    { rewrite Hrun. unfold bind at 1. now rewrite Hloop. }
    unfold exec. rewrite Hend.
    simpl. rewrite !column_app. repeat split; [exact Hst1|lia..].
Qed.

Lemma totals_match_statistics_witness :
  let s := initial_state one_stratum Store.empty None 0 in
  let s' := exec (main one_stratum solidity_server 2) s in
  exists rows',
    statistics s' = Some rows' /\
    total_sam_repo s' = column 3 rows' /\
    total_sam_file s' = column 4 rows' /\
    total_sam_comit s' = column 5 rows'.
Proof.
  intros s s'.
  apply (totals_match_statistics one_stratum solidity_server 2 s).
  - repeat split; simpl; repeat constructor; simpl; tauto.
  - split; intros r [].
  - intros rows. discriminate.
  - reflexivity.
Defined.

(* ===================================================================== *)
(** * Inserted items are known *)
(* ===================================================================== *)

Section KnownFacts.

Import Store.

Lemma count_le {A : Type} (p q : A -> bool) (rows : list A) :
  (forall r, p r = true -> q r = true) -> count p rows <= count q rows.
Proof.
  intros Hpq. unfold count. induction rows as [|a rows IH]; simpl; [lia|].
  destruct (p a) eqn:Ea.
  - rewrite (Hpq a Ea). simpl. lia.
  - destruct (q a); simpl; lia.
Qed.

Lemma count_pos {A : Type} (p : A -> bool) (rows : list A) (r : A) :
  In r rows -> p r = true -> 1 <= count p rows.
Proof.
  unfold count. induction rows as [|a rows IH]; intros Hin Hr; [easy|].
  simpl. destruct Hin as [->|Hin].
  - rewrite Hr. simpl. lia.
  - specialize (IH Hin Hr). destruct (p a); simpl; lia.
Qed.

(** A repository is known when a row holds its id and its name, the ids
    being unique. *)
Lemma known_repo_row (repo : Repo) (d : database) (row : repo_row) :
  unique_keys d -> In row (Store.repo d) ->
  repo_id row = id repo -> r_full_name row = full_name repo ->
  (count (fun r => String.eqb (r_full_name r) (full_name repo) &&
                   (repo_id r =? id repo)) (Store.repo d) =? 1) = true.
Proof.
  intros (Hk & _) Hin Hid Hname. apply Z.eqb_eq.
  pose proof (count_le
    (fun r => String.eqb (r_full_name r) (full_name repo) &&
              (repo_id r =? id repo))
    (fun r => repo_id r =? id repo) (Store.repo d)) as Hle.
  pose proof (count_pos
    (fun r => String.eqb (r_full_name r) (full_name repo) &&
              (repo_id r =? id repo)) (Store.repo d) row Hin) as Hpos.
  rewrite (count_of_key repo_id _ (id repo) _ (repo_key (id repo)) Hk) in Hle.
  assert (count (fun r => String.eqb (r_full_name r) (full_name repo) &&
                          (repo_id r =? id repo)) (Store.repo d) <= 1).
  { etransitivity; [apply Hle|].
    - intros r Hr. now apply andb_true_iff in Hr.
    - destruct (existsb _ _); lia. }
  assert (1 <= count (fun r => String.eqb (r_full_name r) (full_name repo) &&
                               (repo_id r =? id repo)) (Store.repo d)).
  { apply Hpos. rewrite Hname, Hid, String.eqb_refl, Z.eqb_refl.
    reflexivity. }
  lia.
Qed.

(** After its insert, a repository that is not stored under another name
    has a row with its id and its name. *)
Lemma inserted_repo_row (repo : Repo) (d : database) :
  (forall r, In r (Store.repo d) -> repo_id r = id repo ->
             r_full_name r = full_name repo) ->
  exists row,
    In row (Store.repo
              (insert_or_ignore_repo
                 (mkRepoRow (id repo) (name repo) (full_name repo)
                    (description repo) (url repo)
                    (if fork repo then 1 else 0) (owner_id repo)
                    (owner_login repo)) d)) /\
    repo_id row = id repo /\ r_full_name row = full_name repo.
Proof.
  intros Hname. unfold insert_or_ignore_repo. simpl.
  destruct (existsb _ _) eqn:Ex.
  - apply existsb_exists in Ex. destruct Ex as (r & Hin & Hr).
    apply Z.eqb_eq in Hr. exists r. auto.
  - eexists. split; [simpl; apply in_or_app; right; left; reflexivity|].
    split; reflexivity.
Qed.

End KnownFacts.

(** X12. An item that was just inserted is known.  With unique keys in
    the database: after [insert_file], [known_file] is true for the same
    path and repository; after [insert_commit], [known_commit] is true for
    the same sha and file; after [insert_repo], [known_repo] is true,
    unless the id is stored under another name. *)
Theorem inserted_is_known (s : State) :
  unique_keys (db s) ->
  (forall file rid,
     result (known_file file rid) (exec (insert_file file rid) s)
       = Ret true) /\
  (forall commit res prnts fid,
     result (known_commit commit fid)
            (exec (insert_commit commit res prnts fid) s) = Ret true) /\
  (forall repo,
     (forall r, In r (Store.repo (db s)) -> Store.repo_id r = id repo ->
                Store.r_full_name r = full_name repo) ->
     result (known_repo repo) (exec (insert_repo repo) s) = Ret true).
Proof.
  intros Hu. split; [|split].
  - intros file rid. unfold result, known_file, gets. cbn [fst]. f_equal.
    rewrite db_insert_file.
    rewrite (count_of_key (fun r => (Store.f_path r, Store.f_repo_id r)) _
               (path file, rid) _ (file_key (path file) rid)).
    + now rewrite insert_file_key.
    + now apply unique_insert_file.
  - intros commit res prnts fid.
    unfold result, known_commit, gets. cbn [fst]. f_equal.
    rewrite db_insert_commit.
    rewrite (count_of_key (fun r => (Store.c_sha r, Store.c_file_id r)) _
               (commit_sha commit, fid) _ (comit_key (commit_sha commit) fid)).
    + now rewrite insert_comit_key.
    + now apply unique_insert_comit.
  - intros repo Hname. unfold result, known_repo, gets. cbn [fst]. f_equal.
    rewrite db_insert_repo.
    destruct (inserted_repo_row repo (db s) Hname) as (row & Hin & Hid & Hn).
    apply (known_repo_row repo _ row); auto.
    now apply unique_insert_repo.
Qed.

Lemma inserted_is_known_witness :
  let s := initial_state one_stratum renamed_db None 0 in
  let file := mkEntry "blob" "a.sol" "s1" "a" in
  result (known_file file 11) (exec (insert_file file 11) s) = Ret true.
Proof.
  intros s file.
  apply (proj1 (inserted_is_known s
                  ltac:(repeat split; simpl; repeat constructor; simpl;
                        tauto))).
Defined.

(** X13. The [file_id] that [insert_file] returns.  With unique keys, for
    a file that is not known the row is added and the value returned is
    the [file_id] of that row, larger than every [file_id] before.  For a
    file that is known nothing is added, and the value returned is the
    rowid of the last insert made on the connection, whatever row that
    was. *)
Theorem insert_file_returns_row (file : TreeEntry) (rid : Z) (s : State) :
  unique_keys (db s) ->
  let s1 := exec (insert_file file rid) s in
  (result (known_file file rid) s = Ret false ->
   exists fid,
     result (insert_file file rid) s = Ret fid /\
     In (Store.mkFileRow fid (entry_name file) (path file) (sha file) rid)
        (Store.file (db s1)) /\
     forall r, In r (Store.file (db s)) -> Store.file_id r < fid) /\
  (result (known_file file rid) s = Ret true ->
   result (insert_file file rid) s
     = Ret (Store.last_insert_rowid (db s)) /\
   db s1 = db s).
Proof.
  intros Hu s1. subst s1. split; intros Hknown;
    unfold result, known_file, gets in Hknown; cbn [fst] in Hknown;
    injection Hknown as Hknown.
  - pose proof (unknown_file _ _ _ Hu Hknown) as Ex.
    eexists. split; [reflexivity|].
    rewrite db_insert_file. unfold Store.insert_or_ignore_file.
    rewrite Ex. cbn. split.
    + apply in_or_app. right. left. reflexivity.
    + intros r Hr. now apply next_rowid_above.
  - assert (Ex : existsb
              (fun r => String.eqb (Store.f_path r) (path file) &&
                        (Store.f_repo_id r =? rid))
              (Store.file (db s)) = true).
    { destruct Hu as (_ & _ & Hk & _).
      rewrite (count_of_key (fun r => (Store.f_path r, Store.f_repo_id r)) _
                 (path file, rid) _ (file_key (path file) rid) Hk) in Hknown.
      now destruct (existsb _ _). }
    assert (Hdb : db (exec (insert_file file rid) s) = db s).
    { rewrite db_insert_file. now apply insert_file_present. }
    split; [|exact Hdb].
    unfold result, insert_file, bind, modify, gets, ret.
    cbn [fst snd db set_db].
    now rewrite (insert_file_present _ _ _ _ _ Ex).
Qed.

Lemma insert_file_returns_row_witness :
  let s := initial_state one_stratum renamed_db None 0 in
  let file := mkEntry "blob" "a.sol" "s1" "a" in
  result (insert_file file 11) s = Ret 1 /\
  result (insert_file file 11) (exec (insert_file file 11) s) = Ret 1 /\
  result (insert_file file 11) (exec (insert_repo some_repo)
                                  (exec (insert_file file 11) s)) = Ret 7.
Proof.
  intros s file.
  assert (Hu : unique_keys (db s))
    by (repeat split; simpl; repeat constructor; simpl; tauto).
  destruct (proj1 (insert_file_returns_row file 11 s Hu) eq_refl)
    as (fid & Hres & _).
  split; [|split]; reflexivity.
Defined.

(* ===================================================================== *)
(** * A repository is crawled once *)
(* ===================================================================== *)

Section CrawlOnce.

Variable args : Args.
Variable server : Server.

(** What follows the insert of a repository removes no row. *)
Lemma crawl_rest_keeps_rows (fuel : nat) (repo : Repo) :
  preserves rows_kept
    (try_except
       (get args server fuel (tree_url repo) [])
       (fun res =>
          entries <- json_tree res ;;
          files_loop args server fuel repo entries ;;
          ret true)
       (ret false)).
Proof.
  apply preserves_try_except.
  - now apply preserves_get.
  - intros res _ _.
    apply preserves_bind; [apply preserves_json_tree|intros entries _ _].
    apply preserves_bind; [apply preserves_files_loop|intros _ _ _].
    apply preserves_ret.
  - apply preserves_ret.
Qed.

(** [crawl_repo] on a repository that is not known, and on one that
    is. *)
Lemma crawl_repo_unknown (fuel : nat) (repo : Repo) (s : State) :
  result (known_repo repo) s = Ret false ->
  crawl_repo args server fuel repo s =
  try_except
    (get args server fuel (tree_url repo) [])
    (fun res =>
       entries <- json_tree res ;;
       files_loop args server fuel repo entries ;;
       ret true)
    (ret false) (exec (insert_repo repo) s).
Proof.
  intros Hknown. unfold crawl_repo, bind at 1.
  unfold known_repo, gets, result in Hknown |- *. cbn [fst] in Hknown.
  injection Hknown as ->. change (negb false) with true. cbv beta iota.
  unfold bind at 1.
  change (insert_repo repo s) with (Ret tt, exec (insert_repo repo) s).
  reflexivity.
Qed.

Lemma crawl_repo_known (fuel : nat) (repo : Repo) (s : State) :
  result (known_repo repo) s = Ret true ->
  crawl_repo args server fuel repo s = (Ret true, s).
Proof.
  intros Hknown. unfold crawl_repo, bind at 1.
  unfold known_repo, gets, result in Hknown |- *. cbn [fst] in Hknown.
  injection Hknown as ->. reflexivity.
Qed.

End CrawlOnce.

(** X14. A repository is crawled once.  With a database that keeps the
    constraints of the schema, and a repository that is not stored under
    another name: after [crawl_repo], however the crawl went (its tree
    may not have been fetched, the run may have been stopped), the
    repository is known, and crawling it again sends no request and
    changes nothing. *)
Theorem crawl_repo_once (args : Args) (server : Server) (fuel fuel' : nat)
  (repo : Repo) (s : State) :
  unique_keys (db s) -> references_kept (db s) ->
  (forall r, In r (Store.repo (db s)) -> Store.repo_id r = id repo ->
             Store.r_full_name r = full_name repo) ->
  let s1 := exec (crawl_repo args server fuel repo) s in
  result (known_repo repo) s1 = Ret true /\
  crawl_repo args server fuel' repo s1 = (Ret true, s1).
Proof.
  intros Hu Hr Hname s1.
  assert (Hknown : result (known_repo repo) s1 = Ret true).
  { assert (Hu1 : unique_keys (db s1)).
    { pose proof (kept_start s Hu Hr) as H0.
      exact (proj1 (keeps_crawl_repo args server _ _ _ _ _ _ fuel repo s H0)). }
    destruct (result (known_repo repo) s) as [[|]| | |] eqn:Hk;
      try (unfold result, known_repo, gets in Hk; discriminate).
    - unfold s1, exec.
      now rewrite (crawl_repo_known args server fuel repo s Hk).
    - assert (Hrows : rows_kept (exec (insert_repo repo) s) s1).
      { unfold s1, exec.
        rewrite (crawl_repo_unknown args server fuel repo s Hk).
        apply crawl_rest_keeps_rows. }
      destruct (inserted_repo_row repo (db s) Hname)
        as (row & Hin & Hid & Hn).
      unfold result, known_repo, gets. cbn [fst]. f_equal.
      apply (known_repo_row repo _ row); auto.
      apply Hrows. rewrite db_insert_repo. exact Hin. }
  split; [exact Hknown|].
  now apply crawl_repo_known.
Qed.

Lemma crawl_repo_once_witness :
  let s := initial_state one_stratum Store.empty None 0 in
  let s1 := exec (crawl_repo one_stratum failing_server 1 some_repo) s in
  result (crawl_repo one_stratum failing_server 1 some_repo) s = Ret false /\
  crawl_repo one_stratum failing_server 1 some_repo s1 = (Ret true, s1).
Proof.
  intros s s1. split; [reflexivity|].
  apply (crawl_repo_once one_stratum failing_server 1 1 some_repo s).
  - repeat split; simpl; constructor.
  - split; intros r [].
  - intros r [].
Defined.

(* ===================================================================== *)
(** * The queries of a stratum under the license filter *)
(* ===================================================================== *)

Section LicenseFacts.

Variable args : Args.
Variable server : Server.

(** The two passes for a license that returns: the ascending query, then
    the descending one or not; the bounds of the stratum stay. *)
Lemma sample_license_queries (fuel : nat) (lic : string) (s : State) :
  result (sample_license args server (S fuel) lic) s = Ret tt ->
  let s2 := exec (sample_license args server (S fuel) lic) s in
  same_stratum s s2 /\
  exists twice : bool,
    search_queries (trace s2) =
      ((if twice
        then [(query args (strat_first s) (strat_last s) lic, "desc")]
        else []) ++
       (query args (strat_first s) (strat_last s) lic, "asc") ::
       search_queries (trace s))%list.
Proof.
  intros Hret s2. unfold s2, sample_license in *.
  rewrite result_bind in Hret. rewrite exec_bind.
  destruct (result (license_ascending_pass args server (S fuel) lic) s)
    as [[]| | |] eqn:Hres; try discriminate.
  destruct (pass_queries args (license_ascending_pass args server (S fuel) lic)
              "asc" lic s (license_ascending_pass_sends args server fuel lic s))
    as [Hq1 [Hf Hl]].
  set (s1 := exec (license_ascending_pass args server (S fuel) lic) s) in *.
  assert (Hg : forall (c : M unit) st,
            exec (pop <- gets pop_repo ;;
                  if pop >? 1000 then c else ret tt) st =
            exec (if pop_repo st >? 1000 then c else ret tt) st)
    by reflexivity.
  rewrite Hg.
  destruct (pop_repo s1 >? 1000).
  - destruct (pass_queries args
                (license_descending_pass args server (S fuel) lic)
                "desc" lic s1
                (license_descending_pass_sends args server fuel lic s1))
      as [Hq2 [Hf2 Hl2]].
    split; [split; congruence|].
    exists true. rewrite Hq2, Hq1, Hf, Hl. reflexivity.
  - split; [split; assumption|]. exists false. exact Hq1.
Qed.

Lemma license_queries_length (a b : Z) (lics : list string) :
  forall again, List.length again = List.length lics ->
  (List.length lics <= List.length (license_queries args a b lics again)
   <= 2 * List.length lics)%nat.
Proof.
  induction lics as [|lic lics IH]; intros [|twice again] Hlen;
    try discriminate; simpl; [lia|].
  injection Hlen as Hlen. specialize (IH again Hlen).
  rewrite length_app. destruct twice; simpl; lia.
Qed.

End LicenseFacts.

(** X15. The queries of a stratum under the license filter: when the
    sampling of a stratum returns, it has sent, for each license of the
    list and in the order of the list, the ascending query for that
    license and the bounds of the stratum, followed or not by the same
    query in descending order, and no other search query: between one and
    two queries for each license. *)
Theorem licensed_stratum_queries (args : Args) (server : Server) (fuel : nat)
  (lics : list string) (s : State) :
  result (sample_licenses args server fuel lics) s = Ret tt ->
  let s' := exec (sample_licenses args server fuel lics) s in
  exists again : list bool,
    List.length again = List.length lics /\
    rev (search_queries (trace s')) =
      (rev (search_queries (trace s)) ++
       license_queries args (strat_first s) (strat_last s) lics again)%list /\
    (List.length lics
     <= List.length (license_queries args (strat_first s) (strat_last s)
                       lics again)
     <= 2 * List.length lics)%nat.
Proof.
  intros Hret s'.
  assert (Hmain : exists again : list bool,
            List.length again = List.length lics /\
            rev (search_queries (trace s')) =
              (rev (search_queries (trace s)) ++
               license_queries args (strat_first s) (strat_last s) lics
                 again)%list).
  { subst s'. revert s Hret.
    induction lics as [|lic lics IH]; intros s Hret.
    - exists []. split; [reflexivity|]. simpl. now rewrite app_nil_r.
    - destruct fuel as [|fuel]; [discriminate|].
      simpl sample_licenses in *.
      rewrite result_bind in Hret. rewrite exec_bind.
      destruct (result (sample_license args server (S fuel) lic) s)
        as [[]| | |] eqn:Hres; try discriminate.
      destruct (sample_license_queries args server fuel lic s Hres)
        as [[Hf Hl] [twice Hq]].
      destruct (IH _ Hret) as (again & Hlen & Hrest).
      exists (twice :: again). split; [simpl; now rewrite Hlen|].
      rewrite Hrest, Hq, Hf, Hl. simpl license_queries.
      destruct twice; simpl; rewrite <- ?app_assoc; reflexivity. }
  destruct Hmain as (again & Hlen & Hq).
  exists again. split; [exact Hlen|]. split; [exact Hq|].
  now apply license_queries_length.
Qed.

Lemma licensed_stratum_queries_witness :
  let s := initial_state one_stratum Store.empty None 0 in
  let s' := exec (sample_licenses one_stratum crowded_server 1
                    ["mit"; "gpl-3.0"]) s in
  exists again : list bool,
    List.length again = 2%nat /\
    rev (search_queries (trace s')) =
      ([] ++ license_queries one_stratum 1 5 ["mit"; "gpl-3.0"] again)%list /\
    (2 <= List.length (license_queries one_stratum 1 5 ["mit"; "gpl-3.0"]
                         again) <= 2 * 2)%nat.
Proof.
  intros s s'.
  apply (licensed_stratum_queries one_stratum crowded_server 1
           ["mit"; "gpl-3.0"] s).
  vm_compute. reflexivity.
Defined.

(* ===================================================================== *)
(** * The statistics file at the start of a run *)
(* ===================================================================== *)

Section RestartFacts.

Variable args : Args.

(** A row with fewer than six cells cannot be replayed. *)
Lemma replay_row_short (row : list Z) (s : State) :
  (List.length row < 6)%nat ->
  result (replay_row row) s = Raise IndexError.
Proof.
  intros Hlen.
  destruct row as [|c0 [|c1 [|c2 [|c3 [|c4 [|c5 extra]]]]]];
    simpl in Hlen; try lia; reflexivity.
Qed.

End RestartFacts.

(** X16. The statistics file at the start of a run.  Without a file, or
    with a file that has no row, the run starts at the first stratum with
    totals of zero (and creates the file).  A row with fewer than six
    cells after well-formed ones stops the start with [IndexError]; no
    request has been sent then. *)
Theorem startup_edges (args : Args) (s : State) :
  (statistics s = None \/ (statistics s = Some [] /\ pop_repo s <= -1) ->
   let s' := exec (startup args) s in
   result (startup args) s = Ret tt /\
   statistics s' = Some [] /\
   (strat_first s', strat_last s') = (strat_first s, strat_last s) /\
   total_sam_repo s' = 0 /\ total_sam_file s' = 0 /\
   total_sam_comit s' = 0) /\
  (forall rows row rest,
     statistics s = Some (rows ++ row :: rest)%list ->
     Forall (fun row => (6 <= List.length row)%nat) rows ->
     (List.length row < 6)%nat ->
     result (startup args) s = Raise IndexError /\
     trace (exec (startup args) s) = trace s).
Proof.
  split.
  - intros [Hnone|[Hempty Hpop]] s'; subst s';
      unfold result, exec, startup, bind, modify, gets, update_status, ret;
      simpl.
    + rewrite Hnone. simpl. repeat split.
    + rewrite Hempty. simpl.
      destruct (Z.gtb_spec (pop_repo s) (-1)) as [Hgt|_]; [lia|].
      simpl. rewrite Hempty. repeat split.
  - intros rows row rest Hstats Hwf Hlen.
    pose proof (startup_resume args s _ Hstats) as Hrun.
    match type of Hrun with
    | _ = _ ?s0 =>
        destruct (replay_totals rows s0 Hwf) as (s1 & Hr & _);
        assert (Htrace : trace s1 = trace s)
    end.
    { assert (Hk : keeps (fun st => trace st = trace s) (replay rows)).
      { clear. induction rows as [|r rows IH]; simpl; [apply carries_ret|].
        apply keeps_bind; [|intros _; exact IH]. unfold replay_row, cell.
        repeat (apply keeps_bind;
                [first [destruct (nth_error _ _);
                        [apply carries_ret|apply carries_raise]
                       |apply carries_modify; intros ? H; exact H]
                |intros ?]).
        apply carries_modify; intros ? H; exact H. }
      match type of Hr with
      | replay rows ?s0 = _ =>
          specialize (Hk s0 eq_refl); unfold exec in Hk; now rewrite Hr in Hk
      end. }
    assert (Hfin : startup args s =
              (replay (row :: rest) ;;
               pop <- gets pop_repo ;;
               if pop >? -1 then next_stratum args else ret tt) s1).
    { rewrite Hrun. unfold bind at 1 3.
      now rewrite (replay_app rows (row :: rest) _ s1 Hr). }
    pose proof (replay_row_short row s1 Hlen) as Hshort.
    assert (Hk : keeps (fun st => trace st = trace s) (replay_row row)).
    { unfold replay_row, cell.
      repeat (apply keeps_bind;
              [first [destruct (nth_error _ _);
                      [apply carries_ret|apply carries_raise]
                     |apply carries_modify; intros ? H; exact H]
              |intros ?]).
      apply carries_modify; intros ? H; exact H. }
    specialize (Hk s1 Htrace).
    split.
    + unfold result at 1. rewrite Hfin.
      match goal with
      | |- fst (?c s1) = _ => change (result c s1 = Raise IndexError)
      end.
      rewrite result_bind. simpl replay. rewrite result_bind, Hshort.
      reflexivity.
    + unfold exec at 1. rewrite Hfin.
      match goal with
      | |- trace (snd (?c s1)) = _ => change (trace (exec c s1) = trace s)
      end.
      rewrite exec_bind. simpl replay. rewrite result_bind, Hshort.
      rewrite exec_bind, Hshort. exact Hk.
Qed.

Lemma startup_edges_witness :
  let s := initial_state one_stratum Store.empty
             (Some [[1; 5; 3; 3; 2; 4]; [6; 10; 2]]) 0 in
  result (startup one_stratum) s = Raise IndexError /\
  trace (exec (startup one_stratum) s) = trace s.
Proof.
  intros s.
  apply (proj2 (startup_edges one_stratum s) [[1; 5; 3; 3; 2; 4]] [6; 10; 2]
           []).
  - reflexivity.
  - repeat constructor.
  - simpl. lia.
Defined.

(* ===================================================================== *)
(** * A run follows the plan *)
(* ===================================================================== *)

(** X17. The rows of a run follow the plan.  A run that ends has appended
    to the statistics file one row for each stratum that the walk over the
    strata lists, in that order and with its bounds: from the first
    stratum when the run starts without a statistics file, and from the
    step after the last row when it resumes from a file whose rows are
    well formed and whose last row has a known population.  The rows of
    the file it found are left as they were. *)
Theorem run_follows_plan (args : Args) (server : Server) (fuel : nat)
  (s : State) :
  result (main args server fuel) s = Ret tt ->
  let s' := exec (main args server fuel) s in
  (statistics s = None ->
   exists new_rows,
     statistics s' = Some new_rows /\
     strata_from fuel args (strat_first s, strat_last s)
       = Some (map row_bounds new_rows)) /\
  (forall rows first last pop sr sf sc,
     statistics s = Some (rows ++ [[first; last; pop; sr; sf; sc]])%list ->
     Forall (fun row => (6 <= List.length row)%nat) rows ->
     -1 < pop ->
     exists new_rows,
       statistics s' =
         Some ((rows ++ [[first; last; pop; sr; sf; sc]]) ++ new_rows)%list /\
       strata_from fuel args (strat_advance args (first, last))
         = Some (map row_bounds new_rows)).
Proof.
  intros Hret s'. subst s'.
  destruct (main_steps args server fuel s) as [Hrun|[_ Hno]];
    [|contradiction].
  set (s0 := exec (startup args) s) in *.
  assert (Hloop : exists s1,
            main_loop args server fuel fuel s0 = (Ret tt, s1)).
  { unfold result in Hret. rewrite Hrun in Hret. unfold bind at 1 in Hret.
    destruct (main_loop args server fuel fuel s0) as [[[]| | |] s1];
      try discriminate. now exists s1. }
  destruct Hloop as [s1 Hloop].
  assert (Hend : statistics (exec (main args server fuel) s) = statistics s1).
  { unfold exec. rewrite Hrun. unfold bind at 1. now rewrite Hloop. }
  assert (Hplan : forall rows,
            statistics s0 = Some rows ->
            exists new_rows,
              statistics s1 = Some (rows ++ new_rows)%list /\
              strata_from fuel args (strat_first s0, strat_last s0) =
                Some (map row_bounds new_rows)).
  { intros rows Hst0.
    destruct (main_loop_strata args server fuel fuel s0 rows Hst0)
      as (new_rows & Hst & Hstrata).
    - unfold result. now rewrite Hloop.
    - unfold exec in Hst. rewrite Hloop in Hst. now exists new_rows. }
  rewrite Hend. split.
  - intros Hnone.
    assert (H0 : statistics s0 = Some [] /\
                 strat_first s0 = strat_first s /\
                 strat_last s0 = strat_last s).
    { unfold s0, exec, startup, bind, modify, gets. simpl.
      rewrite Hnone. repeat split. }
    destruct H0 as (Hst0 & Hf & Hl).
    destruct (Hplan [] Hst0) as (new_rows & Hst & Hstrata).
    exists new_rows. rewrite <- Hf, <- Hl. auto.
  - intros rows first last pop sr sf sc Hstats Hwf Hpop.
    assert (H0 : statistics s0 =
                   Some (rows ++ [[first; last; pop; sr; sf; sc]])%list /\
                 (strat_first s0, strat_last s0) =
                   strat_advance args (first, last)).
    { pose proof (startup_resume args s _ Hstats) as Hst.
      match type of Hst with
      | _ = _ ?st =>
          destruct (replay_totals rows st Hwf)
            as (s2 & Hr & _ & _ & _ & Hs2 & _);
          unfold bind at 1 in Hst;
          rewrite (replay_app rows _ st s2 Hr) in Hst
      end.
      simpl in Hs2.
      assert (Hgt : (pop >? -1) = true) by (apply Z.gtb_lt; lia).
      unfold s0, exec. rewrite Hst.
      unfold replay, replay_row, cell, bind, modify, gets, ret,
        strat_advance; simpl.
      rewrite Hgt. simpl. rewrite Hs2, Hstats. split; reflexivity. }
    destruct H0 as (Hst0 & Hb).
    destruct (Hplan _ Hst0) as (new_rows & Hst & Hstrata).
    exists new_rows. rewrite <- Hb. auto.
Qed.

Lemma run_follows_plan_witness :
  let s := initial_state one_stratum Store.empty None 0 in
  let s' := exec (main one_stratum solidity_server 2) s in
  exists new_rows,
    statistics s' = Some new_rows /\
    strata_from 2 one_stratum (1, 5) = Some (map row_bounds new_rows).
Proof.
  intros s s'.
  apply (proj1 (run_follows_plan one_stratum solidity_server 2 s eq_refl)).
  reflexivity.
Defined.

(* ===================================================================== *)
(** * The number of strata *)
(* ===================================================================== *)

Lemma strata_from_length (args : Args) (fuel : nat) :
  1 <= stratum_size args ->
  forall b l,
  strata_from fuel args b = Some l -> fst b <= max_size args ->
  Z.of_nat (List.length l) = (max_size args - fst b) / stratum_size args + 1.
Proof.
  intros Hw. induction fuel as [|fuel IH]; intros b l Hrun Hle;
    simpl in Hrun;
    destruct (Z.leb_spec (fst b) (max_size args)) as [_|Hgt];
    try discriminate; try lia.
  destruct (strata_from fuel args (strat_advance args b)) as [rest|] eqn:E;
    [|discriminate].
  injection Hrun as <-. simpl List.length. rewrite Nat2Z.inj_succ.
  destruct (Z_le_gt_dec (fst (strat_advance args b)) (max_size args))
    as [Hnext|Hnext].
  - rewrite (IH _ _ E Hnext). simpl fst.
    replace (max_size args - fst b)
      with (max_size args - (fst b + stratum_size args)
            + 1 * stratum_size args) by lia.
    rewrite Z.div_add by lia. lia.
  - simpl in Hnext.
    assert (Hrest : rest = []).
    { destruct fuel; simpl in E;
        destruct (Z.leb_spec (fst b + stratum_size args) (max_size args));
        try lia; congruence. }
    subst rest. simpl.
    rewrite Z.div_small by lia. lia.
Qed.

(** The answers that [lower] turns into [y] or [yes]. *)
Lemma lower_char_letter (a b : ascii) :
  In b ["y"; "e"; "s"]%char -> lower_char a = b ->
  a = b \/ a = ascii_of_N (N_of_ascii b - 32).
Proof.
  intros Hb H.
  destruct Hb as [<-|[<-|[<-|[]]]];
    destruct a as [[] [] [] [] [] [] [] []]; vm_compute in H;
    try discriminate; auto.
Qed.

Lemma lower_confirms (answer : string) :
  lower answer = "yes" \/ lower answer = "y" <->
  In answer ["y"; "Y"; "yes"; "Yes"; "yEs"; "yeS"; "YEs"; "YeS"; "yES";
             "YES"].
Proof.
  split.
  - intros [H|H].
    + destruct answer as [|a [|b [|c [|d answer]]]]; try discriminate.
      simpl in H. injection H as Ha Hb Hc.
      apply (lower_char_letter a "y") in Ha; [|simpl; tauto].
      apply (lower_char_letter b "e") in Hb; [|simpl; tauto].
      apply (lower_char_letter c "s") in Hc; [|simpl; tauto].
      destruct Ha as [-> | ->], Hb as [-> | ->], Hc as [-> | ->];
        vm_compute; tauto.
    + destruct answer as [|a [|b answer]]; try discriminate.
      simpl in H. injection H as Ha.
      apply (lower_char_letter a "y") in Ha; [|simpl; tauto].
      destruct Ha as [-> | ->]; vm_compute; tauto.
  - intros H. repeat (destruct H as [<-|H]; [vm_compute; tauto|]).
    destruct H.
Qed.

(** X18. Which command lines start a run, and with how many strata.  The
    script gets past its checks exactly when
    [1 <= min_size < max_size <= 393216], the width is at least one and,
    where no token is given, the question whether to go on without one is
    answered [y] or [yes], in small or capital letters; and then the walk
    over the strata, when it ends, has visited
    [(max_size - min_size) / stratum_size + 1] strata. *)
Theorem strata_count (args : Args) (confirm_no_token : option string) :
  (args_accepted args confirm_no_token = true <->
   1 <= min_size args < max_size args /\
   max_size args <= MAX_FILE_SIZE /\ 1 <= stratum_size args /\
   (no_token args = true ->
    exists answer,
      confirm_no_token = Some answer /\
      In answer ["y"; "Y"; "yes"; "Yes"; "yEs"; "yeS"; "YEs"; "YeS"; "yES";
                 "YES"])) /\
  (forall fuel l,
     args_accepted args confirm_no_token = true ->
     strata fuel args = Some l ->
     Z.of_nat (List.length l) =
       (max_size args - min_size args) / stratum_size args + 1).
Proof.
  assert (Hsizes : sizes_accepted args = true <->
            1 <= min_size args < max_size args /\
            max_size args <= MAX_FILE_SIZE /\ 1 <= stratum_size args).
  { unfold sizes_accepted. rewrite !andb_true_iff, !negb_true_iff.
    rewrite !Z.ltb_ge, Z.geb_leb, Z.leb_gt, Z.gtb_ltb, Z.ltb_ge.
    unfold MAX_FILE_SIZE. lia. }
  assert (Htoken : token_accepted args confirm_no_token = true <->
            (no_token args = true ->
             exists answer,
               confirm_no_token = Some answer /\
               In answer ["y"; "Y"; "yes"; "Yes"; "yEs"; "yeS"; "YEs"; "YeS";
                          "yES"; "YES"])).
  { unfold token_accepted. destruct (no_token args).
    - destruct confirm_no_token as [answer|].
      + rewrite orb_true_iff, !String.eqb_eq, lower_confirms. split.
        * intros H _. now exists answer.
        * intros H. destruct (H eq_refl) as (a & [= <-] & Ha). exact Ha.
      + split; [discriminate|]. intros H.
        destruct (H eq_refl) as (a & Ha & _). discriminate.
    - split; [discriminate|reflexivity]. }
  assert (Hiff : args_accepted args confirm_no_token = true <->
            sizes_accepted args = true /\
            token_accepted args confirm_no_token = true).
  { unfold args_accepted. apply andb_true_iff. }
  split.
  - rewrite Hiff, Hsizes, Htoken. tauto.
  - intros fuel l Hacc Hrun. apply Hiff in Hacc. destruct Hacc as [Hacc _].
    apply Hsizes in Hacc.
    apply (strata_from_length args fuel) in Hrun; simpl; try lia.
    exact Hrun.
Qed.

Lemma strata_count_witness :
  let args := mkArgs 1 7 5 true false false None in
  args_accepted args (Some "Yes") = true /\
  strata 7 args = Some [(1, 5); (6, 7)] /\
  Z.of_nat (List.length [(1, 5); (6, 7)]) = (7 - 1) / 5 + 1.
Proof.
  intros args. split; [reflexivity|]. split; [reflexivity|].
  apply (proj2 (strata_count args (Some "Yes")) 7%nat [(1, 5); (6, 7)]);
    reflexivity.
Defined.

(* ===================================================================== *)
(** * The store only grows *)
(* ===================================================================== *)

#[export] Instance tables_grow_quiet : Quiet tables_grow.
Proof.
  assert (Hsame : forall s s' : State, db s' = db s -> tables_grow s s').
  { intros s s' Hdb. unfold tables_grow. rewrite Hdb.
    repeat split; exists []; now rewrite app_nil_r. }
  constructor; try (intros; apply Hsame; reflexivity).
  - intros s1 s2 s3 ((r1 & Hr1) & (f1 & Hf1) & (c1 & Hc1))
      ((r2 & Hr2) & (f2 & Hf2) & (c2 & Hc2)).
    repeat split; [exists (r1 ++ r2)%list|exists (f1 ++ f2)%list
                  |exists (c1 ++ c2)%list];
      rewrite app_assoc; congruence.
  - intros row s. unfold tables_grow. simpl.
    unfold Store.insert_or_ignore_repo. destruct (existsb _ _); simpl;
      repeat split; try (exists []; now rewrite app_nil_r).
    now exists [row].
  - intros nm pth sh rid s. unfold tables_grow. simpl.
    unfold Store.insert_or_ignore_file. destruct (existsb _ _); simpl;
      repeat split; try (exists []; now rewrite app_nil_r).
    eexists [_]. reflexivity.
  - intros sh msg size created content vers prnts fid s.
    unfold tables_grow. simpl.
    unfold Store.insert_or_ignore_comit. destruct (existsb _ _); simpl;
      repeat split; try (exists []; now rewrite app_nil_r).
    eexists [_]. reflexivity.
Qed.

Section GrowingStore.

Variable args : Args.
Variable server : Server.

Lemma tables_grow_same (s s' : State) : db s' = db s -> tables_grow s s'.
Proof.
  intros Hdb. unfold tables_grow. rewrite Hdb.
  repeat split; exists []; now rewrite app_nil_r.
Qed.

Lemma tables_grow_free : estimate_free tables_grow.
Proof. repeat split; apply tables_grow_same; reflexivity. Qed.

(** A pass only adds rows. *)
Lemma pass_grows (pass : M unit) (s : State) :
  (exists sent,
     same_globals s sent /\
     forall (R : State -> State -> Prop), Quiet R -> estimate_free R ->
       R sent (exec pass s)) ->
  tables_grow s (exec pass s).
Proof.
  intros (sent & Hglob & Hquiet).
  apply (quiet_trans s sent).
  - apply tables_grow_same. apply Hglob.
  - apply (Hquiet tables_grow _ tables_grow_free).
Qed.

Lemma grows_modify (f : State -> State) :
  (forall s, db (f s) = db s) -> preserves tables_grow (modify f).
Proof. intros Hf s. apply tables_grow_same. apply Hf. Qed.

Lemma grows_sampling (fuel : nat) :
  preserves tables_grow
    (if negb (licensed args) then sample_unlicensed args server (S fuel)
     else sample_licenses args server (S fuel) licenses).
Proof.
  destruct (negb (licensed args)).
  - unfold sample_unlicensed.
    apply preserves_bind.
    { intros s. apply pass_grows.
      destruct (ascending_pass_sends args server fuel s) as (sent & _ & H).
      now exists sent. }
    intros _ _ _. apply preserves_bind; [apply preserves_gets|intros pop _ _].
    destruct (pop >? 1000); [|apply preserves_ret].
    intros s. apply pass_grows.
    destruct (descending_pass_sends args server fuel s) as (sent & _ & H).
    now exists sent.
  - generalize licenses. intros lics.
    induction lics as [|lic rest IH]; simpl; [apply preserves_ret|].
    apply preserves_bind; [|intros _ _ _; exact IH].
    unfold sample_license.
    apply preserves_bind.
    { intros s. apply pass_grows.
      destruct (license_ascending_pass_sends args server fuel lic s)
        as (sent & _ & H).
      now exists sent. }
    intros _ _ _. apply preserves_bind; [apply preserves_gets|intros pop _ _].
    destruct (pop >? 1000); [|apply preserves_ret].
    intros s. apply pass_grows.
    destruct (license_descending_pass_sends args server fuel lic s)
      as (sent & _ & H).
    now exists sent.
Qed.

Lemma grows_sample_stratum (fuel : nat) :
  preserves tables_grow (sample_stratum args server (S fuel)).
Proof.
  unfold sample_stratum, next_stratum, writerow.
  do 4 (apply preserves_bind;
        [apply grows_modify; reflexivity|intros _ _ _]).
  apply preserves_bind; [apply grows_sampling|intros _ _ _].
  apply preserves_bind; [apply preserves_gets|intros row _ _].
  repeat (apply preserves_bind;
          [apply grows_modify; reflexivity|intros _ _ _]).
  apply grows_modify; reflexivity.
Qed.

Lemma grows_main_loop (fuel n : nat) :
  preserves tables_grow (main_loop args server fuel n).
Proof.
  induction n as [|n IH]; simpl;
    (apply preserves_bind; [apply preserves_gets|intros first _ _]);
    destruct (first <=? max_size args);
    try apply preserves_ret; try apply preserves_out_of_fuel.
  apply preserves_bind; [|intros _ _ _; exact IH].
  destruct fuel as [|fuel]; [|apply grows_sample_stratum].
  intros s. apply tables_grow_same.
  unfold sample_stratum, sample_unlicensed, sample_licenses, ascending_pass,
    licenses, sample_license, license_ascending_pass, search, get.
  destruct (negb (licensed args)); reflexivity.
Qed.

End GrowingStore.

(** X19. The store only grows: however a run ends and whatever the server
    answers, each of the three tables is, after the run, the table of
    before with rows appended.  No row is removed or rewritten; a
    repository that is found again under another name keeps the row it
    had. *)
Theorem run_appends_rows (args : Args) (server : Server) (fuel : nat)
  (s : State) :
  tables_grow s (exec (main args server fuel) s).
Proof.
  destruct (main_steps args server fuel s) as [Hrun|[Hrun _]].
  - unfold exec at 1. rewrite Hrun.
    apply (quiet_trans s (exec (startup args) s)).
    + apply tables_grow_same. apply startup_db.
    + assert (Hk : preserves tables_grow
                (main_loop args server fuel fuel ;;
                 update_status "Done." ;; ret tt)).
      { apply preserves_bind; [apply grows_main_loop|intros _ _ _].
        apply preserves_bind; [apply preserves_update_status|intros _ _ _].
        apply preserves_ret. }
      apply Hk.
  - rewrite Hrun. apply tables_grow_same. apply startup_db.
Qed.

(* ===================================================================== *)
(** * The request for the commits of a file *)
(* ===================================================================== *)

Section CommitsRequest.

(** The code points of an ASCII text are its bytes. *)
Lemma codepoints_ascii (t : string) :
  forallb (fun c => Re.byte c <? 128)%N (list_ascii_of_string t) = true ->
  Re.codepoints t = map Re.byte (list_ascii_of_string t).
Proof.
  induction t as [|c t IH]; intros H; [reflexivity|].
  simpl in H. apply andb_true_iff in H. destruct H as [Hc Ht].
  unfold Re.codepoints. simpl. unfold Re.head. rewrite Hc. simpl.
  f_equal. exact (IH Ht).
Qed.

Lemma ascii_length (t : string) :
  forallb (fun c => Re.byte c <? 128)%N (list_ascii_of_string t) = true ->
  List.length (Re.codepoints t) = String.length t.
Proof.
  intros H. rewrite (codepoints_ascii t H), length_map.
  induction t as [|c t IH]; simpl; [reflexivity|].
  simpl in H. apply andb_true_iff in H. now rewrite IH.
Qed.

(** [s[:-n]] takes a suffix of [n] ASCII characters away. *)
Lemma drop_last_suffix (n : nat) (base t : string) :
  forallb (fun c => Re.byte c <? 128)%N (list_ascii_of_string t) = true ->
  String.length t = n -> drop_last n (base ++ t) = base.
Proof.
  intros Hascii Hn. unfold drop_last. cbv zeta.
  assert (Hsplit : Re.codepoints (base ++ t) =
                   (Re.codepoints base ++ Re.codepoints t)%list).
  { destruct t as [|c t].
    - clear. replace (base ++ "") with base; [now rewrite app_nil_r|].
      induction base as [|a base IH]; simpl; congruence.
    - simpl in Hascii. apply andb_true_iff in Hascii.
      now apply codepoints_app. }
  rewrite Hsplit, length_app, (ascii_length t Hascii), Hn.
  replace (List.length (Re.codepoints base) + n - n)%nat
    with (List.length (Re.codepoints base)) by lia.
  rewrite firstn_app, Nat.sub_diag, firstn_all. simpl.
  rewrite app_nil_r. apply utf8_codepoints.
Qed.

(** What [replace] leaves has no [c], when the replacement has none. *)
Lemma replace_removes (c : ascii) (by_ s : string) :
  ~ In c (list_ascii_of_string by_) ->
  ~ In c (list_ascii_of_string (replace c by_ s)).
Proof.
  intros Hby. induction s as [|a s IH]; simpl; [tauto|].
  destruct (Ascii.eqb_spec a c) as [->|Hne].
  - assert (Happ : forall u v, list_ascii_of_string (u ++ v) =
              (list_ascii_of_string u ++ list_ascii_of_string v)%list).
    { intros u v. induction u as [|x u IHu]; simpl; [reflexivity|].
      now rewrite IHu. }
    rewrite Happ. intros Hin. apply in_app_or in Hin. tauto.
  - simpl. intros [Heq|Hin]; [now apply Hne|tauto].
Qed.

End CommitsRequest.

(** X20. The request for the commits of a file.  For a repository whose
    [commits_url] ends in the template [{/sha}], [download_all_commits]
    asks first for that URL without the template and with every [#]
    written as [%23] (so the URL sent holds no [#]), with the path of the
    file and a page size of 100 as parameters; what it does afterwards
    only adds to the trace. *)
Theorem commits_request (args : Args) (server : Server) (fuel : nat)
  (repo : Repo) (file : TreeEntry) (file_id : Z) (s : State)
  (base : string) :
  commits_url repo = base ++ "{/sha}" ->
  let url := replace "#" "%23" base in
  let s' := exec (download_all_commits args server (S fuel) repo file file_id)
                 s in
  ~ In "#"%char (list_ascii_of_string url) /\
  exists log,
    trace s' =
      (log ++
       EvRequest url [("path", path file); ("per_page", "100")]
         (negb (no_token args)) :: trace (throttled args s))%list.
Proof.
  intros Hurl url s'. split.
  { apply replace_removes. simpl. intros [H|[H|[H|[]]]]; discriminate. }
  assert (Hreq : replace "#" "%23" (drop_last 6 (commits_url repo)) = url).
  { rewrite Hurl, drop_last_suffix; reflexivity. }
  destruct (get_first_request args server fuel url
              [("path", path file); ("per_page", "100")] s)
    as (sent & Htrace & _ & Hquiet).
  destruct (Hquiet trace_grows _) as [l1 Hl1].
  assert (Hthen : trace_grows
            (exec (get args server (S fuel) url
                     [("path", path file); ("per_page", "100")]) s) s').
  { unfold s', download_all_commits, exec, try_except. cbv zeta.
    rewrite Hreq.
    destruct (get args server (S fuel) url
                [("path", path file); ("per_page", "100")] s)
      as [[res|e| |] s1]; cbn [snd]; try apply quiet_refl.
    match goal with
    | |- trace_grows s1 (snd (?c s1)) =>
        assert (Hk : preserves trace_grows c); [|apply Hk]
    end.
    apply preserves_bind;
      [apply preserves_download_commits_from_page|intros _ _ _].
    apply preserves_bind; [apply preserves_commit_pages|intros _ _ _].
    apply preserves_bind; [apply preserves_update_status|intros _ _ _].
    apply preserves_ret. }
  destruct Hthen as [l2 Hl2].
  exists (l2 ++ l1)%list.
  rewrite Hl2, Hl1, Htrace, <- app_assoc. reflexivity.
Qed.

Lemma commits_request_witness :
  let s := initial_state one_stratum Store.empty None 0 in
  let file := mkEntry "blob" "a.sol" "f1" "a" in
  let s' := exec (download_all_commits one_stratum failing_server 1 some_repo
                    file 1) s in
  exists log,
    trace s' =
      (log ++
       EvRequest "https://api.github.com/repos/o/n/commits"
         [("path", "a.sol"); ("per_page", "100")] true :: [])%list.
Proof.
  intros s file.
  destruct (commits_request one_stratum failing_server 0 some_repo file 1 s
              "https://api.github.com/repos/o/n/commits" eq_refl)
    as [_ H].
  exact H.
Defined.

(* ===================================================================== *)
(** * What the client returns *)
(* ===================================================================== *)

Section ReturnedResponses.

Variable args : Args.
Variable server : Server.

(** [pass_on] returns a response only when its status is 200, or when the
    status is no error and the body carries a message to log. *)
Lemma pass_on_returns (res res' : Response) (s : State) :
  result (pass_on res) s = Ret res' ->
  res' = res /\
  (status_code res = 200 \/
   (~ 400 <= status_code res < 600 /\ exists m, body res = ErrorMessage m)).
Proof.
  unfold result, pass_on, when, handle_log_response, raise_for_status,
    json_message, update_status, time_sleep, bind, modify, gets, ret, raise.
  destruct (Z.eqb_spec (status_code res) 200) as [H200|H200]; cbn.
  - destruct (_ && _); cbn; intros [= <-]. auto.
  - destruct (body res) as [n l|l|l|m|t|] eqn:Hb; cbn; try discriminate.
    destruct ((400 <=? status_code res) && (status_code res <? 600)) eqn:E;
      cbn; intros [= <-].
    split; [reflexivity|]. right. split; [|now exists m].
    apply andb_false_iff in E. destruct E as [E|E];
      [apply Z.leb_gt in E|apply Z.ltb_ge in E]; lia.
Qed.

Lemma get_returns (fuel : nat) : forall url params s res,
  result (get args server fuel url params) s = Ret res ->
  status_code res = 200 \/
  (~ 400 <= status_code res < 600 /\ exists m, body res = ErrorMessage m).
Proof.
  induction fuel as [|fuel IH]; intros url params s res Hret;
    [discriminate|].
  destruct (server (requests s) (prepare url params) (negb (no_token args)))
    as [r| |] eqn:Hreply.
  - destruct (Z.eq_dec (status_code r) 403) as [H403|H403].
    + destruct (get_403 args server fuel url params s r Hreply H403)
        as (s1 & Hrun & _).
      unfold result in *. rewrite Hrun in Hret. exact (IH _ _ _ _ Hret).
    + destruct (get_not_403 args server fuel url params s r Hreply H403)
        as (res0 & s1 & Hrun & _).
      unfold result in Hret. rewrite Hrun in Hret.
      destruct (pass_on_returns res0 res s1 Hret) as [-> H]. exact H.
  - destruct (get_no_reply args server fuel url params s) as [H|H];
      [intros r; rewrite Hreply; discriminate| |]; congruence.
  - destruct (get_no_reply args server fuel url params s) as [H|H];
      [intros r; rewrite Hreply; discriminate| |]; congruence.
Qed.

End ReturnedResponses.

(** X21. What the client returns.  A response that [get], [search] or
    [get_content] hands to its caller has status 200, or a status outside
    400..599 together with a body that carries a message (which has been
    logged): an error status never comes back as a response, and neither
    does a response that could not be logged. *)
Theorem returned_responses (args : Args) (server : Server) (fuel : nat)
  (s : State) (res : Response) :
  let fine (r : Response) :=
    status_code r = 200 \/
    (~ 400 <= status_code r < 600 /\ exists m, body r = ErrorMessage m) in
  (forall url params,
     result (get args server fuel url params) s = Ret res -> fine res) /\
  (forall a b order license,
     result (search args server fuel a b order license) s = Ret res ->
     fine res) /\
  (forall url, result (get_content server url) s = Ret res -> fine res).
Proof.
  intros fine. split; [|split].
  - intros url params. apply get_returns.
  - intros a b order license. apply get_returns.
  - intros url Hret. unfold result in Hret. rewrite get_content_unfold in Hret.
    unfold bind, except_connection_error, requests_get, signal_handler in Hret.
    destruct (server (requests s) (prepare url []) false) as [r| |];
      cbn [fst snd] in Hret; try discriminate.
    match type of Hret with
    | fst (pass_on ?r0 ?s1) = _ =>
        destruct (pass_on_returns r0 res s1 Hret) as [-> H]
    end.
    exact H.
Qed.

Lemma returned_responses_witness :
  let s := initial_state one_stratum Store.empty None 0 in
  let res := mkResponse 200 search_url None None None None
               (SearchResults 1 [some_repo]) 0 in
  status_code res = 200 \/
  (~ 400 <= status_code res < 600 /\ exists m, body res = ErrorMessage m).
Proof.
  intros s res.
  apply (proj1 (returned_responses one_stratum solidity_server 1 s res)
           search_url []).
  reflexivity.
Defined.

(* ===================================================================== *)
(** * A lost connection *)
(* ===================================================================== *)

(** X22. A lost connection is not a failure of one item.  When the
    connection is lost at the request for the tree of a repository that is
    not known, the crawl of the repository ends the program: the loop over
    the page does not go on to the next repository.  The row of the
    repository has been inserted by then. *)
Theorem connection_loss_ends_run (args : Args) (server : Server)
  (fuel : nat) (repo : Repo) (rest : list Repo) (s : State) :
  result (known_repo repo) s = Ret false ->
  server (requests s) (tree_url repo) (negb (no_token args)) = NoConnection ->
  result (crawl_repo args server (S fuel) repo) s = Exit /\
  result (repos_loop args server (S fuel) (repo :: rest)) s = Exit /\
  has_repo (id repo)
    (db (exec (repos_loop args server (S fuel) (repo :: rest)) s)).
Proof.
  intros Hknown Hreply.
  set (sa := exec (insert_repo repo) s).
  assert (Hget : result (get args server (S fuel) (tree_url repo) []) sa
                 = Exit).
  { apply get_no_connection. exact Hreply. }
  assert (Hdb : db (exec (get args server (S fuel) (tree_url repo) []) sa)
                = db sa).
  { apply only_world_db. apply get_only_world. }
  assert (Hcrawl : crawl_repo args server (S fuel) repo s =
            (Exit, exec (get args server (S fuel) (tree_url repo) []) sa)).
  { rewrite (crawl_repo_unknown args server (S fuel) repo s Hknown).
    fold sa. unfold try_except. unfold result, exec in Hget |- *.
    destruct (get args server (S fuel) (tree_url repo) [] sa) as [o s1].
    cbn [fst snd] in *. now subst o. }
  assert (Hloop : repos_loop args server (S fuel) (repo :: rest) s =
            (Exit, exec (get args server (S fuel) (tree_url repo) []) sa)).
  { simpl repos_loop. unfold bind at 1. now rewrite Hcrawl. }
  unfold result, exec. rewrite Hcrawl, Hloop. cbn [fst snd].
  split; [reflexivity|]. split; [reflexivity|].
  fold (exec (get args server (S fuel) (tree_url repo) []) sa).
  rewrite Hdb. unfold sa. rewrite db_insert_repo.
  apply (has_repo_inserted
           (Store.mkRepoRow (id repo) (name repo) (full_name repo)
              (description repo) (url repo) (if fork repo then 1 else 0)
              (owner_id repo) (owner_login repo))).
Qed.

Lemma connection_loss_ends_run_witness :
  let offline : Server := fun _ _ _ => NoConnection in
  let s := initial_state one_stratum Store.empty None 0 in
  result (repos_loop one_stratum offline 1 [some_repo; some_repo]) s = Exit /\
  has_repo 7
    (db (exec (repos_loop one_stratum offline 1 [some_repo; some_repo]) s)).
Proof.
  intros offline s.
  destruct (connection_loss_ends_run one_stratum offline 0 some_repo
              [some_repo] s eq_refl eq_refl) as (_ & Hloop & Hrow).
  split; [exact Hloop|exact Hrow].
Defined.

(* ===================================================================== *)
(** * The main loop ends *)
(* ===================================================================== *)

(** X23. The main loop ends.  With a stratum width of at least one, and
    starting from a state whose statistics file exists, the loop over the
    strata takes at most [max_size - strat_first + 1] turns: with that
    many turns allowed it does not run on, unless the sampling of a
    stratum does. *)
Theorem main_loop_ends (args : Args) (server : Server) (fuel : nat) :
  1 <= stratum_size args ->
  (forall st, result (sample_stratum args server fuel) st <> OutOfFuel) ->
  forall (n : nat) (s : State) (rows : list (list Z)),
  statistics s = Some rows ->
  (Z.to_nat (max_size args - strat_first s + 1) <= n)%nat ->
  result (main_loop args server fuel n) s <> OutOfFuel.
Proof.
  intros Hw Hsam. induction n as [|n IH]; intros s rows Hstats Hn.
  - unfold result, main_loop, bind, gets. cbn [fst snd].
    destruct (Z.leb_spec (strat_first s) (max_size args)); [lia|].
    discriminate.
  - assert (Hrun : main_loop args server fuel (S n) s =
              (if strat_first s <=? max_size args
               then (sample_stratum args server fuel ;;
                     main_loop args server fuel n)
               else ret tt) s) by reflexivity.
    unfold result. rewrite Hrun.
    destruct (Z.leb_spec (strat_first s) (max_size args)) as [Hle|Hgt];
      [|discriminate].
    pose proof (sample_stratum_row args server fuel s rows Hstats) as Hrow.
    pose proof (Hsam s) as Hs.
    unfold result, exec in Hrow, Hs. unfold bind at 1.
    destruct (sample_stratum args server fuel s) as [[[]|e| |] s1];
      cbn [fst snd] in *; try discriminate; [|contradiction].
    destruct (Hrow eq_refl) as ((row & Hst1 & _) & Hadv).
    apply (IH s1 _ Hst1).
    injection Hadv as Hf _. simpl in Hf. lia.
Qed.

Lemma main_loop_ends_witness :
  let s := exec (startup one_stratum)
             (initial_state one_stratum Store.empty None 0) in
  result (main_loop one_stratum crowded_server 1 5) s <> OutOfFuel.
Proof.
  intros s.
  apply (main_loop_ends one_stratum crowded_server 1) with (rows := []).
  - simpl. lia.
  - intros st. vm_compute. discriminate.
  - reflexivity.
  - vm_compute. lia.
Defined.
